(** * Ordinary percolation on a pore network

    A shallow embedding of [OpenPNM/ALG/__OrdinaryPercolationAlgorithm__.py]:
    the class [OrdinaryPercolationAlgorithm] with its methods [_setup],
    [_do_outer_iteration_stage], [_do_one_inner_iteration] and
    [_plot_results].

    Conventions of the embedding.
    - numpy float arrays are lists of exact rationals ([Q]); the comparisons
      and the sentinel test [== 0] are numeric ([Qeq_bool]), arithmetic is
      exact (rounding is idealised away); the quotient of two float64
      sums is a [float64], which is [nan] or infinite on a zero divisor;
    - numpy integer arrays are lists of [Z], boolean arrays lists of [bool];
    - the property dictionaries of the network are [gmap string ndarray];
    - the algorithm object (with the network it holds) is the state of a
      small state-and-exception monad [M]; a Python exception leaves the
      state as it was when it was raised. *)

From Stdlib Require Import ZArith QArith Qminmax List Lia Lqa Bool Sorted.
From stdpp Require Import gmap strings list fin_maps.

Local Open Scope Z_scope.

(** ** Exceptions and outcomes *)

Inductive exn : Type :=
| KeyError | ValueError | IndexError | ZeroDivisionError
| AttributeError | NameError | TypeError.

Inductive outcome (A : Type) : Type :=
| Return (a : A)
| Raise (e : exn).

Arguments Return {A} a.
Arguments Raise {A} e.

(** ** numpy helpers *)

Module np.

Definition b2z (b : bool) : Z := if b then 1 else 0.

Definition Qltb (a b : Q) : bool := negb (Qle_bool b a).

(** [np.size] of a Python list. *)
Definition size {A} (a : list A) : Z := Z.of_nat (length a).

(** [np.in1d(ar1, ar2)]: for each element of [ar1], is it in [ar2]. *)
Definition in1d (ar1 ar2 : list Z) : list bool :=
  map (fun x => existsb (Z.eqb x) ar2) ar1.

(** [np.zeros(n)] *)
Definition zeros (n : nat) : list Q := repeat 0%Q n.

Definition izeros (n : nat) : list Z := repeat 0 n.

Definition Qminb (a b : Q) : Q := if Qle_bool a b then a else b.
Definition Qmaxb (a b : Q) : Q := if Qle_bool a b then b else a.

(** [np.min] and [np.max]: a zero-size array has no minimum (ValueError). *)
Definition min (a : list Q) : outcome Q :=
  match a with
  | [] => Raise ValueError
  | x :: r => Return (fold_left Qminb r x)
  end.

Definition max (a : list Q) : outcome Q :=
  match a with
  | [] => Raise ValueError
  | x :: r => Return (fold_left Qmaxb r x)
  end.

(** [np.linspace(start, stop, num)] with the default [endpoint=True]:
    [arange(0, num) * step + start] with the last entry overwritten by
    [stop].  A negative [num] is refused with ValueError (old numpy
    versions returned the empty array instead; no statement below depends
    on it). *)
Definition linspace (start stop : Q) (num : Z) : outcome (list Q) :=
  if num <? 0 then Raise ValueError
  else if num =? 0 then Return []
  else if num =? 1 then Return [start]
  else
    let step := ((stop - start) / inject_Z (num - 1))%Q in
    let y := map (fun i => (inject_Z (Z.of_nat i) * step + start)%Q)
                 (seq 0 (Z.to_nat num)) in
    Return (<[(Z.to_nat num - 1)%nat := stop]> y).

(** [np.unique]: the sorted distinct values. *)
Fixpoint insert_sorted {A} (ltb : A -> A -> bool) (x : A) (l : list A) : list A :=
  match l with
  | [] => [x]
  | y :: r =>
      if ltb x y then x :: y :: r
      else if ltb y x then y :: insert_sorted ltb x r
      else y :: r
  end.

Definition unique {A} (ltb : A -> A -> bool) (l : list A) : list A :=
  fold_right (insert_sorted ltb) [] l.

(** [a[sp.nonzero(a)]] *)
Definition nonzero (a : list Z) : list Z := List.filter (fun z => negb (z =? 0)) a.

(** [b * a] for a boolean and an integer array of one shape. *)
Definition bool_times_int (b : list bool) (a : list Z) : outcome (list Z) :=
  if (length b =? length a)%nat
  then Return (zip_with (fun x y => b2z x * y) b a)
  else Raise ValueError.

(** [a[ix]] for an integer index array: Python indices, negative ones
    counted from the end. *)
Definition item (a : list Z) (i : Z) : outcome Z :=
  let n := Z.of_nat (length a) in
  if (0 <=? i) && (i <? n) then Return (nth (Z.to_nat i) a 0)
  else if (- n <=? i) && (i <? 0) then Return (nth (Z.to_nat (n + i)) a 0)
  else Raise IndexError.

Fixpoint take {A} (get : Z -> outcome A) (ix : list Z) : outcome (list A) :=
  match ix with
  | [] => Return []
  | i :: r =>
      match get i with
      | Raise e => Raise e
      | Return x =>
          match take get r with
          | Raise e => Raise e
          | Return xs => Return (x :: xs)
          end
      end
  end.

(** [a[mask]] for a boolean mask of the shape of [a]. *)
Definition compress {A} (mask : list bool) (a : list A) : outcome (list A) :=
  if (length mask =? length a)%nat
  then Return (map snd (List.filter fst (combine mask a)))
  else Raise IndexError.

(** [np.where(cond)[0]]: the indices at which [cond] holds. *)
Definition where_ (cond : list bool) : list Z :=
  map (fun p => Z.of_nat (snd p)) (List.filter fst (combine cond (seq 0 (length cond)))).

(** The value accumulated by the builtin [sum] over a float array. *)
Definition sum (a : list Q) : Q := fold_left Qplus a 0%Q.

(** A float64 that a division may produce. *)
Inductive float64 : Type :=
| Finite (q : Q)
| PosInf
| NegInf
| NaN.

(** [x / y] for numpy float64 scalars: a zero divisor gives [nan] or an
    infinity (with a warning), never an exception. *)
Definition divide (x y : Q) : float64 :=
  if Qeq_bool y 0 then
    if Qeq_bool x 0 then NaN
    else if Qle_bool 0 x then PosInf else NegInf
  else Finite (x / y)%Q.

End np.

(** ** Python numbers *)

(** What the builtin [sum] returns: its integer start value 0 over an
    empty array, a float64 over a non-empty float array. *)
Inductive number : Type :=
| PyInt (z : Z)
| PyFloat (x : Q).

Definition builtin_sum (a : list Q) : number :=
  match a with
  | [] => PyInt 0
  | _ :: _ => PyFloat (np.sum a)
  end.

Definition number_value (x : number) : Q :=
  match x with
  | PyInt z => inject_Z z
  | PyFloat q => q
  end.

(** [x / y] (Python 2, no [__future__] division): two integers divide
    with floor and raise ZeroDivisionError on a zero divisor; as soon as
    one operand is a float64 the division is numpy's. *)
Definition py_divide (x y : number) : outcome np.float64 :=
  match x, y with
  | PyInt a, PyInt b =>
      if b =? 0 then Raise ZeroDivisionError
      else Return (np.Finite (inject_Z (a / b)))
  | _, _ => Return (np.divide (number_value x) (number_value y))
  end.

(** ** The network and the algorithm object *)

Inductive ndarray : Type :=
| AFloat (a : list Q)
| AInt (a : list Z)
| ABool (a : list bool)
| AInt2 (a : list (Z * Z)).

(** The sparse adjacency matrix: its shape is [shape x shape], [indices]
    are the (row, column) pairs of its stored entries. *)
Record csr_matrix : Type := { shape : nat; indices : list (nat * nat) }.

Record GenericNetwork : Type := {
  pore_properties : gmap string ndarray;
  throat_properties : gmap string ndarray;
  _adjmatrix_csr : option csr_matrix
}.

(** Attributes that [_setup] may leave unset are options. *)
Record OrdinaryPercolationAlgorithm : Type := {
  _net : GenericNetwork;
  counter : Z;
  _OP : Z;
  _ALOP : Z;
  _inv_src : option (list bool);
  _inv_points : option (list Q);
  _results : option (list (Q * np.float64))
}.

Definition M (A : Type) : Type :=
  OrdinaryPercolationAlgorithm -> outcome A * OrdinaryPercolationAlgorithm.

Definition ret {A} (a : A) : M A := fun s => (Return a, s).

Definition raise {A} (e : exn) : M A := fun s => (Raise e, s).

Definition bind {A B} (m : M A) (f : A -> M B) : M B :=
  fun s => match m s with
           | (Return a, s') => f a s'
           | (Raise e, s') => (Raise e, s')
           end.

Notation "x <- m ;; k" := (bind m (fun x => k))
  (at level 100, m at next level, right associativity).
Notation "m ;;; k" := (bind m (fun _ => k))
  (at level 100, right associativity).

Definition lift {A} (o : outcome A) : M A := fun s => (o, s).

(** [for x in l: body(x)] *)
Fixpoint for_each {A} (l : list A) (body : A -> M unit) : M unit :=
  match l with
  | [] => ret tt
  | x :: r => body x ;;; for_each r body
  end.

(** *** Setters of the two records *)

Definition with_pores (f : gmap string ndarray -> gmap string ndarray)
    (n : GenericNetwork) : GenericNetwork :=
  {| pore_properties := f (pore_properties n);
     throat_properties := throat_properties n;
     _adjmatrix_csr := _adjmatrix_csr n |}.

Definition with_throats (f : gmap string ndarray -> gmap string ndarray)
    (n : GenericNetwork) : GenericNetwork :=
  {| pore_properties := pore_properties n;
     throat_properties := f (throat_properties n);
     _adjmatrix_csr := _adjmatrix_csr n |}.

Definition with_adj (a : csr_matrix) (n : GenericNetwork) : GenericNetwork :=
  {| pore_properties := pore_properties n;
     throat_properties := throat_properties n;
     _adjmatrix_csr := Some a |}.

Definition with_net (f : GenericNetwork -> GenericNetwork)
    (s : OrdinaryPercolationAlgorithm) : OrdinaryPercolationAlgorithm :=
  {| _net := f (_net s); counter := counter s; _OP := _OP s; _ALOP := _ALOP s;
     _inv_src := _inv_src s; _inv_points := _inv_points s;
     _results := _results s |}.

Definition set_OP (v : Z) : M unit := fun s =>
  (Return tt,
   {| _net := _net s; counter := counter s; _OP := v; _ALOP := _ALOP s;
      _inv_src := _inv_src s; _inv_points := _inv_points s;
      _results := _results s |}).

Definition set_ALOP (v : Z) : M unit := fun s =>
  (Return tt,
   {| _net := _net s; counter := counter s; _OP := _OP s; _ALOP := v;
      _inv_src := _inv_src s; _inv_points := _inv_points s;
      _results := _results s |}).

Definition set_inv_src (v : list bool) : M unit := fun s =>
  (Return tt,
   {| _net := _net s; counter := counter s; _OP := _OP s; _ALOP := _ALOP s;
      _inv_src := Some v; _inv_points := _inv_points s;
      _results := _results s |}).

Definition set_inv_points (v : list Q) : M unit := fun s =>
  (Return tt,
   {| _net := _net s; counter := counter s; _OP := _OP s; _ALOP := _ALOP s;
      _inv_src := _inv_src s; _inv_points := Some v;
      _results := _results s |}).

Definition set_results (v : list (Q * np.float64)) : M unit := fun s =>
  (Return tt,
   {| _net := _net s; counter := counter s; _OP := _OP s; _ALOP := _ALOP s;
      _inv_src := _inv_src s; _inv_points := _inv_points s;
      _results := Some v |}).

(** Reading an attribute that was never assigned is an AttributeError. *)
Definition get_attr {A} (f : OrdinaryPercolationAlgorithm -> option A) : M A :=
  fun s => match f s with
           | Some a => (Return a, s)
           | None => (Raise AttributeError, s)
           end.

Definition get {A} (f : OrdinaryPercolationAlgorithm -> A) : M A :=
  fun s => (Return (f s), s).

(** *** The property dictionaries *)

(** [self._net.pore_properties[key]] *)
Definition pore_prop (key : string) : M ndarray := fun s =>
  match pore_properties (_net s) !! key with
  | Some a => (Return a, s)
  | None => (Raise KeyError, s)
  end.

(** [self._net.throat_properties[key]] *)
Definition throat_prop (key : string) : M ndarray := fun s =>
  match throat_properties (_net s) !! key with
  | Some a => (Return a, s)
  | None => (Raise KeyError, s)
  end.

(** [self._net.pore_properties[key] = a] *)
Definition set_pore_prop (key : string) (a : ndarray) : M unit := fun s =>
  (Return tt, with_net (with_pores (insert key a)) s).

(** [self._net.throat_properties[key] = a] *)
Definition set_throat_prop (key : string) (a : ndarray) : M unit := fun s =>
  (Return tt, with_net (with_throats (insert key a)) s).

(** [del self._net.throat_properties[key]] *)
Definition del_throat_prop (key : string) : M unit := fun s =>
  match throat_properties (_net s) !! key with
  | Some _ => (Return tt, with_net (with_throats (delete key)) s)
  | None => (Raise KeyError, s)
  end.

(** The arrays are read at the dtype the network generators give them;
    another dtype is outside the model (TypeError). *)
Definition as_float (a : ndarray) : outcome (list Q) :=
  match a with AFloat l => Return l | _ => Raise TypeError end.

Definition as_int (a : ndarray) : outcome (list Z) :=
  match a with AInt l => Return l | _ => Raise TypeError end.

Definition as_bool (a : ndarray) : outcome (list bool) :=
  match a with ABool l => Return l | _ => Raise TypeError end.

Definition as_int2 (a : ndarray) : outcome (list (Z * Z)) :=
  match a with AInt2 l => Return l | _ => Raise TypeError end.

(** The length of the first axis. *)
Definition alen (a : ndarray) : nat :=
  match a with
  | AFloat l => length l
  | AInt l => length l
  | ABool l => length l
  | AInt2 l => length l
  end.

(** Apply a fallible function to every element, left to right. *)
Fixpoint traverse {A B} (f : A -> outcome B) (l : list A) : outcome (list B) :=
  match l with
  | [] => Return []
  | x :: r =>
      match f x with
      | Raise e => Raise e
      | Return y =>
          match traverse f r with
          | Raise e => Raise e
          | Return ys => Return (y :: ys)
          end
      end
  end.

(** ** The collaborators of the algorithm *)

(** Modelled from the spec: [get_num_pores] and [get_num_throats] belong to
    GenericNetwork, which is absent from the sources.  The pore count is
    the common length of the per-pore arrays (read off ['numbering']), the
    throat count the length of ['connections']. *)
Definition get_num_pores : M nat :=
  a <- pore_prop "numbering" ;; ret (alen a).

Definition get_num_throats : M nat :=
  a <- throat_prop "connections" ;; ret (alen a).

(** [a > 0] elementwise. *)
Definition positive (a : ndarray) : outcome (list bool) :=
  match a with
  | AFloat l => Return (map (fun x => np.Qltb 0 x) l)
  | AInt l => Return (map (fun x => 0 <? x) l)
  | ABool l => Return l
  | AInt2 _ => Raise ValueError
  end.

(** An entry of the sparse matrix must lie inside its shape. *)
Definition pore_index (Np : nat) (i : Z) : outcome nat :=
  if (0 <=? i) && (i <? Z.of_nat Np) then Return (Z.to_nat i)
  else Raise ValueError.

Definition coo_entry (Np : nat) (c : Z * Z) : outcome (nat * nat) :=
  match pore_index Np (fst c) with
  | Raise e => Raise e
  | Return i =>
      match pore_index Np (snd c) with
      | Raise e => Raise e
      | Return j => Return (i, j)
      end
  end.

Definition swap (c : Z * Z) : Z * Z := (snd c, fst c).

Definition set_adjmatrix_csr (a : csr_matrix) : M unit := fun s =>
  (Return tt, with_net (with_adj a) s).

(** Modelled from the spec: [create_adjacency_matrix] of GenericNetwork is
    absent from the sources.  Section 4.1: the structure is sparse and
    symmetric, its entry (i,j) is set iff some throat whose flag [tprop] is
    set connects pores i and j; throats whose flag is zero are dropped.
    The matrix is left in [_adjmatrix_csr] of the network, where
    [_do_one_inner_iteration] reads it. *)
Definition create_adjacency_matrix (tprop : string) : M unit :=
  Np <- get_num_pores ;;
  a <- throat_prop tprop ;;
  ind <- lift (positive a) ;;
  c <- throat_prop "connections" ;;
  conns <- lift (as_int2 c) ;;
  conn <- lift (np.compress ind conns) ;;
  entries <- lift (traverse (coo_entry Np) (conn ++ map swap conn)) ;;
  set_adjmatrix_csr {| shape := Np; indices := entries |}.

(** [scipy.sparse.csgraph.connected_components] (library code).  With its
    default arguments two nodes get one label iff stored entries, followed
    in either direction, lead from one to the other; the labels are
    0, 1, 2, ... in the order in which the scan from node 0 upward meets
    the components, that is, by the smallest node of each component.

    [roots] gives every node the smallest node of its component (the
    entries are merged one at a time, the larger root renamed to the
    smaller); [rank] counts the components that start below a node. *)
Module csgraph.

Definition relabel (a b : nat) (labels : list nat) : list nat :=
  map (fun c => if (c =? Nat.max a b)%nat then Nat.min a b else c) labels.

Definition merge (labels : list nat) (e : nat * nat) : list nat :=
  relabel (nth (fst e) labels 0%nat) (nth (snd e) labels 0%nat) labels.

Definition roots (g : csr_matrix) : list nat :=
  fold_left merge (indices g) (seq 0 (shape g)).

Definition rank (r : list nat) (v : nat) : nat :=
  length (List.filter (fun i => (nth i r 0 =? i)%nat) (seq 0 v)).

Definition connected_components (g : csr_matrix) : Z * list Z :=
  let r := roots g in
  (Z.of_nat (rank r (shape g)), map (fun v => Z.of_nat (rank r v)) r).

End csgraph.

(** ** The methods of OrdinaryPercolationAlgorithm *)

(** [_setup(self, npts=25, inv_faces=[], inv_sites=[])] *)
Definition _setup (npts : Z) (inv_faces inv_sites : list Z) : M unit :=
  set_OP 0 ;;;
  set_ALOP 0 ;;;
  (if np.size inv_faces + np.size inv_sites =? 0 then
     set_OP 1
   else if 0 <? np.size inv_faces then
     set_ALOP 1 ;;;
     a <- pore_prop "type" ;;
     ty <- lift (as_int a) ;;
     set_inv_src (np.in1d ty inv_faces)
   else if 0 <? np.size inv_sites then
     set_ALOP 1 ;;;
     a <- pore_prop "numbering" ;;
     nb <- lift (as_int a) ;;
     set_inv_src (np.in1d nb inv_sites)
   else ret tt) ;;;
  Np <- get_num_pores ;;
  set_pore_prop "Pc_invaded" (AFloat (np.zeros Np)) ;;;
  Nt <- get_num_throats ;;
  set_throat_prop "Pc_invaded" (AFloat (np.zeros Nt)) ;;;
  Nt' <- get_num_throats ;;
  set_throat_prop "invaded" (AFloat (np.zeros Nt')) ;;;
  a <- throat_prop "Pc_entry" ;;
  pe <- lift (as_float a) ;;
  min_p <- lift (np.min pe) ;;
  a' <- throat_prop "Pc_entry" ;;
  pe' <- lift (as_float a') ;;
  max_p <- lift (np.max pe') ;;
  pts <- lift (np.linspace min_p max_p npts) ;;
  set_inv_points pts.

(** The object as [GenericAlgorithm.__init__] (absent from the sources)
    leaves it: only the network is stored.  [_OP] and [_ALOP] do not exist
    yet; [_setup] assigns both before anything reads them. *)
Definition new_object (net : GenericNetwork) : OrdinaryPercolationAlgorithm :=
  {| _net := net; counter := 0; _OP := 0; _ALOP := 0;
     _inv_src := None; _inv_points := None; _results := None |}.

(** [__init__(self, net, **kwargs)]: [self.counter = 0], then [_setup]. *)
Definition __init__ (net : GenericNetwork) (npts : Z) (inv_faces inv_sites : list Z)
  : outcome unit * OrdinaryPercolationAlgorithm :=
  _setup npts inv_faces inv_sites (new_object net).

(** The loop of lines 148-150: every cluster label in [temp] is written
    to the pores that carry it. *)
Definition mark_cluster (clusters : list Z) (inv_clusters : list Z) (t : Z) : list Z :=
  zip_with (fun c v => if c =? t then t else v) clusters inv_clusters.

(** [_do_one_inner_iteration(self, inv_val)] *)
Definition _do_one_inner_iteration (inv_val : Q) : M (list Z) :=
  a <- throat_prop "Pc_entry" ;;
  pe <- lift (as_float a) ;;
  set_throat_prop "invaded" (ABool (map (fun x => np.Qltb x inv_val) pe)) ;;;
  create_adjacency_matrix "invaded" ;;;
  adj <- get_attr (fun s => _adjmatrix_csr (_net s)) ;;
  let clusters := snd (csgraph.connected_components adj) in
  let clusters := map (fun c => np.b2z (0 <=? c) * (c + 1)) clusters in
  ALOP <- get _ALOP ;;
  OP <- get _OP ;;
  inj_clusters <-
    (if ALOP =? 1 then
       src <- get_attr _inv_src ;;
       lift (np.bool_times_int src clusters)
     else if OP =? 1 then
       i1 <- throat_prop "invaded" ;;
       inv1 <- lift (as_bool i1) ;;
       c1 <- throat_prop "connections" ;;
       conns1 <- lift (as_int2 c1) ;;
       temp1 <- lift (np.bool_times_int inv1 (map (fun c => (fst c + 1) - 1) conns1)) ;;
       i2 <- throat_prop "invaded" ;;
       inv2 <- lift (as_bool i2) ;;
       c2 <- throat_prop "connections" ;;
       conns2 <- lift (as_int2 c2) ;;
       temp2 <- lift (np.bool_times_int inv2 (map (fun c => (snd c + 1) - 1) conns2)) ;;
       n1 <- pore_prop "numbering" ;;
       numbering1 <- lift (as_int n1) ;;
       sel1 <- lift (traverse (np.item numbering1) (List.filter (fun z => 0 <=? z) temp1)) ;;
       n2 <- pore_prop "numbering" ;;
       numbering2 <- lift (as_int n2) ;;
       sel2 <- lift (traverse (np.item numbering2) (List.filter (fun z => 0 <=? z) temp2)) ;;
       ret (sel1 ++ sel2)
     else raise NameError) ;;
  let inv_clusters2 :=
    map (fun b : bool => if b then 1 else 0) (np.in1d clusters inj_clusters) in
  let temp := np.unique Z.ltb (np.nonzero inj_clusters) in
  let inv_clusters := np.izeros (length clusters) in
  ret (fold_left (mark_cluster clusters) temp inv_clusters).

(** The assignment of line 103:
    [Pc_invaded[(Pc_invaded == 0) * (inv_clusters > 0)] = inv_val]. *)
Definition store_invasion (inv_val : Q) (Pc_invaded : list Q) (inv_clusters : list Z)
  : outcome (list Q) :=
  if (length Pc_invaded =? length inv_clusters)%nat
  then Return (zip_with (fun r c => if Qeq_bool r 0 && (0 <? c) then inv_val else r)
                 Pc_invaded inv_clusters)
  else Raise ValueError.

(** The body of the loop of [_do_outer_iteration_stage]. *)
Definition outer_step (inv_val : Q) : M unit :=
  inv_clusters <- _do_one_inner_iteration inv_val ;;
  a <- pore_prop "Pc_invaded" ;;
  Pc_invaded <- lift (as_float a) ;;
  updated <- lift (store_invasion inv_val Pc_invaded inv_clusters) ;;
  set_pore_prop "Pc_invaded" (AFloat updated).

(** [_do_outer_iteration_stage(self)] *)
Definition _do_outer_iteration_stage : M unit :=
  pts <- get_attr _inv_points ;;
  for_each pts outer_step ;;;
  del_throat_prop "invaded".

(** [Pc_invaded[Ps]] and [volume[Ps]]: the entries at the indices [Ps]. *)
Definition qitem (a : list Q) (i : Z) : outcome Q :=
  let n := Z.of_nat (length a) in
  if (0 <=? i) && (i <? n) then Return (nth (Z.to_nat i) a 0%Q)
  else if (- n <=? i) && (i <? 0) then Return (nth (Z.to_nat (n + i)) a 0%Q)
  else Raise IndexError.

(** The body of the loop of [_plot_results]: [Snwp[i] = ...].  Both
    properties are looked up in the network at every pass. *)
Definition saturation_step (PcPoints : list Q) (Ps : list Z)
    (Snwp : list np.float64) (i : nat) : M (list np.float64) :=
  let Pc := nth i PcPoints 0%Q in
  a <- pore_prop "Pc_invaded" ;;
  Pc_invaded <- lift (as_float a) ;;
  inv_Ps <- lift (traverse (qitem Pc_invaded) Ps) ;;
  v <- pore_prop "volume" ;;
  volume <- lift (as_float v) ;;
  vol_Ps <- lift (traverse (qitem volume) Ps) ;;
  below <- lift (if (length inv_Ps =? length vol_Ps)%nat
                 then Return (zip_with (fun r v => if np.Qltb r Pc then v else 0%Q)
                                inv_Ps vol_Ps)
                 else Raise ValueError) ;;
  v' <- pore_prop "volume" ;;
  volume' <- lift (as_float v') ;;
  vol_Ps' <- lift (traverse (qitem volume') Ps) ;;
  x <- lift (py_divide (builtin_sum below) (builtin_sum vol_Ps')) ;;
  ret (<[i := x]> Snwp).

Fixpoint saturation_loop (PcPoints : list Q) (Ps : list Z)
    (Snwp : list np.float64) (range : list nat) : M (list np.float64) :=
  match range with
  | [] => ret Snwp
  | i :: r =>
      Snwp' <- saturation_step PcPoints Ps Snwp i ;;
      saturation_loop PcPoints Ps Snwp' r
  end.

(** [_plot_results(self)]; drawing the figure is outside the model, the
    curve is left in [_results] as rows (Pc, Snwp). *)
Definition _plot_results : M unit :=
  a <- pore_prop "Pc_invaded" ;;
  Pc_invaded <- lift (as_float a) ;;
  let PcPoints := np.unique np.Qltb Pc_invaded in
  let Snwp := map np.Finite (np.zeros (length PcPoints)) in
  t <- pore_prop "type" ;;
  ty <- lift (as_int t) ;;
  let Ps := np.where_ (map (fun x => x =? 0) ty) in
  Snwp' <- saturation_loop PcPoints Ps Snwp (seq 1 (length PcPoints - 1)) ;;
  set_results (combine PcPoints Snwp').

(** Modelled from the spec: [run] of GenericAlgorithm is absent from the
    sources.  Section 6: a run is the configuration ([_setup], called by
    the constructor) followed by the pressure sweep. *)
Definition run (net : GenericNetwork) (npts : Z) (inv_faces inv_sites : list Z)
  : outcome unit * OrdinaryPercolationAlgorithm :=
  (_setup npts inv_faces inv_sites ;;; _do_outer_iteration_stage) (new_object net).

(** ** Networks used in the examples *)

Definition make_network (numbering type : list Z) (volume : list Q)
    (connections : list (Z * Z)) (Pc_entry : list Q) : GenericNetwork :=
  {| pore_properties :=
       <["numbering" := AInt numbering]>
         (<["type" := AInt type]> (<["volume" := AFloat volume]> ∅));
     throat_properties :=
       <["connections" := AInt2 connections]> (<["Pc_entry" := AFloat Pc_entry]> ∅);
     _adjmatrix_csr := None |}.

Definition net3 : GenericNetwork :=
  make_network [0; 1; 2] [0; 0; 0] [1%Q; 1%Q; 1%Q] [(1, 2); (0, 1)] [1%Q; 3%Q].

Definition pore_record (s : OrdinaryPercolationAlgorithm) : option ndarray :=
  pore_properties (_net s) !! "Pc_invaded".

(** ** Vocabulary of the statements *)

(** Connectivity in the graph of the stored entries of the adjacency
    matrix: the equivalence generated by the entries. *)
Inductive connected (E : list (nat * nat)) : nat -> nat -> Prop :=
| connected_refl x : connected E x x
| connected_edge x y : In (x, y) E -> connected E x y
| connected_sym x y : connected E x y -> connected E y x
| connected_trans x y z : connected E x y -> connected E y z -> connected E x z.

(** Throat number [t] joins pores [i] and [j] and is open at pressure [p]:
    its entry pressure is strictly below [p]. *)
Definition open_throat (connections : list (Z * Z)) (Pc_entry : list Q) (p : Q)
    (i j : nat) : Prop :=
  exists (t : nat) (e : Q),
    connections !! t = Some (Z.of_nat i, Z.of_nat j) /\ Pc_entry !! t = Some e /\ (e < p)%Q.

(** A pore is an endpoint of an open throat. *)
Definition open_endpoint (connections : list (Z * Z)) (Pc_entry : list Q) (p : Q)
    (q : nat) : Prop :=
  exists r : nat, open_throat connections Pc_entry p q r \/ open_throat connections Pc_entry p r q.

(** Two pores are joined by a path of open throats (a pore is joined to
    itself by the empty path). *)
Inductive joined (connections : list (Z * Z)) (Pc_entry : list Q) (p : Q)
  : nat -> nat -> Prop :=
| joined_refl x : joined connections Pc_entry p x x
| joined_throat x y :
    open_throat connections Pc_entry p x y -> joined connections Pc_entry p x y
| joined_sym x y :
    joined connections Pc_entry p x y -> joined connections Pc_entry p y x
| joined_trans x y z :
    joined connections Pc_entry p x y -> joined connections Pc_entry p y z ->
    joined connections Pc_entry p x z.

(** Both endpoints of a throat are pores of a network of [P] pores. *)
Definition in_range (P : nat) (c : Z * Z) : bool :=
  (0 <=? fst c) && (fst c <? Z.of_nat P) && (0 <=? snd c) && (snd c <? Z.of_nat P).

(** The arrays of a network the algorithm can run on: the five properties
    it reads exist, the per-pore arrays have one length, the per-throat
    arrays have one length, and every throat joins two pores of the
    network. *)
Record well_formed (net : GenericNetwork) (numbering type : list Z)
    (volume : list Q) (connections : list (Z * Z)) (Pc_entry : list Q) : Prop := {
  wf_numbering : pore_properties net !! "numbering" = Some (AInt numbering);
  wf_type : pore_properties net !! "type" = Some (AInt type);
  wf_volume : pore_properties net !! "volume" = Some (AFloat volume);
  wf_connections : throat_properties net !! "connections" = Some (AInt2 connections);
  wf_Pc_entry : throat_properties net !! "Pc_entry" = Some (AFloat Pc_entry);
  wf_type_length : length type = length numbering;
  wf_volume_length : length volume = length numbering;
  wf_Pc_entry_length : length Pc_entry = length connections;
  wf_in_range : forallb (in_range (length numbering)) connections = true
}.

(** What [csgraph.roots] maintains while it merges the entries [E] of a
    graph on [n] nodes: every node carries a node of its own class that
    carries itself, and two nodes carry the same one iff they are
    connected. *)
Definition labelling (n : nat) (E : list (nat * nat)) (r : list nat) : Prop :=
  length r = n /\
  (forall x, (x < n)%nat ->
     (nth x r 0 < n)%nat /\ nth (nth x r 0%nat) r 0%nat = nth x r 0%nat) /\
  (forall x y, (x < n)%nat -> (y < n)%nat ->
     nth x r 0%nat = nth y r 0%nat <-> connected E x y).

(** The pieces of one pressure step, named for the statements: the
    open-throat flags, the adjacency matrix built from them, the cluster
    labels (raised by one), and the trim of lines 144-150. *)
Definition open_flags (Pc_entry : list Q) (p : Q) : list bool :=
  map (fun x => np.Qltb x p) Pc_entry.

Definition to_entry (c : Z * Z) : nat * nat := (Z.to_nat (fst c), Z.to_nat (snd c)).

Definition adjacency (P : nat) (connections : list (Z * Z)) (Pc_entry : list Q) (p : Q)
  : csr_matrix :=
  let conn := map snd (List.filter fst (combine (open_flags Pc_entry p) connections)) in
  {| shape := P; indices := map to_entry (conn ++ map swap conn) |}.

Definition clusters_at (P : nat) (connections : list (Z * Z)) (Pc_entry : list Q) (p : Q)
  : list Z :=
  map (fun c => np.b2z (0 <=? c) * (c + 1))
      (snd (csgraph.connected_components (adjacency P connections Pc_entry p))).

Definition trim (clusters inj_clusters : list Z) : list Z :=
  fold_left (mark_cluster clusters) (np.unique Z.ltb (np.nonzero inj_clusters))
    (np.izeros (length clusters)).

(** The state one call of [_do_one_inner_iteration] leaves behind. *)
Definition inner_state (P : nat) (connections : list (Z * Z)) (Pc_entry : list Q) (p : Q)
    (s : OrdinaryPercolationAlgorithm) : OrdinaryPercolationAlgorithm :=
  with_net (with_adj (adjacency P connections Pc_entry p))
    (with_net (with_throats (insert "invaded" (ABool (open_flags Pc_entry p)))) s).

(** The object after a successful [_setup]: a source mask of one entry
    per pore, or flood mode. *)
Inductive configured (s : OrdinaryPercolationAlgorithm) (P : nat) : Prop :=
| configured_source (src : list bool) :
    _ALOP s = 1 -> _inv_src s = Some src -> length src = P -> configured s P
| configured_flood :
    _ALOP s <> 1 -> _OP s = 1 -> configured s P.

(** What lines 140-142 collect in flood mode: the entries of ['numbering']
    at the positions [temp1] and [temp2]. *)
Definition flood_sources (numbering : list Z) (connections : list (Z * Z))
    (Pc_entry : list Q) (p : Q) : list Z :=
  let temp1 := zip_with (fun x y => np.b2z x * y) (open_flags Pc_entry p)
                 (map (fun c => (fst c + 1) - 1) connections) in
  let temp2 := zip_with (fun x y => np.b2z x * y) (open_flags Pc_entry p)
                 (map (fun c => (snd c + 1) - 1) connections) in
  map (fun i => nth (Z.to_nat i) numbering 0) (List.filter (fun z => 0 <=? z) temp1) ++
  map (fun i => nth (Z.to_nat i) numbering 0) (List.filter (fun z => 0 <=? z) temp2).

(** The value [_do_one_inner_iteration] returns, read off the mode. *)
Definition inner_result (s : OrdinaryPercolationAlgorithm) (numbering : list Z)
    (connections : list (Z * Z)) (Pc_entry : list Q) (p : Q) : list Z :=
  let clusters := clusters_at (length numbering) connections Pc_entry p in
  if _ALOP s =? 1 then
    match _inv_src s with
    | Some src => trim clusters (zip_with (fun x y => np.b2z x * y) src clusters)
    | None => []
    end
  else trim clusters (flood_sources numbering connections Pc_entry p).

(** The record after one pressure step, and after a list of them. *)
Definition step_record (p : Q) (Pc_invaded : list Q) (inv_clusters : list Z) : list Q :=
  zip_with (fun r c => if Qeq_bool r 0 && (0 <? c) then p else r) Pc_invaded inv_clusters.

Fixpoint sweep_record (inv : Q -> list Z) (pts : list Q) (Pc_invaded : list Q) : list Q :=
  match pts with
  | [] => Pc_invaded
  | p :: r => sweep_record inv r (step_record p Pc_invaded (inv p))
  end.

(** The state one pass through the loop body leaves behind. *)
Definition outer_state (P : nat) (connections : list (Z * Z)) (Pc_entry : list Q) (p : Q)
    (Pc_invaded : list Q) (s : OrdinaryPercolationAlgorithm) : OrdinaryPercolationAlgorithm :=
  with_net (with_pores (insert "Pc_invaded" (AFloat Pc_invaded)))
    (inner_state P connections Pc_entry p s).

(** The object between two pressure steps: a well-formed network, a mode,
    and the Invasion Record [Pc_invaded], one entry per pore. *)
Record sweeping (s : OrdinaryPercolationAlgorithm) (numbering type : list Z)
    (volume : list Q) (connections : list (Z * Z)) (Pc_entry Pc_invaded : list Q)
  : Prop := {
  sw_network : well_formed (_net s) numbering type volume connections Pc_entry;
  sw_mode : configured s (length numbering);
  sw_record : pore_properties (_net s) !! "Pc_invaded" = Some (AFloat Pc_invaded);
  sw_length : length Pc_invaded = length numbering
}.

(** The object a successful [_setup] leaves behind, [pts] being the
    pressure schedule. *)
Definition setup_state (inv_faces inv_sites numbering type : list Z)
    (connections : list (Z * Z)) (pts : list Q) (s : OrdinaryPercolationAlgorithm)
  : OrdinaryPercolationAlgorithm :=
  let flood := np.size inv_faces + np.size inv_sites =? 0 in
  {| _net :=
       {| pore_properties :=
            <["Pc_invaded" := AFloat (np.zeros (length numbering))]>
              (pore_properties (_net s));
          throat_properties :=
            <["invaded" := AFloat (np.zeros (length connections))]>
              (<["Pc_invaded" := AFloat (np.zeros (length connections))]>
                 (throat_properties (_net s)));
          _adjmatrix_csr := _adjmatrix_csr (_net s) |};
     counter := counter s;
     _OP := if flood then 1 else 0;
     _ALOP := if flood then 0 else 1;
     _inv_src :=
       if flood then _inv_src s
       else if 0 <? np.size inv_faces then Some (np.in1d type inv_faces)
       else Some (np.in1d numbering inv_sites);
     _inv_points := Some pts;
     _results := _results s |}.

(** Pore [r] matches the source definition of a run configured with
    [inv_faces] and [inv_sites]: its boundary type is among the faces, or
    (no face being given) its number is among the sites. *)
Definition is_source (numbering type inv_faces inv_sites : list Z) (r : nat) : Prop :=
  match inv_faces with
  | _ :: _ => exists t, type !! r = Some t /\ In t inv_faces
  | [] => exists n, numbering !! r = Some n /\ In n inv_sites
  end.

(** A pore is invaded-this-step when its entry of the array returned by
    [_do_one_inner_iteration] is positive (line 103 tests [inv_clusters > 0]). *)
Definition invaded_this_step (inv_clusters : list Z) (q : nat) : Prop :=
  0 < nth q inv_clusters 0.

(** Two pores joined by two parallel throats, one of entry pressure 0:
    with two pressure points the schedule is 0, 2. *)
Definition net_zero : GenericNetwork :=
  make_network [0; 1] [0; 0] [1%Q; 1%Q] [(0, 1); (0, 1)] [0%Q; 2%Q].

(** Two pores and no throat. *)
Definition net_no_throats : GenericNetwork :=
  make_network [0; 1] [0; 0] [1%Q; 1%Q] [] [].

(** What a run leaves of the network it was given: every pore property
    other than ['Pc_invaded'] and every throat property other than
    ['Pc_invaded'] and ['invaded'] is as before. *)
Definition network_frame (n n' : GenericNetwork) : Prop :=
  (forall k : string, k <> "Pc_invaded" ->
     pore_properties n' !! k = pore_properties n !! k) /\
  (forall k : string, k <> "Pc_invaded" -> k <> "invaded" ->
     throat_properties n' !! k = throat_properties n !! k).

Definition preserves {A} (m : M A) : Prop :=
  forall s, network_frame (_net s) (_net (snd (m s))).

(** The volume of the pores selected by a mask. *)
Fixpoint subset_volume (keep : list bool) (volume : list Q) : Q :=
  match keep, volume with
  | k :: ks, v :: vs => ((if k then v else 0) + subset_volume ks vs)%Q
  | _, _ => 0%Q
  end.

(** The reporting subset: the pores of internal boundary type (type 0). *)
Definition reporting (type : list Z) : list bool := map (fun t => t =? 0) type.

Definition reporting_volume (type : list Z) (volume : list Q) : Q :=
  subset_volume (reporting type) volume.

(** The volume of the reporting pores whose recorded invasion pressure is
    strictly below [Pc], and the saturation at [Pc]. *)
Definition invaded_volume (type : list Z) (Pc_invaded volume : list Q) (Pc : Q) : Q :=
  subset_volume (zip_with (fun k r => k && np.Qltb r Pc) (reporting type) Pc_invaded) volume.

Definition saturation (type : list Z) (Pc_invaded volume : list Q) (Pc : Q) : Q :=
  (invaded_volume type Pc_invaded volume Pc / reporting_volume type volume)%Q.

(** The network and the finalized record [_plot_results] reads. *)
Record finalized (s : OrdinaryPercolationAlgorithm) (numbering type : list Z)
    (volume : list Q) (connections : list (Z * Z)) (Pc_entry Pc_invaded : list Q)
  : Prop := {
  fin_network : well_formed (_net s) numbering type volume connections Pc_entry;
  fin_record : pore_properties (_net s) !! "Pc_invaded" = Some (AFloat Pc_invaded);
  fin_length : length Pc_invaded = length numbering
}.

(** The quotient [_plot_results] computes at [Pc], in the code's terms. *)
Definition Snwp_at (type : list Z) (Pc_invaded volume : list Q) (Pc : Q) : Q :=
  let mask := reporting type in
  let inv_Ps := map snd (List.filter fst (combine mask Pc_invaded)) in
  let vol_Ps := map snd (List.filter fst (combine mask volume)) in
  (np.sum (zip_with (fun r v => if np.Qltb r Pc then v else 0%Q) inv_Ps vol_Ps)
   / np.sum vol_Ps)%Q.

(** Three pores of unit volume, the last one on a boundary (type 1), with
    the record 1, 0, 0 of the run of [net3] from site 0, stored as after a
    run. *)
Definition curve_object : OrdinaryPercolationAlgorithm :=
  new_object
    (with_pores (insert "Pc_invaded" (AFloat [1%Q; 0%Q; 0%Q]))
       (make_network [0; 1; 2] [0; 0; 1] [1%Q; 1%Q; 1%Q] [(1, 2); (0, 1)] [1%Q; 3%Q])).

(** Five pores; throat (0,4) has entry pressure 1, throat (1,2) entry
    pressure 3. *)
Definition net5 : GenericNetwork :=
  make_network [0; 1; 2; 3; 4] [0; 0; 0; 0; 0] [1%Q; 1%Q; 1%Q; 1%Q; 1%Q]
    [(0, 4); (1, 2)] [1%Q; 3%Q].

(** Pore [q] is reached at pressure [p]: open throats join it to a pore
    that matches the source definition. *)
Definition reached (numbering type inv_faces inv_sites : list Z)
    (connections : list (Z * Z)) (Pc_entry : list Q) (p : Q) (q : nat) : Prop :=
  exists r : nat,
    is_source numbering type inv_faces inv_sites r /\ joined connections Pc_entry p q r.

(** A network whose pores carry no ['type'] property. *)
Definition net_untyped : GenericNetwork :=
  {| pore_properties := <["numbering" := AInt [0; 1]]> ∅;
     throat_properties :=
       <["connections" := AInt2 [(0, 1)]]> (<["Pc_entry" := AFloat [1%Q]]> ∅);
     _adjmatrix_csr := None |}.

(** The float64 [x] is the finite number [q], numerically. *)
Definition is_number (x : np.float64) (q : Q) : Prop :=
  match x with
  | np.Finite y => (y == q)%Q
  | _ => False
  end.

(** The entries of a pore array at the pores of type 0, and the volumes
    [_plot_results] sums at [Pc]: those of the pores of type 0, the ones
    whose record is not below [Pc] replaced by 0. *)
Definition selected (type : list Z) (a : list Q) : list Q :=
  map snd (List.filter fst (combine (reporting type) a)).

Definition volume_below (type : list Z) (Pc_invaded volume : list Q) (Pc : Q) : list Q :=
  zip_with (fun r v => if np.Qltb r Pc then v else 0%Q)
    (selected type Pc_invaded) (selected type volume).


(** * Properties *)

(** ** Connected components *)

Section Components.

Local Open Scope nat_scope.

Lemma connected_incl E E' x y :
  (forall e, In e E -> In e E') -> connected E x y -> connected E' x y.
Proof.
  intros HE H. induction H.
  - apply connected_refl.
  - apply connected_edge. auto.
  - apply connected_sym. assumption.
  - eapply connected_trans; eassumption.
Qed.

Lemma connected_nil x y : connected [] x y -> x = y.
Proof.
  induction 1; try congruence. contradiction.
Qed.

(** One more entry joins exactly the two classes of its end nodes. *)
Lemma connected_cons i j E x y :
  connected ((i, j) :: E) x y <->
  connected E x y \/ (connected E x i /\ connected E j y)
                  \/ (connected E x j /\ connected E i y).
Proof.
  split.
  - induction 1 as [x | x y Hin | x y _ IH | x y z _ IH1 _ IH2].
    + left. apply connected_refl.
    + destruct Hin as [Heq | Hin].
      * inversion Heq; subst. right. left. split; apply connected_refl.
      * left. apply connected_edge. assumption.
    + destruct IH as [H | [[H1 H2] | [H1 H2]]].
      * left. apply connected_sym. assumption.
      * right. right. split; apply connected_sym; assumption.
      * right. left. split; apply connected_sym; assumption.
    + destruct IH1 as [H | [[H1 H2] | [H1 H2]]];
        destruct IH2 as [K | [[K1 K2] | [K1 K2]]].
      * left. eapply connected_trans; eassumption.
      * right. left. split; [eapply connected_trans; eassumption | assumption].
      * right. right. split; [eapply connected_trans; eassumption | assumption].
      * right. left. split; [assumption | eapply connected_trans; eassumption].
      * right. left. split; assumption.
      * left. eapply connected_trans; eassumption.
      * right. right. split; [assumption | eapply connected_trans; eassumption].
      * left. eapply connected_trans; eassumption.
      * right. right. split; assumption.
  - intros [H | [[H1 H2] | [H1 H2]]].
    + eapply connected_incl; [| exact H]. intros e He. right. exact He.
    + eapply connected_trans.
      * eapply connected_incl; [| exact H1]. intros e He. right. exact He.
      * eapply connected_trans.
        -- apply connected_edge. left. reflexivity.
        -- eapply connected_incl; [| exact H2]. intros e He. right. exact He.
    + eapply connected_trans.
      * eapply connected_incl; [| exact H1]. intros e He. right. exact He.
      * eapply connected_trans.
        -- apply connected_sym. apply connected_edge. left. reflexivity.
        -- eapply connected_incl; [| exact H2]. intros e He. right. exact He.
Qed.

Lemma nth_relabel a b r x :
  x < length r ->
  nth x (csgraph.relabel a b r) 0 =
  if nth x r 0 =? Nat.max a b then Nat.min a b else nth x r 0.
Proof.
  intros Hx. unfold csgraph.relabel.
  set (f := fun c => if c =? Nat.max a b then Nat.min a b else c).
  rewrite (nth_indep _ 0 (f 0)) by (rewrite length_map; exact Hx).
  rewrite map_nth. reflexivity.
Qed.

Lemma labelling_init n : labelling n [] (seq 0 n).
Proof.
  repeat split.
  - apply length_seq.
  - rewrite seq_nth by assumption. simpl. assumption.
  - rewrite !seq_nth by (rewrite ?seq_nth; assumption). reflexivity.
  - rewrite !seq_nth by assumption. simpl. intros ->. apply connected_refl.
  - rewrite !seq_nth by assumption. simpl. intros Hc.
    apply connected_nil in Hc. assumption.
Qed.

Lemma labelling_merge n E r i j :
  i < n -> j < n -> labelling n E r ->
  labelling n ((i, j) :: E) (csgraph.merge r (i, j)).
Proof.
  intros Hi Hj (Hlen & Hroot & Hconn).
  unfold csgraph.merge. simpl fst. simpl snd.
  set (a := nth i r 0). set (b := nth j r 0).
  assert (Ha : a < n /\ nth a r 0 = a) by (apply Hroot; assumption).
  assert (Hb : b < n /\ nth b r 0 = b) by (apply Hroot; assumption).
  assert (Hnth : forall x, x < n ->
            nth x (csgraph.relabel a b r) 0 =
            if nth x r 0 =? Nat.max a b then Nat.min a b else nth x r 0).
  { intros x Hx. apply nth_relabel. lia. }
  repeat split.
  - unfold csgraph.relabel. rewrite length_map. assumption.
  - rewrite Hnth by assumption.
    destruct (Hroot x H) as [Hlt _].
    destruct (Nat.eqb_spec (nth x r 0) (Nat.max a b)); lia.
  - rewrite (Hnth x H).
    destruct (Hroot x H) as [Hlt Hid].
    destruct (Nat.eqb_spec (nth x r 0) (Nat.max a b)) as [He | Hne].
    + rewrite Hnth by lia.
      assert (Hm : nth (Nat.min a b) r 0 = Nat.min a b)
        by (destruct (Nat.min_spec a b) as [[_ ->] | [_ ->]]; tauto).
      rewrite Hm.
      destruct (Nat.eqb_spec (Nat.min a b) (Nat.max a b)); reflexivity.
    + rewrite Hnth by assumption. rewrite Hid.
      destruct (Nat.eqb_spec (nth x r 0) (Nat.max a b)); [contradiction | reflexivity].
  - rewrite (Hnth x H), (Hnth y H0). intros Heq.
    apply connected_cons.
    assert (Hxi : nth x r 0 = a <-> connected E x i) by (apply Hconn; assumption).
    assert (Hxj : nth x r 0 = b <-> connected E x j) by (apply Hconn; assumption).
    assert (Hyi : nth y r 0 = a <-> connected E y i) by (apply Hconn; assumption).
    assert (Hyj : nth y r 0 = b <-> connected E y j) by (apply Hconn; assumption).
    assert (Hxy : nth x r 0 = nth y r 0 <-> connected E x y) by (apply Hconn; assumption).
    assert (Hcases : nth x r 0 = nth y r 0 \/
              ((nth x r 0 = a \/ nth x r 0 = b) /\ (nth y r 0 = a \/ nth y r 0 = b))).
    { destruct (Nat.eqb_spec (nth x r 0) (Nat.max a b));
        destruct (Nat.eqb_spec (nth y r 0) (Nat.max a b)); lia. }
    destruct Hcases as [Hsame | [[Hx | Hx] [Hy | Hy]]].
    + left. tauto.
    + left. eapply connected_trans; [apply Hxi; exact Hx |].
      apply connected_sym. apply Hyi. exact Hy.
    + right. left. split; [tauto |]. apply connected_sym. tauto.
    + right. right. split; [tauto |]. apply connected_sym. tauto.
    + left. eapply connected_trans; [apply Hxj; exact Hx |].
      apply connected_sym. apply Hyj. exact Hy.
  - rewrite (Hnth x H), (Hnth y H0). intros Hc.
    apply connected_cons in Hc.
    assert (Hxi : nth x r 0 = a <-> connected E x i) by (apply Hconn; assumption).
    assert (Hxj : nth x r 0 = b <-> connected E x j) by (apply Hconn; assumption).
    assert (Hyi : nth y r 0 = a <-> connected E y i) by (apply Hconn; assumption).
    assert (Hyj : nth y r 0 = b <-> connected E y j) by (apply Hconn; assumption).
    assert (Hxy : nth x r 0 = nth y r 0 <-> connected E x y) by (apply Hconn; assumption).
    assert (Hx' : nth x r 0 = a \/ nth x r 0 = b -> 
            (if nth x r 0 =? Nat.max a b then Nat.min a b else nth x r 0) = Nat.min a b).
    { intros Hx. destruct (Nat.eqb_spec (nth x r 0) (Nat.max a b)); lia. }
    assert (Hy' : nth y r 0 = a \/ nth y r 0 = b -> 
            (if nth y r 0 =? Nat.max a b then Nat.min a b else nth y r 0) = Nat.min a b).
    { intros Hy. destruct (Nat.eqb_spec (nth y r 0) (Nat.max a b)); lia. }
    destruct Hc as [Hc | [[H1 H2] | [H1 H2]]].
    + apply Hxy in Hc. rewrite Hc. reflexivity.
    + rewrite Hx' by tauto. rewrite Hy'; [reflexivity |].
      right. apply Hyj. apply connected_sym. assumption.
    + rewrite Hx' by tauto. rewrite Hy'; [reflexivity |].
      left. apply Hyi. apply connected_sym. assumption.
Qed.

Lemma labelling_incl n E E' r :
  (forall e, In e E <-> In e E') -> labelling n E r -> labelling n E' r.
Proof.
  intros HE (Hlen & Hroot & Hconn). repeat split; try assumption.
  - apply Hroot. assumption.
  - apply Hroot. assumption.
  - intros Heq. eapply connected_incl; [| apply Hconn; eassumption].
    intros e. apply HE.
  - intros Hc. apply Hconn; try assumption.
    eapply connected_incl; [| exact Hc]. intros e. apply HE.
Qed.

Lemma labelling_fold n todo : forall E r,
  (forall e, In e todo -> fst e < n /\ snd e < n) ->
  labelling n E r ->
  labelling n (rev todo ++ E) (fold_left csgraph.merge todo r).
Proof.
  induction todo as [| [i j] todo IH]; intros E r Hrange Hlab.
  - exact Hlab.
  - simpl. rewrite <- app_assoc. simpl. apply IH.
    + intros e He. apply Hrange. right. exact He.
    + apply labelling_merge; try assumption.
      * apply (Hrange (i, j)). left. reflexivity.
      * apply (Hrange (i, j)). left. reflexivity.
Qed.

Lemma roots_labelling g :
  (forall e, In e (indices g) -> fst e < shape g /\ snd e < shape g) ->
  labelling (shape g) (indices g) (csgraph.roots g).
Proof.
  intros Hrange. unfold csgraph.roots.
  apply (labelling_incl _ (rev (indices g) ++ [])).
  - intros e. rewrite app_nil_r. symmetry. apply in_rev.
  - apply labelling_fold; [assumption | apply labelling_init].
Qed.

Lemma rank_S r v :
  csgraph.rank r (S v) = csgraph.rank r v + (if nth v r 0 =? v then 1 else 0).
Proof.
  unfold csgraph.rank. rewrite seq_S. simpl.
  rewrite List.filter_app, length_app. simpl.
  destruct (nth v r 0 =? v); reflexivity.
Qed.

Lemma rank_le r v w : v <= w -> csgraph.rank r v <= csgraph.rank r w.
Proof.
  induction 1 as [| w _ IH]; [lia |]. rewrite rank_S. lia.
Qed.

(** Distinct roots have distinct ranks. *)
Lemma rank_lt r v w :
  nth v r 0 = v -> v < w -> csgraph.rank r v < csgraph.rank r w.
Proof.
  intros Hv Hlt.
  assert (H1 : csgraph.rank r (S v) <= csgraph.rank r w) by (apply rank_le; lia).
  rewrite rank_S in H1. rewrite Hv, Nat.eqb_refl in H1. lia.
Qed.

Lemma rank_inj r v w :
  nth v r 0 = v -> nth w r 0 = w -> csgraph.rank r v = csgraph.rank r w -> v = w.
Proof.
  intros Hv Hw Heq.
  destruct (Nat.lt_trichotomy v w) as [Hlt | [-> | Hlt]]; [| reflexivity |].
  - pose proof (rank_lt r v w Hv Hlt). lia.
  - pose proof (rank_lt r w v Hw Hlt). lia.
Qed.

(** The labels of [connected_components]: one per node, not negative, and
    equal for two nodes iff the nodes are connected. *)
Lemma connected_components_spec g :
  (forall e, In e (indices g) -> fst e < shape g /\ snd e < shape g) ->
  let labels := snd (csgraph.connected_components g) in
  length labels = shape g /\
  (forall x, x < shape g -> (0 <= nth x labels 0%Z)%Z) /\
  (forall x y, x < shape g -> y < shape g ->
     nth x labels 0%Z = nth y labels 0%Z <-> connected (indices g) x y).
Proof.
  intros Hrange labels.
  destruct (roots_labelling g Hrange) as (Hlen & Hroot & Hconn).
  assert (Hnth : forall x, x < shape g ->
            nth x labels 0%Z = Z.of_nat (csgraph.rank (csgraph.roots g) (nth x (csgraph.roots g) 0))).
  { intros x Hx. unfold labels, csgraph.connected_components. simpl.
    set (f := fun v => Z.of_nat (csgraph.rank (csgraph.roots g) v)).
    rewrite (nth_indep _ 0%Z (f 0)) by (rewrite length_map; lia).
    rewrite map_nth. reflexivity. }
  repeat split.
  - unfold labels, csgraph.connected_components. simpl.
    rewrite length_map. assumption.
  - intros x Hx. rewrite Hnth by assumption. lia.
  - rewrite (Hnth x H), (Hnth y H0). intros Heq.
    apply Hconn; try assumption.
    apply Nat2Z.inj in Heq. apply rank_inj in Heq; [assumption | |].
    + apply Hroot. assumption.
    + apply Hroot. assumption.
  - rewrite (Hnth x H), (Hnth y H0). intros Hc.
    apply Hconn in Hc; try assumption. rewrite Hc. reflexivity.
Qed.

(** The labels follow the smallest node of each component. *)
Example connected_components_order :
  csgraph.connected_components {| shape := 5; indices := [(0, 4); (4, 0)] |} =
  (4%Z, [0%Z; 1%Z; 2%Z; 3%Z; 0%Z]).
Proof. reflexivity. Qed.

End Components.

(** ** numpy helpers *)

Lemma Qltb_lt a b : np.Qltb a b = true <-> (a < b)%Q.
Proof.
  unfold np.Qltb. rewrite negb_true_iff. split.
  - intros H. apply Qnot_le_lt. intros Hle.
    apply Qle_bool_iff in Hle. congruence.
  - intros H. destruct (Qle_bool b a) eqn:E; [| reflexivity].
    apply Qle_bool_iff in E. exfalso. eapply Qlt_not_le; eassumption.
Qed.

Lemma traverse_ok {A B} (f : A -> outcome B) (g : A -> B) (l : list A) :
  (forall x, In x l -> f x = Return (g x)) -> traverse f l = Return (map g l).
Proof.
  induction l as [| x l IH]; intros H; simpl.
  - reflexivity.
  - rewrite (H x) by (left; reflexivity).
    rewrite IH by (intros y Hy; apply H; right; exact Hy). reflexivity.
Qed.

Lemma In_insert_sorted_Z x y l :
  In y (np.insert_sorted Z.ltb x l) <-> y = x \/ In y l.
Proof.
  induction l as [| h l IH]; simpl.
  - intuition.
  - destruct (Z.ltb_spec x h); simpl.
    + intuition.
    + destruct (Z.ltb_spec h x); simpl.
      * rewrite IH. intuition.
      * assert (x = h) by lia. subst. intuition.
Qed.

Lemma In_unique_Z y l : In y (np.unique Z.ltb l) <-> In y l.
Proof.
  induction l as [| h l IH]; simpl.
  - reflexivity.
  - rewrite In_insert_sorted_Z, IH. intuition.
Qed.

Lemma In_nonzero y l : In y (np.nonzero l) <-> In y l /\ y <> 0.
Proof.
  unfold np.nonzero. rewrite List.filter_In.
  rewrite negb_true_iff, Z.eqb_neq. reflexivity.
Qed.

(** The masked selection keeps the entries whose flag is set. *)
Lemma In_selected {A B} (f : B -> bool) (c : A) : forall (pe : list B) (cs : list A),
  length pe = length cs ->
  In c (map snd (List.filter fst (combine (map f pe) cs))) <->
  exists (t : nat) (e : B), cs !! t = Some c /\ pe !! t = Some e /\ f e = true.
Proof.
  induction pe as [| e pe IH]; intros [| c0 cs] Hlen; simpl in Hlen; try discriminate.
  - simpl. split; [contradiction |]. intros (t & e & H & _).
    rewrite lookup_nil in H. discriminate.
  - simpl. specialize (IH cs ltac:(lia)).
    assert (Htail : (exists (t : nat) (e' : B),
                       (c0 :: cs) !! t = Some c /\ (e :: pe) !! t = Some e' /\ f e' = true) <->
                    (c0 = c /\ f e = true) \/
                    (exists (t : nat) (e' : B),
                       cs !! t = Some c /\ pe !! t = Some e' /\ f e' = true)).
    { split.
      - intros ([| t] & e' & H1 & H2 & H3); simpl in *.
        + left. split; congruence.
        + right. exists t, e'. auto.
      - intros [[-> H] | (t & e' & H1 & H2 & H3)].
        + exists 0%nat, e. auto.
        + exists (S t), e'. auto. }
    rewrite Htail. destruct (f e) eqn:Efe; simpl.
    + rewrite IH. intuition.
    + rewrite IH. intuition. discriminate.
Qed.

Lemma zip_with_same {A B} (f g : A -> B -> B) : forall (l : list A) (k : list B),
  zip_with f l (zip_with g l k) = zip_with (fun c v => f c (g c v)) l k.
Proof.
  induction l as [| c l IH]; intros [| v k]; simpl; try reflexivity.
  rewrite IH. reflexivity.
Qed.

Lemma zip_with_snd {A B} : forall (l : list A) (k : list B),
  length k = length l -> zip_with (fun _ v => v) l k = k.
Proof.
  induction l as [| c l IH]; intros [| v k] Hlen; simpl in *; try discriminate;
    try reflexivity.
  rewrite IH by lia. reflexivity.
Qed.

(** The loop over [temp] marks exactly the pores whose cluster label is
    in [temp], with that label. *)
Lemma fold_mark_cluster clusters : forall temp inv_clusters,
  length inv_clusters = length clusters ->
  fold_left (mark_cluster clusters) temp inv_clusters =
  zip_with (fun c v => if existsb (Z.eqb c) temp then c else v) clusters inv_clusters.
Proof.
  induction temp as [| t temp IH]; intros inv_clusters Hlen; simpl.
  - symmetry. apply zip_with_snd. exact Hlen.
  - rewrite IH by (unfold mark_cluster; rewrite length_zip_with; lia).
    unfold mark_cluster. rewrite zip_with_same.
    apply zip_with_ext; try reflexivity.
    intros c v.
    destruct (Z.eqb_spec c t) as [-> |]; simpl.
    + destruct (existsb (Z.eqb t) temp); reflexivity.
    + reflexivity.
Qed.

Lemma lookup_repeat {A} (a : A) (n i : nat) :
  (i < n)%nat -> repeat a n !! i = Some a.
Proof.
  revert i. induction n as [| n IH]; intros [| i] Hi; simpl; try lia; try reflexivity.
  apply IH. lia.
Qed.

Lemma existsb_In c l : existsb (Z.eqb c) l = true <-> In c l.
Proof.
  rewrite existsb_exists. split.
  - intros (x & Hx & He). apply Z.eqb_eq in He. subst. exact Hx.
  - intros H. exists c. split; [exact H | apply Z.eqb_refl].
Qed.

Lemma length_trim clusters inj : length (trim clusters inj) = length clusters.
Proof.
  unfold trim.
  rewrite fold_mark_cluster by (unfold np.izeros; apply repeat_length).
  rewrite length_zip_with. unfold np.izeros. rewrite repeat_length. lia.
Qed.

(** A pore is marked by the trim iff its cluster label occurs, nonzero,
    among [inj_clusters]. *)
Lemma trim_marked clusters inj (q : nat) (c : Z) :
  clusters !! q = Some c -> 0 < c ->
  (0 < nth q (trim clusters inj) 0 <-> In c inj).
Proof.
  intros Hq Hc. unfold trim.
  rewrite fold_mark_cluster by (unfold np.izeros; apply repeat_length).
  assert (Hz : np.izeros (length clusters) !! q = Some 0).
  { unfold np.izeros. apply lookup_lt_Some in Hq. apply lookup_repeat. lia. }
  assert (Hl : zip_with (fun c v => if existsb (Z.eqb c) (np.unique Z.ltb (np.nonzero inj))
                                    then c else v) clusters (np.izeros (length clusters)) !! q
               = Some (if existsb (Z.eqb c) (np.unique Z.ltb (np.nonzero inj)) then c else 0)).
  { rewrite lookup_zip_with, Hq. simpl. rewrite Hz. reflexivity. }
  rewrite (nth_lookup_Some _ _ 0 _ Hl).
  destruct (existsb (Z.eqb c) (np.unique Z.ltb (np.nonzero inj))) eqn:E.
  - apply existsb_In in E. rewrite In_unique_Z, In_nonzero in E.
    intuition.
  - split; [lia |]. intros Hin. exfalso.
    assert (E' : existsb (Z.eqb c) (np.unique Z.ltb (np.nonzero inj)) = true).
    { apply existsb_In. apply In_unique_Z. apply In_nonzero. split; [exact Hin | lia]. }
    congruence.
Qed.

(** ** Running the monadic code *)

Ltac mred :=
  cbv beta iota delta
    [bind ret lift get get_attr raise pore_prop throat_prop set_pore_prop
     set_throat_prop del_throat_prop set_adjmatrix_csr set_OP set_ALOP
     set_inv_src set_inv_points set_results with_net with_throats with_pores
     with_adj _net pore_properties throat_properties _adjmatrix_csr _OP _ALOP
     _inv_src _inv_points _results counter as_float as_int as_bool as_int2
     alen get_num_pores get_num_throats positive create_adjacency_matrix].

Ltac mlookup :=
  first
    [ rewrite lookup_insert_eq
    | rewrite lookup_insert_ne by discriminate
    | match goal with
      | H : ?m !! ?k = Some _ |- context [?m !! ?k] => rewrite H
      end ].

Ltac mrun := repeat (mred; try mlookup).

Lemma compress_ok {A} (mask : list bool) (a : list A) :
  length mask = length a ->
  np.compress mask a = Return (map snd (List.filter fst (combine mask a))).
Proof.
  intros H. unfold np.compress. rewrite H, Nat.eqb_refl. reflexivity.
Qed.

Lemma bool_times_int_ok (b : list bool) (a : list Z) :
  length b = length a ->
  np.bool_times_int b a = Return (zip_with (fun x y => np.b2z x * y) b a).
Proof.
  intros H. unfold np.bool_times_int. rewrite H, Nat.eqb_refl. reflexivity.
Qed.

Lemma selected_incl {A} (mask : list bool) (a : list A) (x : A) :
  In x (map snd (List.filter fst (combine mask a))) -> In x a.
Proof.
  intros H. apply in_map_iff in H. destruct H as ([b y] & Heq & Hin).
  simpl in Heq. subst. apply List.filter_In in Hin. destruct Hin as [Hin _].
  eapply in_combine_r. exact Hin.
Qed.

Lemma coo_entry_ok P c : in_range P c = true -> coo_entry P c = Return (to_entry c).
Proof.
  unfold in_range, coo_entry, pore_index, to_entry. intros H.
  apply andb_true_iff in H. destruct H as [H H4].
  apply andb_true_iff in H. destruct H as [H H3].
  apply andb_true_iff in H. destruct H as [H1 H2].
  rewrite H1, H2, H3, H4. reflexivity.
Qed.

Lemma in_range_swap P c : in_range P c = true -> in_range P (swap c) = true.
Proof.
  unfold in_range, swap. simpl. intros H.
  apply andb_true_iff in H. destruct H as [H H4].
  apply andb_true_iff in H. destruct H as [H H3].
  apply andb_true_iff in H. destruct H as [H1 H2].
  rewrite H1, H2, H3, H4. reflexivity.
Qed.

Lemma coo_ok P (mask : list bool) (cs : list (Z * Z)) :
  forallb (in_range P) cs = true ->
  let conn := map snd (List.filter fst (combine mask cs)) in
  traverse (coo_entry P) (conn ++ map swap conn) =
  Return (map to_entry (conn ++ map swap conn)).
Proof.
  intros Hrange conn. apply traverse_ok. intros c Hc.
  apply coo_entry_ok. rewrite forallb_forall in Hrange.
  apply in_app_or in Hc. destruct Hc as [Hc | Hc].
  - apply Hrange. eapply selected_incl. exact Hc.
  - apply in_map_iff in Hc. destruct Hc as (c' & <- & Hc').
    apply in_range_swap. apply Hrange. eapply selected_incl. exact Hc'.
Qed.

Lemma length_roots g : length (csgraph.roots g) = shape g.
Proof.
  unfold csgraph.roots.
  assert (H : forall E r, length (fold_left csgraph.merge E r) = length r).
  { induction E as [| e E IH]; intros r; simpl; [reflexivity |].
    rewrite IH. unfold csgraph.merge, csgraph.relabel. apply length_map. }
  rewrite H. apply length_seq.
Qed.

Lemma length_clusters_at P cs pe p : length (clusters_at P cs pe p) = P.
Proof.
  unfold clusters_at, csgraph.connected_components. simpl.
  rewrite !length_map. apply length_roots.
Qed.

(** One call of [_do_one_inner_iteration] with a source mask. *)
Lemma inner_source s nb ty vol cs pe src p :
  well_formed (_net s) nb ty vol cs pe ->
  _ALOP s = 1 -> _inv_src s = Some src -> length src = length nb ->
  _do_one_inner_iteration p s =
  (Return (trim (clusters_at (length nb) cs pe p)
             (zip_with (fun x y => np.b2z x * y) src (clusters_at (length nb) cs pe p))),
   inner_state (length nb) cs pe p s).
Proof.
  intros Hwf Halop Hsrc Hlen.
  destruct s as [[pp tp adj] c op alop isrc pts res].
  destruct Hwf as [Hnb Hty Hvol Hcs Hpe Hl1 Hl2 Hl3 Hrange].
  cbn in *. subst alop isrc.
  unfold _do_one_inner_iteration.
  mrun.
  rewrite compress_ok by (rewrite length_map; exact Hl3).
  mrun.
  rewrite (coo_ok _ _ _ Hrange).
  mrun.
  rewrite Z.eqb_refl.
  mrun.
  fold (open_flags pe p). fold (adjacency (length nb) cs pe p).
  fold (clusters_at (length nb) cs pe p).
  rewrite bool_times_int_ok by (rewrite length_clusters_at; exact Hlen).
  reflexivity.
Qed.

Lemma item_ok (a : list Z) (i : Z) :
  0 <= i < Z.of_nat (length a) -> np.item a i = Return (nth (Z.to_nat i) a 0).
Proof.
  intros H. unfold np.item.
  destruct (Z.leb_spec 0 i); [| lia].
  destruct (Z.ltb_spec i (Z.of_nat (length a))); [| lia]. reflexivity.
Qed.

(** The positions collected in flood mode are pore indices: the endpoint
    of an open throat, or 0 for a closed one. *)
Lemma temp_in_range P (f : Z * Z -> Z) (flags : list bool) (cs : list (Z * Z)) (z : Z) :
  (forall c, In c cs -> 0 <= f c < Z.of_nat P) ->
  In z (zip_with (fun x y => np.b2z x * y) flags (map (fun c => (f c + 1) - 1) cs)) ->
  0 <= z < Z.of_nat P.
Proof.
  intros Hf Hin. apply list_elem_of_In in Hin.
  apply list_elem_of_lookup in Hin. destruct Hin as [t Ht].
  rewrite lookup_zip_with in Ht.
  destruct (flags !! t) as [b |] eqn:Eb; simpl in Ht; [| discriminate].
  change (map (fun c => f c + 1 - 1) cs) with ((fun c => f c + 1 - 1) <$> cs) in Ht.
  rewrite list_lookup_fmap in Ht.
  destruct (cs !! t) as [c |] eqn:Ec; simpl in Ht; [| discriminate].
  inversion Ht; subst.
  assert (Hc : In c cs).
  { apply list_elem_of_In. apply list_elem_of_lookup. eauto. }
  specialize (Hf c Hc). destruct b; simpl; lia.
Qed.

Lemma in_range_fst P cs c :
  forallb (in_range P) cs = true -> In c cs -> 0 <= fst c < Z.of_nat P.
Proof.
  intros H Hc. rewrite forallb_forall in H. specialize (H c Hc).
  unfold in_range in H.
  apply andb_true_iff in H. destruct H as [H H4].
  apply andb_true_iff in H. destruct H as [H H3].
  apply andb_true_iff in H. destruct H as [H1 H2]. lia.
Qed.

Lemma in_range_snd P cs c :
  forallb (in_range P) cs = true -> In c cs -> 0 <= snd c < Z.of_nat P.
Proof.
  intros H Hc. rewrite forallb_forall in H. specialize (H c Hc).
  unfold in_range in H.
  apply andb_true_iff in H. destruct H as [H H4].
  apply andb_true_iff in H. destruct H as [H H3].
  apply andb_true_iff in H. destruct H as [H1 H2]. lia.
Qed.

Lemma take_temp_ok nb (f : Z * Z -> Z) (flags : list bool) (cs : list (Z * Z)) :
  (forall c, In c cs -> 0 <= f c < Z.of_nat (length nb)) ->
  let temp := zip_with (fun x y => np.b2z x * y) flags (map (fun c => (f c + 1) - 1) cs) in
  traverse (np.item nb) (List.filter (fun z => 0 <=? z) temp) =
  Return (map (fun i => nth (Z.to_nat i) nb 0) (List.filter (fun z => 0 <=? z) temp)).
Proof.
  intros Hf temp. apply traverse_ok. intros z Hz.
  apply List.filter_In in Hz. destruct Hz as [Hz _].
  apply item_ok. eapply temp_in_range; eassumption.
Qed.

(** One call of [_do_one_inner_iteration] in flood mode. *)
Lemma inner_flood s nb ty vol cs pe p :
  well_formed (_net s) nb ty vol cs pe ->
  _ALOP s <> 1 -> _OP s = 1 ->
  _do_one_inner_iteration p s =
  (Return (trim (clusters_at (length nb) cs pe p) (flood_sources nb cs pe p)),
   inner_state (length nb) cs pe p s).
Proof.
  intros Hwf Halop Hop.
  destruct s as [[pp tp adj] c op alop isrc pts res].
  destruct Hwf as [Hnb Hty Hvol Hcs Hpe Hl1 Hl2 Hl3 Hrange].
  cbn in *. subst op.
  unfold _do_one_inner_iteration.
  mrun.
  rewrite compress_ok by (rewrite length_map; exact Hl3).
  mrun.
  rewrite (coo_ok _ _ _ Hrange).
  mrun.
  apply Z.eqb_neq in Halop. rewrite Halop, Z.eqb_refl.
  mrun.
  rewrite !bool_times_int_ok by (rewrite !length_map; exact Hl3).
  mrun.
  rewrite (take_temp_ok nb fst) by (intros c0 Hc0; eapply in_range_fst; eassumption).
  mrun.
  rewrite (take_temp_ok nb snd) by (intros c0 Hc0; eapply in_range_snd; eassumption).
  reflexivity.
Qed.

(** In either mode the call returns one entry per pore and leaves
    [inner_state]. *)
Lemma inner_total s nb ty vol cs pe p :
  well_formed (_net s) nb ty vol cs pe -> configured s (length nb) ->
  exists inv_clusters,
    _do_one_inner_iteration p s =
      (Return inv_clusters, inner_state (length nb) cs pe p s) /\
    length inv_clusters = length nb.
Proof.
  intros Hwf [src Halop Hsrc Hlen | Halop Hop].
  - eexists. split; [eapply inner_source; eassumption |].
    rewrite length_trim. apply length_clusters_at.
  - eexists. split; [eapply inner_flood; eassumption |].
    rewrite length_trim. apply length_clusters_at.
Qed.

(** ** The pressure sweep *)

Lemma inner_run s nb ty vol cs pe p :
  well_formed (_net s) nb ty vol cs pe -> configured s (length nb) ->
  _do_one_inner_iteration p s =
  (Return (inner_result s nb cs pe p), inner_state (length nb) cs pe p s).
Proof.
  intros Hwf [src Halop Hsrc Hlen | Halop Hop]; unfold inner_result.
  - rewrite Halop, Hsrc. simpl. eapply inner_source; eassumption.
  - apply Z.eqb_neq in Halop. rewrite Halop.
    apply Z.eqb_neq in Halop. eapply inner_flood; eassumption.
Qed.

Lemma length_inner_result s nb cs pe p :
  configured s (length nb) -> length (inner_result s nb cs pe p) = length nb.
Proof.
  intros [src Halop Hsrc Hlen | Halop Hop]; unfold inner_result.
  - rewrite Halop, Hsrc. simpl. rewrite length_trim. apply length_clusters_at.
  - apply Z.eqb_neq in Halop. rewrite Halop.
    rewrite length_trim. apply length_clusters_at.
Qed.

Lemma length_step_record p rec inv :
  length inv = length rec -> length (step_record p rec inv) = length rec.
Proof.
  intros H. unfold step_record. rewrite length_zip_with. lia.
Qed.

Lemma well_formed_outer_state nb ty vol cs pe p rec s :
  well_formed (_net s) nb ty vol cs pe ->
  well_formed (_net (outer_state (length nb) cs pe p rec s)) nb ty vol cs pe.
Proof.
  intros [Hnb Hty Hvol Hcs Hpe Hl1 Hl2 Hl3 Hrange].
  destruct s as [[pp tp adj] c op alop isrc pts res]. cbn in *.
  split; cbn; try assumption.
  - rewrite lookup_insert_ne by discriminate. assumption.
  - rewrite lookup_insert_ne by discriminate. assumption.
  - rewrite lookup_insert_ne by discriminate. assumption.
  - rewrite lookup_insert_ne by discriminate. assumption.
  - rewrite lookup_insert_ne by discriminate. assumption.
Qed.

Lemma configured_outer_state P cs pe p rec s n :
  configured s n -> configured (outer_state P cs pe p rec s) n.
Proof.
  destruct s as [[pp tp adj] c op alop isrc pts res].
  intros [src Halop Hsrc Hlen | Halop Hop]; cbn in *.
  - eapply configured_source; cbn; eassumption.
  - apply configured_flood; cbn; assumption.
Qed.

Lemma inner_result_outer_state P cs' pe' p' rec s nb cs pe p :
  inner_result (outer_state P cs' pe' p' rec s) nb cs pe p = inner_result s nb cs pe p.
Proof.
  destruct s as [[pp tp adj] c op alop isrc pts res]. reflexivity.
Qed.

(** One pass through the body of the loop. *)
Lemma outer_step_run s nb ty vol cs pe rec p :
  sweeping s nb ty vol cs pe rec ->
  let rec' := step_record p rec (inner_result s nb cs pe p) in
  outer_step p s = (Return tt, outer_state (length nb) cs pe p rec' s) /\
  sweeping (outer_state (length nb) cs pe p rec' s) nb ty vol cs pe rec'.
Proof.
  intros [Hwf Hmode Hrec Hlen] rec'. split.
  - unfold outer_step. unfold bind at 1.
    rewrite (inner_run s nb ty vol cs pe p Hwf Hmode).
    destruct s as [[pp tp adj] c op alop isrc pts res]. cbn in Hrec.
    unfold inner_state. mrun.
    unfold store_invasion.
    rewrite length_inner_result by exact Hmode. rewrite Hlen, Nat.eqb_refl.
    reflexivity.
  - split.
    + apply well_formed_outer_state. exact Hwf.
    + apply configured_outer_state. exact Hmode.
    + destruct s as [[pp tp adj] c op alop isrc pts res]. cbn.
      apply lookup_insert_eq.
    + unfold rec'. rewrite length_step_record; [exact Hlen |].
      rewrite length_inner_result by exact Hmode. congruence.
Qed.

Lemma sweep_record_ext inv inv' pts : forall rec,
  (forall p, inv p = inv' p) -> sweep_record inv pts rec = sweep_record inv' pts rec.
Proof.
  induction pts as [| p pts IH]; intros rec H; simpl; [reflexivity |].
  rewrite H. apply IH. exact H.
Qed.

(** The whole loop: it returns, and the record it leaves is
    [sweep_record]. *)
Lemma for_each_outer_step nb ty vol cs pe pts : forall s rec,
  sweeping s nb ty vol cs pe rec ->
  exists s',
    for_each pts outer_step s = (Return tt, s') /\
    sweeping s' nb ty vol cs pe (sweep_record (inner_result s nb cs pe) pts rec) /\
    (forall p, inner_result s' nb cs pe p = inner_result s nb cs pe p).
Proof.
  induction pts as [| p pts IH]; intros s rec Hsw.
  - exists s. repeat split; try apply Hsw. 
  - destruct (outer_step_run s nb ty vol cs pe rec p Hsw) as [Hrun Hsw'].
    destruct (IH _ _ Hsw') as (s' & Hloop & Hsw'' & Hres).
    exists s'. split; [| split].
    + simpl. unfold bind. rewrite Hrun. exact Hloop.
    + simpl.
      rewrite <- (sweep_record_ext _ _ pts _
                    (fun p' => inner_result_outer_state (length nb) cs pe p
                       (step_record p rec (inner_result s nb cs pe p)) s nb cs pe p')).
      exact Hsw''.
    + intros p'. rewrite Hres. apply inner_result_outer_state.
Qed.

(** ** Setup *)

Lemma size_nil_iff {A} (l : list A) : np.size l = 0 <-> l = [].
Proof.
  unfold np.size. destruct l; simpl; split; intros H; try reflexivity;
    try discriminate; lia.
Qed.

Lemma setup_run s nb ty vol cs pe npts inv_faces inv_sites lo hi pts :
  well_formed (_net s) nb ty vol cs pe ->
  np.min pe = Return lo -> np.max pe = Return hi ->
  np.linspace lo hi npts = Return pts ->
  _setup npts inv_faces inv_sites s =
  (Return tt, setup_state inv_faces inv_sites nb ty cs pts s).
Proof.
  intros [Hnb Hty Hvol Hcs Hpe Hl1 Hl2 Hl3 Hrange] Hlo Hhi Hpts.
  destruct s as [[pp tp adj] c op alop isrc ipts res]. cbn in *.
  unfold _setup, setup_state.
  destruct (np.size inv_faces + np.size inv_sites =? 0) eqn:E0.
  - mrun. rewrite Hlo. mrun. rewrite Hhi. mrun. rewrite Hpts. reflexivity.
  - destruct (0 <? np.size inv_faces) eqn:E1.
    + mrun. rewrite Hlo. mrun. rewrite Hhi. mrun. rewrite Hpts. reflexivity.
    + destruct (0 <? np.size inv_sites) eqn:E2.
      * mrun. rewrite Hlo. mrun. rewrite Hhi. mrun. rewrite Hpts. reflexivity.
      * exfalso. apply Z.eqb_neq in E0. apply Z.ltb_ge in E1. apply Z.ltb_ge in E2.
        unfold np.size in *. lia.
Qed.

(** A network without throats: [np.min] raises, after the three arrays of
    zeros were stored and before any schedule exists. *)
Lemma setup_no_throats s nb ty vol npts inv_faces inv_sites :
  well_formed (_net s) nb ty vol [] [] ->
  exists s',
    _setup npts inv_faces inv_sites s = (Raise ValueError, s') /\
    pore_properties (_net s') !! "Pc_invaded" = Some (AFloat (np.zeros (length nb))) /\
    _inv_points s' = _inv_points s.
Proof.
  intros [Hnb Hty Hvol Hcs Hpe Hl1 Hl2 Hl3 Hrange].
  destruct s as [[pp tp adj] c op alop isrc ipts res]. cbn in *.
  unfold _setup.
  destruct (np.size inv_faces + np.size inv_sites =? 0) eqn:E0.
  - eexists. split; [mrun; reflexivity |]. cbn. split; [apply lookup_insert_eq | reflexivity].
  - destruct (0 <? np.size inv_faces) eqn:E1.
    + eexists. split; [mrun; reflexivity |]. cbn.
      split; [apply lookup_insert_eq | reflexivity].
    + destruct (0 <? np.size inv_sites) eqn:E2.
      * eexists. split; [mrun; reflexivity |]. cbn.
        split; [apply lookup_insert_eq | reflexivity].
      * exfalso. apply Z.eqb_neq in E0. apply Z.ltb_ge in E1. apply Z.ltb_ge in E2.
        unfold np.size in *. lia.
Qed.

Lemma lookup_zeros (n i : nat) : (i < n)%nat -> np.zeros n !! i = Some 0%Q.
Proof. apply lookup_repeat. Qed.

Lemma length_zeros (n : nat) : length (np.zeros n) = n.
Proof. apply repeat_length. Qed.

(** After [_setup] the object is ready for the sweep, every pore at the
    sentinel. *)
Lemma sweeping_setup_state s nb ty vol cs pe inv_faces inv_sites pts :
  well_formed (_net s) nb ty vol cs pe ->
  sweeping (setup_state inv_faces inv_sites nb ty cs pts s) nb ty vol cs pe
    (np.zeros (length nb)).
Proof.
  intros [Hnb Hty Hvol Hcs Hpe Hl1 Hl2 Hl3 Hrange].
  destruct s as [[pp tp adj] c op alop isrc ipts res]. cbn in *.
  split.
  - split; cbn; try assumption;
      rewrite ?lookup_insert_ne by discriminate; assumption.
  - unfold setup_state.
    destruct (np.size inv_faces + np.size inv_sites =? 0) eqn:E0.
    + apply configured_flood; cbn; [discriminate | reflexivity].
    + destruct (0 <? np.size inv_faces) eqn:E1.
      * eapply configured_source; cbn; [reflexivity | reflexivity |].
        unfold np.in1d. rewrite length_map. exact Hl1.
      * eapply configured_source; cbn; [reflexivity | reflexivity |].
        unfold np.in1d. rewrite length_map. reflexivity.
  - cbn. apply lookup_insert_eq.
  - apply length_zeros.
Qed.

(** ** The pressure schedule *)

Lemma fold_Qminb r : forall x,
  let m := fold_left np.Qminb r x in
  (m = x \/ In m r) /\ (m <= x)%Q /\ (forall y, In y r -> (m <= y)%Q).
Proof.
  induction r as [| z r IH]; intros x; simpl.
  - split; [left; reflexivity |]. split; [apply Qle_refl | contradiction].
  - destruct (IH (np.Qminb x z)) as (Hin & Hle & Hall).
    assert (Hx : (np.Qminb x z <= x)%Q /\ (np.Qminb x z <= z)%Q /\
                 (np.Qminb x z = x \/ np.Qminb x z = z)).
    { unfold np.Qminb. destruct (Qle_bool x z) eqn:E.
      - apply Qle_bool_iff in E. split; [apply Qle_refl |]. split; [exact E | left; reflexivity].
      - split; [| split; [apply Qle_refl | right; reflexivity]].
        apply Qlt_le_weak. apply Qnot_le_lt. intros H.
        apply Qle_bool_iff in H. congruence. }
    destruct Hx as (Hx1 & Hx2 & Hx3).
    split; [| split].
    + destruct Hin as [Hin | Hin]; [| right; right; exact Hin].
      rewrite Hin. destruct Hx3 as [-> | ->]; [left; reflexivity | right; left; reflexivity].
    + eapply Qle_trans; eassumption.
    + intros y [<- | Hy]; [eapply Qle_trans; eassumption | apply Hall; exact Hy].
Qed.

Lemma fold_Qmaxb r : forall x,
  let m := fold_left np.Qmaxb r x in
  (m = x \/ In m r) /\ (x <= m)%Q /\ (forall y, In y r -> (y <= m)%Q).
Proof.
  induction r as [| z r IH]; intros x; simpl.
  - split; [left; reflexivity |]. split; [apply Qle_refl | contradiction].
  - destruct (IH (np.Qmaxb x z)) as (Hin & Hle & Hall).
    assert (Hx : (x <= np.Qmaxb x z)%Q /\ (z <= np.Qmaxb x z)%Q /\
                 (np.Qmaxb x z = x \/ np.Qmaxb x z = z)).
    { unfold np.Qmaxb. destruct (Qle_bool x z) eqn:E.
      - apply Qle_bool_iff in E. split; [exact E |]. split; [apply Qle_refl | right; reflexivity].
      - split; [apply Qle_refl |]. split; [| left; reflexivity].
        apply Qlt_le_weak. apply Qnot_le_lt. intros H.
        apply Qle_bool_iff in H. congruence. }
    destruct Hx as (Hx1 & Hx2 & Hx3).
    split; [| split].
    + destruct Hin as [Hin | Hin]; [| right; right; exact Hin].
      rewrite Hin. destruct Hx3 as [-> | ->]; [left; reflexivity | right; left; reflexivity].
    + eapply Qle_trans; eassumption.
    + intros y [<- | Hy]; [eapply Qle_trans; eassumption | apply Hall; exact Hy].
Qed.

(** [np.min] of a non-empty array is its least entry. *)
Lemma min_spec (a : list Q) :
  a <> [] ->
  exists lo, np.min a = Return lo /\ In lo a /\ (forall y, In y a -> (lo <= y)%Q).
Proof.
  destruct a as [| x r]; [congruence |]. intros _.
  destruct (fold_Qminb r x) as (Hin & Hle & Hall).
  exists (fold_left np.Qminb r x). split; [reflexivity |]. split.
  - destruct Hin as [-> | Hin]; [left; reflexivity | right; exact Hin].
  - intros y [<- | Hy]; [exact Hle | apply Hall; exact Hy].
Qed.

(** [np.max] of a non-empty array is its greatest entry. *)
Lemma max_spec (a : list Q) :
  a <> [] ->
  exists hi, np.max a = Return hi /\ In hi a /\ (forall y, In y a -> (y <= hi)%Q).
Proof.
  destruct a as [| x r]; [congruence |]. intros _.
  destruct (fold_Qmaxb r x) as (Hin & Hle & Hall).
  exists (fold_left np.Qmaxb r x). split; [reflexivity |]. split.
  - destruct Hin as [-> | Hin]; [left; reflexivity | right; exact Hin].
  - intros y [<- | Hy]; [exact Hle | apply Hall; exact Hy].
Qed.

(** [np.linspace] for at least two points: the i-th of the [num] values
    is [start + i * (stop - start) / (num - 1)], the last one is [stop]. *)
Lemma linspace_spec (start stop : Q) (num : Z) :
  2 <= num ->
  exists pts,
    np.linspace start stop num = Return pts /\
    length pts = Z.to_nat num /\
    (forall i : nat, (i < Z.to_nat num)%nat ->
       exists v, pts !! i = Some v /\
         (v == start + inject_Z (Z.of_nat i) * ((stop - start) / inject_Z (num - 1)))%Q) /\
    pts !! (Z.to_nat num - 1)%nat = Some stop.
Proof.
  intros Hnum. unfold np.linspace.
  destruct (Z.ltb_spec num 0); [lia |].
  destruct (Z.eqb_spec num 0); [lia |].
  destruct (Z.eqb_spec num 1); [lia |].
  eexists. split; [reflexivity |].
  set (step := ((stop - start) / inject_Z (num - 1))%Q).
  set (y := map (fun i => (inject_Z (Z.of_nat i) * step + start)%Q) (seq 0 (Z.to_nat num))).
  assert (Hlen : length y = Z.to_nat num).
  { unfold y. rewrite length_map, length_seq. reflexivity. }
  assert (Hy : forall i : nat, (i < Z.to_nat num)%nat ->
             y !! i = Some (inject_Z (Z.of_nat i) * step + start)%Q).
  { intros i Hi. unfold y.
    change (map ?f ?l) with (f <$> l).
    rewrite list_lookup_fmap, lookup_seq_lt by exact Hi. reflexivity. }
  split; [| split].
  - rewrite length_insert. exact Hlen.
  - intros i Hi.
    destruct (Nat.eq_dec i (Z.to_nat num - 1)%nat) as [-> | Hne].
    + exists stop. split; [apply list_lookup_insert_eq; lia |].
      rewrite Nat2Z.inj_sub by lia. rewrite Z2Nat.id by lia.
      unfold step. change (Z.of_nat 1) with 1.
      field. intros H0.
      unfold Qeq in H0. simpl in H0. lia.
    + exists (inject_Z (Z.of_nat i) * step + start)%Q. split.
      * rewrite list_lookup_insert_ne by congruence. apply Hy. exact Hi.
      * unfold step. ring.
  - apply list_lookup_insert_eq. lia.
Qed.

Lemma linspace_total (start stop : Q) (num : Z) :
  0 <= num ->
  exists pts, np.linspace start stop num = Return pts /\ length pts = Z.to_nat num.
Proof.
  intros Hnum.
  destruct (Z.eq_dec num 0) as [-> | H0]; [exists []; split; reflexivity |].
  destruct (Z.eq_dec num 1) as [-> | H1]; [exists [start]; split; reflexivity |].
  destruct (linspace_spec start stop num ltac:(lia)) as (pts & Hp & Hl & _).
  exists pts. split; assumption.
Qed.

(** ** The whole run *)

Lemma for_each_keeps_invaded nb ty vol cs pe pts : forall s s' rec,
  sweeping s nb ty vol cs pe rec ->
  for_each pts outer_step s = (Return tt, s') ->
  is_Some (throat_properties (_net s) !! "invaded") ->
  is_Some (throat_properties (_net s') !! "invaded").
Proof.
  induction pts as [| p pts IH]; intros s s' rec Hsw Hrun Hkey.
  - simpl in Hrun. inversion Hrun; subst. exact Hkey.
  - destruct (outer_step_run s nb ty vol cs pe rec p Hsw) as [Hstep Hsw'].
    simpl in Hrun. unfold bind in Hrun. rewrite Hstep in Hrun.
    eapply IH; [exact Hsw' | exact Hrun |].
    destruct s as [[pp tp adj] c op alop isrc ipts res]. cbn.
    rewrite lookup_insert_eq. eexists. reflexivity.
Qed.

Lemma for_each_keeps_points nb ty vol cs pe pts : forall s s' rec,
  sweeping s nb ty vol cs pe rec ->
  for_each pts outer_step s = (Return tt, s') ->
  _inv_points s' = _inv_points s.
Proof.
  induction pts as [| p pts IH]; intros s s' rec Hsw Hrun.
  - simpl in Hrun. inversion Hrun; subst. reflexivity.
  - destruct (outer_step_run s nb ty vol cs pe rec p Hsw) as [Hstep Hsw'].
    simpl in Hrun. unfold bind in Hrun. rewrite Hstep in Hrun.
    rewrite (IH _ _ _ Hsw' Hrun).
    destruct s as [[pp tp adj] c op alop isrc ipts res]. reflexivity.
Qed.

(** [_do_outer_iteration_stage] on an object that went through [_setup]:
    it returns and leaves the record [sweep_record]. *)
Lemma stage_run s nb ty vol cs pe rec pts :
  sweeping s nb ty vol cs pe rec ->
  _inv_points s = Some pts ->
  is_Some (throat_properties (_net s) !! "invaded") ->
  exists s',
    _do_outer_iteration_stage s = (Return tt, s') /\
    pore_properties (_net s') !! "Pc_invaded" =
      Some (AFloat (sweep_record (inner_result s nb cs pe) pts rec)) /\
    well_formed (_net s') nb ty vol cs pe /\
    _inv_points s' = Some pts.
Proof.
  intros Hsw Hpts Hkey.
  destruct (for_each_outer_step nb ty vol cs pe pts s rec Hsw) as (s1 & Hloop & Hsw1 & _).
  pose proof (for_each_keeps_invaded _ _ _ _ _ _ _ _ _ Hsw Hloop Hkey) as [a Ha].
  assert (Hpts1 : _inv_points s1 = Some pts).
  { rewrite (for_each_keeps_points _ _ _ _ _ _ _ _ _ Hsw Hloop). exact Hpts. }
  exists (with_net (with_throats (delete "invaded")) s1).
  destruct Hsw1 as [[Hnb Hty Hvol Hcs Hpe Hl1 Hl2 Hl3 Hrange] Hmode Hrec Hlen].
  split; [| split; [| split]].
  - unfold _do_outer_iteration_stage. unfold bind at 1. unfold get_attr.
    rewrite Hpts. unfold bind. rewrite Hloop. unfold del_throat_prop.
    rewrite Ha. reflexivity.
  - destruct s1 as [[pp tp adj] c op alop isrc ipts res]. exact Hrec.
  - destruct s1 as [[pp tp adj] c op alop isrc ipts res]. cbn in *.
    split; cbn; try assumption;
      rewrite lookup_delete_ne by discriminate; assumption.
  - destruct s1 as [[pp tp adj] c op alop isrc ipts res]. exact Hpts1.
Qed.

(** A run on a network with at least one throat and a non-negative number
    of pressure points returns. *)
Lemma run_returns net nb ty vol cs pe npts inv_faces inv_sites :
  well_formed net nb ty vol cs pe -> pe <> [] -> 0 <= npts ->
  exists s lo hi pts,
    np.min pe = Return lo /\ np.max pe = Return hi /\
    np.linspace lo hi npts = Return pts /\
    __init__ net npts inv_faces inv_sites =
      (Return tt, setup_state inv_faces inv_sites nb ty cs pts (new_object net)) /\
    run net npts inv_faces inv_sites = (Return tt, s) /\
    pore_properties (_net s) !! "Pc_invaded" =
      Some (AFloat (sweep_record
                      (inner_result
                         (setup_state inv_faces inv_sites nb ty cs pts (new_object net))
                         nb cs pe)
                      pts (np.zeros (length nb)))) /\
    well_formed (_net s) nb ty vol cs pe.
Proof.
  intros Hwf Hpe Hnpts.
  destruct (min_spec pe Hpe) as (lo & Hlo & _).
  destruct (max_spec pe Hpe) as (hi & Hhi & _).
  destruct (linspace_total lo hi npts Hnpts) as (pts & Hlin & _).
  assert (Hset : _setup npts inv_faces inv_sites (new_object net) =
                 (Return tt, setup_state inv_faces inv_sites nb ty cs pts (new_object net))).
  { eapply setup_run; eassumption. }
  destruct (stage_run (setup_state inv_faces inv_sites nb ty cs pts (new_object net))
              nb ty vol cs pe (np.zeros (length nb)) pts) as (s & Hstage & Hrec & Hwf' & _).
  - apply sweeping_setup_state. exact Hwf.
  - reflexivity.
  - cbn. rewrite lookup_insert_eq. eexists. reflexivity.
  - exists s, lo, hi, pts. repeat split; try assumption.
    + unfold run, bind. rewrite Hset. exact Hstage.
    + apply Hwf'.
    + apply Hwf'.
    + apply Hwf'.
    + apply Hwf'.
    + apply Hwf'.
    + apply Hwf'.
    + apply Hwf'.
    + apply Hwf'.
    + apply Hwf'.
Qed.

(** ** The adjacency matrix and the open throats *)

Lemma to_entry_of_nat x y : to_entry (Z.of_nat x, Z.of_nat y) = (x, y).
Proof. unfold to_entry. simpl. rewrite !Nat2Z.id. reflexivity. Qed.

(** The stored entries are the open throats, in both directions. *)
Lemma In_adjacency P cs pe p x y :
  length pe = length cs -> forallb (in_range P) cs = true ->
  In (x, y) (indices (adjacency P cs pe p)) <->
  open_throat cs pe p x y \/ open_throat cs pe p y x.
Proof.
  intros Hlen Hrange. unfold adjacency, open_flags. simpl.
  set (conn := map snd (List.filter fst (combine (map (fun e => np.Qltb e p) pe) cs))).
  assert (Hconn : forall c, In c conn <->
            exists (t : nat) (e : Q), cs !! t = Some c /\ pe !! t = Some e /\ (e < p)%Q).
  { intros c. unfold conn. rewrite In_selected by exact Hlen.
    split; intros (t & e & H1 & H2 & H3); exists t, e; repeat split; try assumption;
      apply Qltb_lt; assumption. }
  assert (Hnat : forall c, In c conn -> (Z.of_nat (Z.to_nat (fst c)), Z.of_nat (Z.to_nat (snd c))) = c).
  { intros c Hc. apply Hconn in Hc. destruct Hc as (t & e & Ht & _).
    assert (Hin : In c cs) by (apply list_elem_of_In, list_elem_of_lookup; eauto).
    pose proof (in_range_fst _ _ _ Hrange Hin). pose proof (in_range_snd _ _ _ Hrange Hin).
    destruct c as [a b]. simpl in *. rewrite !Z2Nat.id by lia. reflexivity. }
  rewrite in_map_iff. split.
  - intros (c & Heq & Hin). apply in_app_or in Hin. destruct Hin as [Hin | Hin].
    + left. unfold open_throat. apply Hconn.
      rewrite <- (Hnat c Hin) in Hin. unfold to_entry in Heq. inversion Heq; subst.
      exact Hin.
    + right. apply in_map_iff in Hin. destruct Hin as (c' & <- & Hin).
      unfold open_throat. apply Hconn.
      rewrite <- (Hnat c' Hin) in Hin. unfold to_entry, swap in Heq. simpl in Heq.
      inversion Heq; subst. exact Hin.
  - intros [H | H].
    + exists (Z.of_nat x, Z.of_nat y). split; [apply to_entry_of_nat |].
      apply in_or_app. left. apply Hconn. exact H.
    + exists (Z.of_nat x, Z.of_nat y). split; [apply to_entry_of_nat |].
      apply in_or_app. right. apply in_map_iff.
      exists (Z.of_nat y, Z.of_nat x). split; [reflexivity |]. apply Hconn. exact H.
Qed.

Lemma adjacency_in_shape P cs pe p e :
  forallb (in_range P) cs = true ->
  In e (indices (adjacency P cs pe p)) ->
  (fst e < shape (adjacency P cs pe p))%nat /\ (snd e < shape (adjacency P cs pe p))%nat.
Proof.
  intros Hrange Hin. unfold adjacency in *. simpl in *.
  apply in_map_iff in Hin. destruct Hin as (c & <- & Hin).
  assert (Hc : in_range P c = true).
  { rewrite forallb_forall in Hrange. apply in_app_or in Hin. destruct Hin as [Hin | Hin].
    - apply Hrange. eapply selected_incl. exact Hin.
    - apply in_map_iff in Hin. destruct Hin as (c' & <- & Hin).
      apply in_range_swap. apply Hrange. eapply selected_incl. exact Hin. }
  unfold in_range in Hc.
  apply andb_true_iff in Hc. destruct Hc as [Hc H4].
  apply andb_true_iff in Hc. destruct Hc as [Hc H3].
  apply andb_true_iff in Hc. destruct Hc as [H1 H2].
  unfold to_entry. simpl. lia.
Qed.

(** Connected in the adjacency matrix is joined by open throats. *)
Lemma connected_joined P cs pe p x y :
  length pe = length cs -> forallb (in_range P) cs = true ->
  connected (indices (adjacency P cs pe p)) x y <-> joined cs pe p x y.
Proof.
  intros Hlen Hrange. split.
  - induction 1 as [x | x y Hin | x y _ IH | x y z _ IH1 _ IH2].
    + apply joined_refl.
    + apply In_adjacency in Hin; try assumption. destruct Hin as [H | H].
      * apply joined_throat. exact H.
      * apply joined_sym. apply joined_throat. exact H.
    + apply joined_sym. exact IH.
    + eapply joined_trans; eassumption.
  - induction 1 as [x | x y Hopen | x y _ IH | x y z _ IH1 _ IH2].
    + apply connected_refl.
    + apply connected_edge. apply In_adjacency; try assumption. left. exact Hopen.
    + apply connected_sym. exact IH.
    + eapply connected_trans; eassumption.
Qed.

(** The cluster labels of one step: one per pore, positive, and equal for
    two pores iff open throats join them. *)
Lemma clusters_at_spec P cs pe p :
  length pe = length cs -> forallb (in_range P) cs = true ->
  forall x, (x < P)%nat ->
    exists c, clusters_at P cs pe p !! x = Some c /\ 0 < c /\
      forall y, (y < P)%nat ->
        (clusters_at P cs pe p !! y = Some c <-> joined cs pe p x y).
Proof.
  intros Hlen Hrange x Hx.
  destruct (connected_components_spec (adjacency P cs pe p)) as (Hl & Hpos & Heq).
  { intros e He. apply adjacency_in_shape; assumption. }
  change (shape (adjacency P cs pe p)) with P in *.
  set (labels := snd (csgraph.connected_components (adjacency P cs pe p))) in *.
  assert (Hlook : forall z, (z < P)%nat ->
            clusters_at P cs pe p !! z = Some (nth z labels 0 + 1)).
  { intros z Hz. unfold clusters_at. fold labels.
    change (map ?f ?l) with (f <$> l). rewrite list_lookup_fmap.
    destruct (nth_lookup_or_length labels z 0) as [Hs | Hge]; [| lia].
    rewrite Hs. simpl. f_equal.
    specialize (Hpos z Hz). destruct (Z.leb_spec 0 (nth z labels 0)); [| lia].
    unfold np.b2z. lia. }
  exists (nth x labels 0 + 1). split; [apply Hlook; exact Hx |].
  split; [specialize (Hpos x Hx); lia |].
  intros y Hy. rewrite (Hlook y Hy).
  rewrite <- (connected_joined P) by assumption.
  rewrite <- (Heq x y Hx Hy). split.
  - intros H. inversion H. lia.
  - intros ->. reflexivity.
Qed.

(** ** Source mode *)

Lemma lookup_in1d (ar1 ar2 : list Z) (r : nat) :
  np.in1d ar1 ar2 !! r = Some true <-> exists t, ar1 !! r = Some t /\ In t ar2.
Proof.
  unfold np.in1d. change (map ?f ?l) with (f <$> l). rewrite list_lookup_fmap.
  destruct (ar1 !! r) as [t |]; simpl.
  - split.
    + intros H. inversion H as [H1]. exists t. split; [reflexivity |].
      apply existsb_In. exact H1.
    + intros (t' & Ht & Hin). inversion Ht; subst. f_equal. apply existsb_In. exact Hin.
  - split; [discriminate |]. intros (t & Ht & _). discriminate.
Qed.

(** With a source mask, a pore is marked iff open throats join it to a
    pore of the mask. *)
Lemma source_marked P cs pe p src q :
  length pe = length cs -> forallb (in_range P) cs = true ->
  length src = P -> (q < P)%nat ->
  let clusters := clusters_at P cs pe p in
  invaded_this_step (trim clusters (zip_with (fun x y => np.b2z x * y) src clusters)) q <->
  exists r, src !! r = Some true /\ joined cs pe p q r.
Proof.
  intros Hlen Hrange Hsrc Hq clusters. unfold invaded_this_step.
  destruct (clusters_at_spec P cs pe p Hlen Hrange q Hq) as (c & Hc & Hpos & Hjoin).
  fold clusters in Hc, Hjoin.
  rewrite (trim_marked clusters _ q c Hc Hpos).
  assert (Hcl : length clusters = P) by apply length_clusters_at.
  split.
  - intros Hin. apply list_elem_of_In, list_elem_of_lookup in Hin.
    destruct Hin as [r Hr]. rewrite lookup_zip_with in Hr.
    destruct (src !! r) as [b |] eqn:Eb; simpl in Hr; [| discriminate].
    destruct (clusters !! r) as [c' |] eqn:Ec; simpl in Hr; [| discriminate].
    inversion Hr as [Hbc]. destruct b; unfold np.b2z in Hbc; [| lia].
    assert (c' = c) by lia. subst c'.
    exists r. split; [exact Eb |]. apply Hjoin; [| exact Ec].
    apply lookup_lt_Some in Ec. lia.
  - intros (r & Hr & Hj).
    assert (Hrlt : (r < P)%nat) by (apply lookup_lt_Some in Hr; lia).
    apply Hjoin in Hj; [| exact Hrlt].
    apply list_elem_of_In, list_elem_of_lookup. exists r.
    rewrite lookup_zip_with, Hr. simpl. rewrite Hj. simpl. f_equal.
    unfold np.b2z. lia.
Qed.

(** * The claims *)

Lemma net3_well_formed :
  well_formed net3 [0; 1; 2] [0; 0; 0] [1%Q; 1%Q; 1%Q] [(1, 2); (0, 1)] [1%Q; 3%Q].
Proof. split; vm_compute; reflexivity. Qed.

Lemma setup_state_not_flood inv_faces inv_sites nb ty cs pts s :
  inv_faces <> [] \/ inv_sites <> [] ->
  let s' := setup_state inv_faces inv_sites nb ty cs pts s in
  _ALOP s' = 1 /\ _OP s' = 0 /\
  _inv_src s' = Some (match inv_faces with
                      | _ :: _ => np.in1d ty inv_faces
                      | [] => np.in1d nb inv_sites
                      end).
Proof.
  intros Hsrc. unfold setup_state. cbn.
  destruct (np.size inv_faces + np.size inv_sites =? 0) eqn:E0.
  - exfalso. apply Z.eqb_eq in E0. unfold np.size in E0.
    destruct inv_faces, inv_sites; simpl in *; try lia.
    destruct Hsrc; congruence.
  - repeat split. destruct inv_faces as [| f l]; reflexivity.
Qed.

(** C1 (as stated, refuted): with both face sources and site sources the
    setup of [net3] returns normally, in source mode; no exception is
    raised. *)
Lemma setup_both_sources_returns :
  fst (__init__ net3 25 [0] [0]) = Return tt /\
  _ALOP (snd (__init__ net3 25 [0] [0])) = 1 /\
  _inv_src (snd (__init__ net3 25 [0] [0])) = Some [true; true; true].
Proof. vm_compute. repeat split. Qed.

(** C1 (amended): on a network with at least one throat, [_setup] never
    fails on account of its sources.  Given face sources (with or without
    site sources) it selects source mode with the mask of the pores whose
    type is among the faces: the faces take precedence.  Given site
    sources only, the mask is the pores whose number is among the sites.
    Given neither, it selects flood mode. *)
Theorem setup_source_selection net nb ty vol cs pe npts inv_faces inv_sites :
  well_formed net nb ty vol cs pe -> pe <> [] -> 0 <= npts ->
  exists s,
    __init__ net npts inv_faces inv_sites = (Return tt, s) /\
    (inv_faces = [] -> inv_sites = [] -> _OP s = 1 /\ _ALOP s = 0) /\
    (inv_faces <> [] ->
       _ALOP s = 1 /\ _OP s = 0 /\ _inv_src s = Some (np.in1d ty inv_faces)) /\
    (inv_faces = [] -> inv_sites <> [] ->
       _ALOP s = 1 /\ _OP s = 0 /\ _inv_src s = Some (np.in1d nb inv_sites)).
Proof.
  intros Hwf Hpe Hnpts.
  destruct (run_returns net nb ty vol cs pe npts inv_faces inv_sites Hwf Hpe Hnpts)
    as (_ & lo & hi & pts & _ & _ & _ & Hinit & _).
  eexists. split; [exact Hinit |]. split; [| split].
  - intros -> ->. split; reflexivity.
  - intros Hf.
    destruct (setup_state_not_flood inv_faces inv_sites nb ty cs pts (new_object net)
                (or_introl Hf)) as (H1 & H2 & H3).
    repeat split; try assumption. rewrite H3. destruct inv_faces; [congruence | reflexivity].
  - intros -> Hs.
    destruct (setup_state_not_flood [] inv_sites nb ty cs pts (new_object net)
                (or_intror Hs)) as (H1 & H2 & H3).
    repeat split; assumption.
Qed.

Lemma setup_source_selection_witness :
  exists s,
    __init__ net3 25 [0] [0] = (Return tt, s) /\
    ([0] = [] -> [0] = [] -> _OP s = 1 /\ _ALOP s = 0) /\
    ([0] <> [] ->
       _ALOP s = 1 /\ _OP s = 0 /\ _inv_src s = Some (np.in1d [0; 0; 0] [0])) /\
    ([0] = [] -> [0] <> [] ->
       _ALOP s = 1 /\ _OP s = 0 /\ _inv_src s = Some (np.in1d [0; 1; 2] [0])).
Proof.
  apply (setup_source_selection net3 [0; 1; 2] [0; 0; 0] [1%Q; 1%Q; 1%Q]
           [(1, 2); (0, 1)] [1%Q; 3%Q] 25 [0] [0]).
  - exact net3_well_formed.
  - discriminate.
  - lia.
Defined.

(** C2 (the code at the failing inputs): in flood mode the pore numbers
    collected from the open throats are compared with the cluster labels.
    [net3] has pores 0, 1, 2 and the throats (1,2) with entry pressure 1
    and (0,1) with entry pressure 3; with three pressure points the second
    applied pressure is 2, only throat (1,2) is open, pore 0 is an endpoint
    of no open throat, and yet the step marks all three pores.  [net5] has
    pores 0..4 and the throats (0,4) with entry pressure 1 and (1,2) with
    entry pressure 3; at the applied pressure 2 pore 0 is an endpoint of
    the open throat (0,4) and is not marked, while pore 3, which has no
    throat at all, is. *)
Lemma flood_mode_marks_by_cluster_label :
  (fst (__init__ net3 3 [] []) = Return tt /\
   _OP (snd (__init__ net3 3 [] [])) = 1 /\
   _inv_points (snd (__init__ net3 3 [] [])) = Some [2 # 2; 4 # 2; 3%Q] /\
   fst (_do_one_inner_iteration (4 # 2) (snd (__init__ net3 3 [] []))) = Return [1; 2; 2] /\
   invaded_this_step [1; 2; 2] 0 /\
   ~ open_endpoint [(1, 2); (0, 1)] [1%Q; 3%Q] (4 # 2) 0) /\
  (fst (__init__ net5 3 [] []) = Return tt /\
   _OP (snd (__init__ net5 3 [] [])) = 1 /\
   _inv_points (snd (__init__ net5 3 [] [])) = Some [2 # 2; 4 # 2; 3%Q] /\
   fst (_do_one_inner_iteration (4 # 2) (snd (__init__ net5 3 [] []))) =
     Return [0; 0; 0; 4; 0] /\
   ~ invaded_this_step [0; 0; 0; 4; 0] 0 /\
   open_endpoint [(0, 4); (1, 2)] [1%Q; 3%Q] (4 # 2) 0 /\
   invaded_this_step [0; 0; 0; 4; 0] 3 /\
   ~ open_endpoint [(0, 4); (1, 2)] [1%Q; 3%Q] (4 # 2) 3).
Proof.
  split.
  - repeat split; try (vm_compute; reflexivity).
    intros [r [H | H]]; destruct H as (t & e & Hc & He & Hlt);
      destruct t as [| [| t]]; simpl in Hc, He; try discriminate;
      inversion Hc; inversion He; subst; try lia;
      vm_compute in Hlt; discriminate.
  - repeat split; try (vm_compute; reflexivity).
    + unfold invaded_this_step. simpl. lia.
    + exists 4%nat. left. exists 0%nat, 1%Q. repeat split.
    + intros [r [H | H]]; destruct H as (t & e & Hc & He & Hlt);
        destruct t as [| [| t]]; simpl in Hc, He; try discriminate;
        inversion Hc; inversion He; subst; try lia;
        vm_compute in Hlt; discriminate.
Qed.

(** C3: in source mode, at any pressure step of the sweep (after any
    pressures [pre] already applied), the step at applied pressure [p]
    marks pore [q] iff a path of throats with entry pressure strictly
    below [p] joins [q] to a pore that matches the source definition; the
    empty path makes a source pore reach itself. *)
Theorem source_mode_marks_reached_components
    net nb ty vol cs pe npts inv_faces inv_sites pre p q :
  well_formed net nb ty vol cs pe -> pe <> [] -> 0 <= npts ->
  inv_faces <> [] \/ inv_sites <> [] -> (q < length nb)%nat ->
  exists s s1 inv_clusters s2,
    __init__ net npts inv_faces inv_sites = (Return tt, s) /\
    for_each pre outer_step s = (Return tt, s1) /\
    _do_one_inner_iteration p s1 = (Return inv_clusters, s2) /\
    length inv_clusters = length nb /\
    (invaded_this_step inv_clusters q <->
     exists r, is_source nb ty inv_faces inv_sites r /\ joined cs pe p q r).
Proof.
  intros Hwf Hpe Hnpts Hsrc Hq.
  destruct (run_returns net nb ty vol cs pe npts inv_faces inv_sites Hwf Hpe Hnpts)
    as (_ & lo & hi & pts & _ & _ & _ & Hinit & _).
  set (s := setup_state inv_faces inv_sites nb ty cs pts (new_object net)) in *.
  assert (Hsw : sweeping s nb ty vol cs pe (np.zeros (length nb)))
    by (apply sweeping_setup_state; exact Hwf).
  destruct (for_each_outer_step nb ty vol cs pe pre s _ Hsw) as (s1 & Hloop & Hsw1 & Hres).
  destruct Hsw1 as [Hwf1 Hmode1 _ _].
  exists s, s1, (inner_result s1 nb cs pe p), (inner_state (length nb) cs pe p s1).
  split; [exact Hinit |]. split; [exact Hloop |].
  split; [eapply inner_run; eassumption |].
  split; [apply length_inner_result; exact Hmode1 |].
  rewrite Hres.
  destruct (setup_state_not_flood inv_faces inv_sites nb ty cs pts (new_object net) Hsrc)
    as (H1 & _ & H3).
  fold s in H1, H3. unfold inner_result. rewrite H1, H3. simpl.
  destruct Hwf as [_ _ _ _ _ Hl1 _ Hl3 Hrange].
  rewrite source_marked; try assumption.
  - unfold is_source. destruct inv_faces as [| f l].
    + split; intros (r & Hr & Hj); exists r; (split; [| exact Hj]);
        apply lookup_in1d; exact Hr.
    + split; intros (r & Hr & Hj); exists r; (split; [| exact Hj]);
        apply lookup_in1d; exact Hr.
  - destruct inv_faces; unfold np.in1d; rewrite length_map; congruence.
Qed.

Lemma source_mode_marks_reached_components_witness :
  exists s s1 inv_clusters s2,
    __init__ net3 3 [] [0] = (Return tt, s) /\
    for_each [1%Q] outer_step s = (Return tt, s1) /\
    _do_one_inner_iteration 2 s1 = (Return inv_clusters, s2) /\
    length inv_clusters = length [0; 1; 2] /\
    (invaded_this_step inv_clusters 0%nat <->
     exists r, is_source [0; 1; 2] [0; 0; 0] [] [0] r /\
               joined [(1, 2); (0, 1)] [1%Q; 3%Q] 2 0%nat r).
Proof.
  apply (source_mode_marks_reached_components net3 [0; 1; 2] [0; 0; 0]
           [1%Q; 1%Q; 1%Q] [(1, 2); (0, 1)] [1%Q; 3%Q] 3 [] [0] [1%Q] 2 0%nat).
  - exact net3_well_formed.
  - discriminate.
  - lia.
  - right. discriminate.
  - simpl. lia.
Defined.

(** ** The Invasion Record *)

Lemma lookup_step_record p rec inv (q : nat) (r : Q) :
  length inv = length rec -> rec !! q = Some r ->
  step_record p rec inv !! q =
  Some (if Qeq_bool r 0 && (0 <? nth q inv 0) then p else r).
Proof.
  intros Hlen Hq. unfold step_record. rewrite lookup_zip_with, Hq. simpl.
  destruct (nth_lookup_or_length inv q 0) as [Hs | Hge].
  - rewrite Hs. reflexivity.
  - apply lookup_lt_Some in Hq. lia.
Qed.

(** An entry that is not the sentinel survives any number of steps. *)
Lemma sweep_record_keeps inv pts (q : nat) (r : Q) : forall rec,
  (forall p, length (inv p) = length rec) ->
  rec !! q = Some r -> ~ (r == 0)%Q ->
  sweep_record inv pts rec !! q = Some r.
Proof.
  induction pts as [| p pts IH]; intros rec Hlen Hq Hr; simpl; [exact Hq |].
  assert (Hl : length (inv p) = length rec) by apply Hlen.
  apply IH.
  - intros p'. rewrite length_step_record by exact Hl. apply Hlen.
  - rewrite (lookup_step_record p rec (inv p) q r Hl Hq).
    destruct (Qeq_bool r 0) eqn:E; [| reflexivity].
    apply Qeq_bool_iff in E. contradiction.
  - exact Hr.
Qed.

Lemma for_each_app {A} (body : A -> M unit) (l1 l2 : list A) s s1 :
  for_each l1 body s = (Return tt, s1) ->
  for_each (l1 ++ l2) body s = for_each l2 body s1.
Proof.
  revert s. induction l1 as [| x l1 IH]; intros s H; simpl in *.
  - inversion H; subst. reflexivity.
  - unfold bind in *. destruct (body x s) as [[[] | e] s'].
    + apply IH. exact H.
    + discriminate.
Qed.

(** One pressure step and the steps after it, for the record. *)
Lemma invasion_record_step s nb ty vol cs pe rec p :
  sweeping s nb ty vol cs pe rec ->
  exists inv_clusters s0 s1 rec1,
    sweeping s1 nb ty vol cs pe rec1 /\
    _do_one_inner_iteration p s = (Return inv_clusters, s0) /\
    outer_step p s = (Return tt, s1) /\
    pore_record s1 = Some (AFloat rec1) /\
    length rec1 = length rec /\
    (forall (q : nat) (r : Q), rec !! q = Some r ->
       ((r == 0)%Q /\ invaded_this_step inv_clusters q -> rec1 !! q = Some p) /\
       (~ ((r == 0)%Q /\ invaded_this_step inv_clusters q) -> rec1 !! q = Some r)) /\
    (forall pts, exists s2 rec2,
       for_each pts outer_step s1 = (Return tt, s2) /\
       pore_record s2 = Some (AFloat rec2) /\
       (forall (q : nat) (r : Q), rec1 !! q = Some r -> ~ (r == 0)%Q -> rec2 !! q = Some r)).
Proof.
  intros Hsw.
  pose proof Hsw as [Hwf Hmode Hrec Hlen].
  destruct (outer_step_run s nb ty vol cs pe rec p Hsw) as [Hstep Hsw1].
  set (inv := inner_result s nb cs pe p) in *.
  set (rec1 := step_record p rec inv) in *.
  set (s1 := outer_state (length nb) cs pe p rec1 s) in *.
  assert (Hinv : length inv = length rec).
  { unfold inv. rewrite length_inner_result by exact Hmode. congruence. }
  exists inv, (inner_state (length nb) cs pe p s), s1, rec1.
  split; [exact Hsw1 |].
  split; [eapply inner_run; eassumption |].
  split; [exact Hstep |].
  split; [apply Hsw1 |].
  split; [apply length_step_record; exact Hinv |].
  split.
  - intros q r Hq. unfold rec1. rewrite (lookup_step_record p rec inv q r Hinv Hq).
    unfold invaded_this_step.
    destruct (Qeq_bool r 0) eqn:E; destruct (Z.ltb_spec 0 (nth q inv 0)); simpl.
    + split; [reflexivity |]. intros Hn. exfalso. apply Hn.
      split; [apply Qeq_bool_iff; exact E | assumption].
    + split; [intros [_ Hc]; lia | reflexivity].
    + split; [| reflexivity]. intros [Hz _]. apply Qeq_bool_iff in Hz. congruence.
    + split; [intros [_ Hc]; lia | reflexivity].
  - intros pts.
    destruct (for_each_outer_step nb ty vol cs pe pts s1 rec1 Hsw1) as (s2 & Hloop & Hsw2 & _).
    exists s2, (sweep_record (inner_result s1 nb cs pe) pts rec1).
    split; [exact Hloop |]. split; [apply Hsw2 |].
    intros q r Hq Hr. apply sweep_record_keeps; try assumption.
    intros p'. rewrite length_inner_result by apply Hsw1.
    unfold rec1. rewrite length_step_record by exact Hinv.
    congruence.
Qed.

(** C4 (as stated, refuted): [net_zero] with the source site 0 and two
    pressure points has the schedule 0, 2.  At the first step pore 0 is
    invaded-this-step and at the sentinel, so its record is set to the
    applied pressure, 0; at the second step the record of pore 0 changes
    to 2. *)
Lemma record_set_at_zero_changes_later :
  let s := snd (__init__ net_zero 2 [] [0]) in
  let s1 := snd (outer_step 0%Q s) in
  let s2 := snd (for_each [2%Q] outer_step s1) in
  _inv_points s = Some [0%Q; 2%Q] /\
  pore_record s = Some (AFloat [0%Q; 0%Q]) /\
  fst (_do_one_inner_iteration 0%Q s) = Return [1; 0] /\
  invaded_this_step [1; 0] 0 /\
  pore_record s1 = Some (AFloat [0%Q; 0%Q]) /\
  pore_record s2 = Some (AFloat [2%Q; 2%Q]) /\
  pore_record (snd (run net_zero 2 [] [0])) = Some (AFloat [2%Q; 2%Q]) /\
  ~ (2 == 0)%Q.
Proof.
  repeat split; try (vm_compute; reflexivity).
  intros H. vm_compute in H. discriminate.
Qed.

(** C4 (amended): one pressure step sets the record to the applied
    pressure exactly at the pores that are invaded-this-step and still at
    the sentinel 0, and leaves every other entry as it is; an entry that is
    not 0 is never changed by any later step. *)
Theorem invasion_record_write_once_when_nonzero s nb ty vol cs pe rec p pts :
  sweeping s nb ty vol cs pe rec ->
  exists inv_clusters s0 s1 rec1 s2 rec2,
    _do_one_inner_iteration p s = (Return inv_clusters, s0) /\
    outer_step p s = (Return tt, s1) /\
    pore_record s1 = Some (AFloat rec1) /\
    length rec1 = length rec /\
    (forall (q : nat) (r : Q), rec !! q = Some r ->
       ((r == 0)%Q /\ invaded_this_step inv_clusters q -> rec1 !! q = Some p) /\
       (~ ((r == 0)%Q /\ invaded_this_step inv_clusters q) -> rec1 !! q = Some r)) /\
    for_each pts outer_step s1 = (Return tt, s2) /\
    pore_record s2 = Some (AFloat rec2) /\
    (forall (q : nat) (r : Q), rec1 !! q = Some r -> ~ (r == 0)%Q -> rec2 !! q = Some r).
Proof.
  intros Hsw.
  destruct (invasion_record_step s nb ty vol cs pe rec p Hsw)
    as (inv & s0 & s1 & rec1 & _ & Hinner & Hstep & Hrec1 & Hlen & Hset & Hkeep).
  destruct (Hkeep pts) as (s2 & rec2 & Hloop & Hrec2 & Hkeep2).
  exists inv, s0, s1, rec1, s2, rec2. repeat (split; [assumption |]). assumption.
Qed.

Lemma net_zero_well_formed :
  well_formed net_zero [0; 1] [0; 0] [1%Q; 1%Q] [(0, 1); (0, 1)] [0%Q; 2%Q].
Proof. split; vm_compute; reflexivity. Qed.

Lemma net_zero_sweeping :
  sweeping (snd (__init__ net_zero 2 [] [0])) [0; 1] [0; 0] [1%Q; 1%Q]
    [(0, 1); (0, 1)] [0%Q; 2%Q] [0%Q; 0%Q].
Proof.
  destruct (run_returns net_zero _ _ _ _ _ 2 [] [0] net_zero_well_formed
              ltac:(discriminate) ltac:(lia)) as (_ & lo & hi & pts & _ & _ & _ & Hinit & _).
  rewrite Hinit. simpl snd.
  apply (sweeping_setup_state (new_object net_zero) _ _ _ _ _ [] [0] pts net_zero_well_formed).
Qed.

Lemma invasion_record_write_once_when_nonzero_witness :
  exists inv_clusters s0 s1 rec1 s2 rec2,
    _do_one_inner_iteration 2 (snd (__init__ net_zero 2 [] [0])) = (Return inv_clusters, s0) /\
    outer_step 2 (snd (__init__ net_zero 2 [] [0])) = (Return tt, s1) /\
    pore_record s1 = Some (AFloat rec1) /\
    length rec1 = length [0%Q; 0%Q] /\
    (forall (q : nat) (r : Q), [0%Q; 0%Q] !! q = Some r ->
       ((r == 0)%Q /\ invaded_this_step inv_clusters q -> rec1 !! q = Some 2%Q) /\
       (~ ((r == 0)%Q /\ invaded_this_step inv_clusters q) -> rec1 !! q = Some r)) /\
    for_each [2%Q] outer_step s1 = (Return tt, s2) /\
    pore_record s2 = Some (AFloat rec2) /\
    (forall (q : nat) (r : Q), rec1 !! q = Some r -> ~ (r == 0)%Q -> rec2 !! q = Some r).
Proof.
  apply (invasion_record_write_once_when_nonzero (snd (__init__ net_zero 2 [] [0]))
           [0; 1] [0; 0] [1%Q; 1%Q] [(0, 1); (0, 1)] [0%Q; 2%Q] [0%Q; 0%Q] 2 [2%Q]).
  exact net_zero_sweeping.
Defined.

(** C10: the sentinel is the number 0.  (a) A step whose applied pressure
    is 0 leaves every entry of the record numerically as it was: a pore
    that the step sets is still at the sentinel.  (b) The next step at
    which such a pore is invaded-this-step overwrites its record; in the
    run of [net_zero] from source site 0 (schedule 0, 2) pore 0 is set at
    pressure 0 and its record ends at 2.  (c) When every applied pressure
    of the schedule is nonzero, a pore set at one step of the schedule
    holds that step's pressure at the end of the sweep. *)
Theorem sentinel_zero_limits_write_once s nb ty vol cs pe rec :
  sweeping s nb ty vol cs pe rec ->
  (forall p, (p == 0)%Q ->
     exists s1 rec1,
       outer_step p s = (Return tt, s1) /\ pore_record s1 = Some (AFloat rec1) /\
       forall (q : nat) (r : Q), rec !! q = Some r ->
         exists r1, rec1 !! q = Some r1 /\ (r1 == r)%Q) /\
  (forall p p', (p == 0)%Q ->
     exists s1 inv_clusters s1' s2 rec2,
       outer_step p s = (Return tt, s1) /\
       _do_one_inner_iteration p' s1 = (Return inv_clusters, s1') /\
       outer_step p' s1 = (Return tt, s2) /\ pore_record s2 = Some (AFloat rec2) /\
       forall (q : nat) (r : Q), rec !! q = Some r -> (r == 0)%Q ->
         invaded_this_step inv_clusters q -> rec2 !! q = Some p') /\
  (_inv_points (snd (__init__ net_zero 2 [] [0])) = Some [0%Q; 2%Q] /\
   fst (_do_one_inner_iteration 0%Q (snd (__init__ net_zero 2 [] [0]))) = Return [1; 0] /\
   pore_record (snd (outer_step 0%Q (snd (__init__ net_zero 2 [] [0])))) =
     Some (AFloat [0%Q; 0%Q]) /\
   pore_record (snd (run net_zero 2 [] [0])) = Some (AFloat [2%Q; 2%Q])) /\
  (forall pre p post, Forall (fun x => ~ (x == 0)%Q) (pre ++ p :: post) ->
     exists s1 rec1 inv_clusters s1' s2 s3 rec3,
       for_each pre outer_step s = (Return tt, s1) /\
       pore_record s1 = Some (AFloat rec1) /\
       _do_one_inner_iteration p s1 = (Return inv_clusters, s1') /\
       outer_step p s1 = (Return tt, s2) /\
       for_each post outer_step s2 = (Return tt, s3) /\
       for_each (pre ++ p :: post) outer_step s = (Return tt, s3) /\
       pore_record s3 = Some (AFloat rec3) /\
       forall (q : nat) (r : Q), rec1 !! q = Some r -> (r == 0)%Q ->
         invaded_this_step inv_clusters q -> rec3 !! q = Some p).
Proof.
  intros Hsw. split; [| split; [| split]].
  - intros p Hp.
    destruct (invasion_record_step s nb ty vol cs pe rec p Hsw)
      as (inv & s0 & s1 & rec1 & _ & _ & Hstep & Hrec1 & _ & Hset & _).
    exists s1, rec1. split; [exact Hstep |]. split; [exact Hrec1 |].
    intros q r Hq. destruct (Hset q r Hq) as [Hyes Hno].
    destruct (Qeq_dec r 0) as [Hz | Hnz].
    + destruct (Z_lt_dec 0 (nth q inv 0)) as [Hm | Hm].
      * exists p. split; [apply Hyes; split; assumption |].
        rewrite Hp, Hz. reflexivity.
      * exists r. split; [apply Hno; intros [_ Hc]; contradiction | reflexivity].
    + exists r. split; [apply Hno; intros [Hc _]; contradiction | reflexivity].
  - intros p p' Hp.
    destruct (invasion_record_step s nb ty vol cs pe rec p Hsw)
      as (inv & s0 & s1 & rec1 & Hsw1 & _ & Hstep & Hrec1 & _ & Hset & _).
    destruct (invasion_record_step s1 nb ty vol cs pe rec1 p' Hsw1)
      as (inv' & s1' & s2 & rec2 & _ & Hinner' & Hstep' & Hrec2 & _ & Hset' & _).
    exists s1, inv', s1', s2, rec2.
    repeat (split; [assumption |]).
    intros q r Hq Hz Hmark.
    assert (Hq1 : exists r1, rec1 !! q = Some r1 /\ (r1 == 0)%Q).
    { destruct (Hset q r Hq) as [Hyes Hno].
      destruct (Z_lt_dec 0 (nth q inv 0)) as [Hm | Hm].
      - exists p. split; [apply Hyes; split; assumption | exact Hp].
      - exists r. split; [apply Hno; intros [_ Hc]; contradiction | exact Hz]. }
    destruct Hq1 as (r1 & Hr1 & Hz1).
    apply (Hset' q r1 Hr1). split; assumption.
  - repeat split; vm_compute; reflexivity.
  - intros pre p post Hall.
    destruct (for_each_outer_step nb ty vol cs pe pre s rec Hsw) as (s1 & Hpre & Hsw1 & _).
    set (rec1 := sweep_record (inner_result s nb cs pe) pre rec) in *.
    destruct (invasion_record_step s1 nb ty vol cs pe rec1 p Hsw1)
      as (inv & s1' & s2 & rec2 & Hsw2 & Hinner & Hstep & Hrec2 & _ & Hset & Hkeep).
    destruct (Hkeep post) as (s3 & rec3 & Hpost & Hrec3 & Hkeep3).
    exists s1, rec1, inv, s1', s2, s3, rec3.
    split; [exact Hpre |]. split; [apply Hsw1 |]. split; [exact Hinner |].
    split; [exact Hstep |]. split; [exact Hpost |]. split; [| split; [exact Hrec3 |]].
    + rewrite (for_each_app outer_step pre (p :: post) s s1 Hpre).
      simpl. unfold bind. rewrite Hstep. exact Hpost.
    + intros q r Hq Hz Hmark. apply Hkeep3.
      * apply (Hset q r Hq). split; assumption.
      * apply Forall_app in Hall. destruct Hall as [_ Hall].
        inversion Hall; subst. assumption.
Qed.
Lemma sentinel_zero_limits_write_once_witness :
  (forall p, (p == 0)%Q ->
     exists s1 rec1,
       outer_step p (snd (__init__ net_zero 2 [] [0])) = (Return tt, s1) /\ pore_record s1 = Some (AFloat rec1) /\
       forall (q : nat) (r : Q), [0%Q; 0%Q] !! q = Some r ->
         exists r1, rec1 !! q = Some r1 /\ (r1 == r)%Q) /\
  (forall p p', (p == 0)%Q ->
     exists s1 inv_clusters s1' s2 rec2,
       outer_step p (snd (__init__ net_zero 2 [] [0])) = (Return tt, s1) /\
       _do_one_inner_iteration p' s1 = (Return inv_clusters, s1') /\
       outer_step p' s1 = (Return tt, s2) /\ pore_record s2 = Some (AFloat rec2) /\
       forall (q : nat) (r : Q), [0%Q; 0%Q] !! q = Some r -> (r == 0)%Q ->
         invaded_this_step inv_clusters q -> rec2 !! q = Some p') /\
  (_inv_points (snd (__init__ net_zero 2 [] [0])) = Some [0%Q; 2%Q] /\
   fst (_do_one_inner_iteration 0%Q (snd (__init__ net_zero 2 [] [0]))) = Return [1; 0] /\
   pore_record (snd (outer_step 0%Q (snd (__init__ net_zero 2 [] [0])))) =
     Some (AFloat [0%Q; 0%Q]) /\
   pore_record (snd (run net_zero 2 [] [0])) = Some (AFloat [2%Q; 2%Q])) /\
  (forall pre p post, Forall (fun x => ~ (x == 0)%Q) (pre ++ p :: post) ->
     exists s1 rec1 inv_clusters s1' s2 s3 rec3,
       for_each pre outer_step (snd (__init__ net_zero 2 [] [0])) = (Return tt, s1) /\
       pore_record s1 = Some (AFloat rec1) /\
       _do_one_inner_iteration p s1 = (Return inv_clusters, s1') /\
       outer_step p s1 = (Return tt, s2) /\
       for_each post outer_step s2 = (Return tt, s3) /\
       for_each (pre ++ p :: post) outer_step (snd (__init__ net_zero 2 [] [0])) = (Return tt, s3) /\
       pore_record s3 = Some (AFloat rec3) /\
       forall (q : nat) (r : Q), rec1 !! q = Some r -> (r == 0)%Q ->
         invaded_this_step inv_clusters q -> rec3 !! q = Some p).
Proof.
  apply (sentinel_zero_limits_write_once (snd (__init__ net_zero 2 [] [0]))
           [0; 1] [0; 0] [1%Q; 1%Q] [(0, 1); (0, 1)] [0%Q; 2%Q] [0%Q; 0%Q]).
  exact net_zero_sweeping.
Defined.

(** ** The schedule of the run *)

Lemma step_nonneg (lo hi : Q) (num : Z) :
  (lo <= hi)%Q -> 2 <= num -> (0 <= (hi - lo) / inject_Z (num - 1))%Q.
Proof.
  intros Hle Hnum. unfold Qdiv. apply Qmult_le_0_compat.
  - lra.
  - apply Qinv_le_0_compat. unfold Qle. simpl. lia.
Qed.

Lemma inject_succ (i : nat) :
  (inject_Z (Z.of_nat (S i)) == inject_Z (Z.of_nat i) + 1)%Q.
Proof.
  rewrite Nat2Z.inj_succ. unfold Z.succ. rewrite inject_Z_plus. reflexivity.
Qed.

(** C5 (as stated, refuted): with one pressure point the schedule of
    [net3] (entry pressures 1 and 3) is the single value 1; it does not
    reach the maximum entry pressure 3. *)
Lemma one_point_schedule_misses_maximum :
  fst (__init__ net3 1 [] []) = Return tt /\
  _inv_points (snd (__init__ net3 1 [] [])) = Some [1%Q] /\
  np.max [1%Q; 3%Q] = Return 3%Q /\
  ~ (1 == 3)%Q.
Proof.
  repeat split; try (vm_compute; reflexivity).
  intros H. vm_compute in H. discriminate.
Qed.

(** C5 (amended): on a network with at least one throat and with
    [npts >= 2], [_setup] returns and the schedule has exactly [npts]
    values, the i-th being [lo + i * (hi - lo) / (npts - 1)] for the least
    entry pressure [lo] and the greatest [hi]; the last one is [hi], and
    the schedule is non-decreasing.  When all throats share one entry
    pressure every value of the schedule equals it, and the run returns. *)
Theorem pressure_schedule_evenly_spaced net nb ty vol cs pe npts inv_faces inv_sites :
  well_formed net nb ty vol cs pe -> pe <> [] -> 2 <= npts ->
  exists s lo hi pts,
    __init__ net npts inv_faces inv_sites = (Return tt, s) /\
    _inv_points s = Some pts /\
    In lo pe /\ In hi pe /\ (forall x, In x pe -> (lo <= x)%Q /\ (x <= hi)%Q) /\
    length pts = Z.to_nat npts /\
    (forall i : nat, (i < Z.to_nat npts)%nat ->
       exists v, pts !! i = Some v /\
         (v == lo + inject_Z (Z.of_nat i) * ((hi - lo) / inject_Z (npts - 1)))%Q) /\
    pts !! (Z.to_nat npts - 1)%nat = Some hi /\
    (forall (i : nat) (a b : Q),
       pts !! i = Some a -> pts !! (S i) = Some b -> (a <= b)%Q) /\
    ((forall x, In x pe -> (x == lo)%Q) ->
       (forall v, In v pts -> (v == lo)%Q) /\
       fst (run net npts inv_faces inv_sites) = Return tt).
Proof.
  intros Hwf Hpe Hnpts.
  destruct (min_spec pe Hpe) as (lo & Hlo & Hlo_in & Hlo_le).
  destruct (max_spec pe Hpe) as (hi & Hhi & Hhi_in & Hhi_le).
  destruct (linspace_spec lo hi npts Hnpts) as (pts & Hlin & Hlen & Hith & Hlast).
  destruct (run_returns net nb ty vol cs pe npts inv_faces inv_sites Hwf Hpe ltac:(lia))
    as (s' & lo' & hi' & pts' & Hlo' & Hhi' & Hlin' & Hinit & Hrun & _).
  rewrite Hlo in Hlo'. inversion Hlo'; subst lo'.
  rewrite Hhi in Hhi'. inversion Hhi'; subst hi'.
  rewrite Hlin in Hlin'. inversion Hlin'; subst pts'.
  assert (Hlohi : (lo <= hi)%Q) by (apply Hlo_le; exact Hhi_in).
  pose proof (step_nonneg lo hi npts Hlohi Hnpts) as Hstep.
  exists (setup_state inv_faces inv_sites nb ty cs pts (new_object net)), lo, hi, pts.
  split; [exact Hinit |]. split; [reflexivity |].
  split; [exact Hlo_in |]. split; [exact Hhi_in |].
  split; [intros x Hx; split; [apply Hlo_le | apply Hhi_le]; exact Hx |].
  split; [exact Hlen |]. split; [exact Hith |]. split; [exact Hlast |].
  split.
  - intros i a b Ha Hb.
    assert (Hi : (S i < Z.to_nat npts)%nat) by (apply lookup_lt_Some in Hb; lia).
    destruct (Hith i ltac:(lia)) as (a' & Ha' & Hea).
    destruct (Hith (S i) Hi) as (b' & Hb' & Heb).
    rewrite Ha in Ha'. inversion Ha'; subst a'.
    rewrite Hb in Hb'. inversion Hb'; subst b'.
    rewrite Hea, Heb, inject_succ.
    set (c := ((hi - lo) / inject_Z (npts - 1))%Q) in *.
    set (x := inject_Z (Z.of_nat i)).
    assert (Heq : (lo + (x + 1) * c == lo + x * c + c)%Q) by ring.
    rewrite Heq. lra.
  - intros Hall. split.
    + intros v Hv. apply list_elem_of_In, list_elem_of_lookup in Hv.
      destruct Hv as [i Hi].
      destruct (Hith i ltac:(apply lookup_lt_Some in Hi; lia)) as (v' & Hv' & Hev).
      rewrite Hi in Hv'. inversion Hv'; subst v'.
      rewrite Hev. rewrite (Hall hi Hhi_in).
      assert (H0 : (lo - lo == 0)%Q) by ring.
      unfold Qdiv. rewrite H0. ring.
    + rewrite Hrun. reflexivity.
Qed.

Lemma pressure_schedule_evenly_spaced_witness :
  exists s lo hi pts,
    __init__ net3 3 [] [0] = (Return tt, s) /\
    _inv_points s = Some pts /\
    In lo [1%Q; 3%Q] /\ In hi [1%Q; 3%Q] /\
    (forall x, In x [1%Q; 3%Q] -> (lo <= x)%Q /\ (x <= hi)%Q) /\
    length pts = Z.to_nat 3 /\
    (forall i : nat, (i < Z.to_nat 3)%nat ->
       exists v, pts !! i = Some v /\
         (v == lo + inject_Z (Z.of_nat i) * ((hi - lo) / inject_Z (3 - 1)))%Q) /\
    pts !! (Z.to_nat 3 - 1)%nat = Some hi /\
    (forall (i : nat) (a b : Q),
       pts !! i = Some a -> pts !! (S i) = Some b -> (a <= b)%Q) /\
    ((forall x, In x [1%Q; 3%Q] -> (x == lo)%Q) ->
       (forall v, In v pts -> (v == lo)%Q) /\
       fst (run net3 3 [] [0]) = Return tt).
Proof.
  apply (pressure_schedule_evenly_spaced net3 [0; 1; 2] [0; 0; 0] [1%Q; 1%Q; 1%Q]
           [(1, 2); (0, 1)] [1%Q; 3%Q] 3 [] [0]).
  - exact net3_well_formed.
  - discriminate.
  - lia.
Defined.

(** ** Failures of the setup *)

Lemma net_no_throats_well_formed :
  well_formed net_no_throats [0; 1] [0; 0] [1%Q; 1%Q] [] [].
Proof. split; vm_compute; reflexivity. Qed.

(** C6 (as stated, refuted): with zero pressure points the setup of
    [net3] returns normally, with an empty schedule, and so does the run,
    which leaves every pore at the sentinel. *)
Lemma setup_accepts_zero_points :
  fst (__init__ net3 0 [] []) = Return tt /\
  _inv_points (snd (__init__ net3 0 [] [])) = Some [] /\
  fst (run net3 0 [] []) = Return tt /\
  pore_record (snd (run net3 0 [] [])) = Some (AFloat [0%Q; 0%Q; 0%Q]).
Proof. repeat split; vm_compute; reflexivity. Qed.

(** C6 (amended): on a network without throats [_setup] fails, whatever
    its arguments, with the ValueError of [np.min]; this happens before any
    schedule exists, and the record then holds the sentinel for every
    pore.  With zero pressure points on a network with throats nothing
    fails: the schedule is empty and the run returns with every pore at the
    sentinel. *)
Theorem setup_fails_without_throats_only net nb ty vol cs pe inv_faces inv_sites :
  well_formed net nb ty vol cs pe ->
  (pe = [] ->
   forall npts, exists s,
     __init__ net npts inv_faces inv_sites = (Raise ValueError, s) /\
     run net npts inv_faces inv_sites = (Raise ValueError, s) /\
     _inv_points s = None /\
     pore_record s = Some (AFloat (np.zeros (length nb)))) /\
  (pe <> [] ->
   exists s s',
     __init__ net 0 inv_faces inv_sites = (Return tt, s) /\
     _inv_points s = Some [] /\
     run net 0 inv_faces inv_sites = (Return tt, s') /\
     pore_record s' = Some (AFloat (np.zeros (length nb)))).
Proof.
  intros Hwf. split.
  - intros -> npts.
    assert (Hcs : cs = []).
    { destruct Hwf as [_ _ _ _ _ _ _ Hl _]. destruct cs; [reflexivity | discriminate]. }
    subst cs.
    destruct (setup_no_throats (new_object net) nb ty vol npts inv_faces inv_sites Hwf)
      as (s & Hset & Hrec & Hpts).
    exists s. split; [exact Hset |]. split; [| split; [exact Hpts | exact Hrec]].
    unfold run, bind. rewrite Hset. reflexivity.
  - intros Hpe.
    destruct (run_returns net nb ty vol cs pe 0 inv_faces inv_sites Hwf Hpe ltac:(lia))
      as (s' & lo & hi & pts & _ & _ & Hlin & Hinit & Hrun & Hrec & _).
    unfold np.linspace in Hlin. simpl in Hlin. inversion Hlin; subst pts.
    eexists. exists s'. split; [exact Hinit |]. split; [reflexivity |].
    split; [exact Hrun |]. exact Hrec.
Qed.

Lemma setup_fails_without_throats_only_witness :
  (exists s,
     __init__ net_no_throats 25 [] [] = (Raise ValueError, s) /\
     run net_no_throats 25 [] [] = (Raise ValueError, s) /\
     _inv_points s = None /\
     pore_record s = Some (AFloat (np.zeros (length [0; 1])))) /\
  (exists s s',
     __init__ net3 0 [] [] = (Return tt, s) /\
     _inv_points s = Some [] /\
     run net3 0 [] [] = (Return tt, s') /\
     pore_record s' = Some (AFloat (np.zeros (length [0; 1; 2])))).
Proof.
  split.
  - apply (proj1 (setup_fails_without_throats_only net_no_throats [0; 1] [0; 0]
                    [1%Q; 1%Q] [] [] [] [] net_no_throats_well_formed)).
    reflexivity.
  - apply (proj2 (setup_fails_without_throats_only net3 [0; 1; 2] [0; 0; 0]
                    [1%Q; 1%Q; 1%Q] [(1, 2); (0, 1)] [1%Q; 3%Q] [] [] net3_well_formed)).
    discriminate.
Defined.

(** ** What the run writes to the network *)

Section Frame.

Lemma network_frame_refl n : network_frame n n.
Proof. split; intros; reflexivity. Qed.

Lemma network_frame_trans n1 n2 n3 :
  network_frame n1 n2 -> network_frame n2 n3 -> network_frame n1 n3.
Proof.
  intros [Hp1 Ht1] [Hp2 Ht2]. split.
  - intros k Hk. rewrite Hp2, Hp1 by assumption. reflexivity.
  - intros k Hk Hk'. rewrite Ht2, Ht1 by assumption. reflexivity.
Qed.

Lemma preserves_bind {A B} (m : M A) (f : A -> M B) :
  preserves m -> (forall a, preserves (f a)) -> preserves (bind m f).
Proof.
  intros Hm Hf s. unfold bind. specialize (Hm s).
  destruct (m s) as [[a | e] s1]; simpl in *.
  - eapply network_frame_trans; [exact Hm | apply Hf].
  - exact Hm.
Qed.

Lemma preserves_ret {A} (a : A) : preserves (ret a).
Proof. intros s. apply network_frame_refl. Qed.

Lemma preserves_raise {A} (e : exn) : preserves (@raise A e).
Proof. intros s. apply network_frame_refl. Qed.

Lemma preserves_lift {A} (o : outcome A) : preserves (lift o).
Proof. intros s. apply network_frame_refl. Qed.

Lemma preserves_get {A} (f : OrdinaryPercolationAlgorithm -> A) : preserves (get f).
Proof. intros s. apply network_frame_refl. Qed.

Lemma preserves_get_attr {A} (f : OrdinaryPercolationAlgorithm -> option A) :
  preserves (get_attr f).
Proof.
  intros s. unfold get_attr. destruct (f s); apply network_frame_refl.
Qed.

Lemma preserves_pore_prop key : preserves (pore_prop key).
Proof.
  intros s. unfold pore_prop.
  destruct (pore_properties (_net s) !! key); apply network_frame_refl.
Qed.

Lemma preserves_throat_prop key : preserves (throat_prop key).
Proof.
  intros s. unfold throat_prop.
  destruct (throat_properties (_net s) !! key); apply network_frame_refl.
Qed.

Lemma preserves_set_OP v : preserves (set_OP v).
Proof. intros s. apply network_frame_refl. Qed.

Lemma preserves_set_ALOP v : preserves (set_ALOP v).
Proof. intros s. apply network_frame_refl. Qed.

Lemma preserves_set_inv_src v : preserves (set_inv_src v).
Proof. intros s. apply network_frame_refl. Qed.

Lemma preserves_set_inv_points v : preserves (set_inv_points v).
Proof. intros s. apply network_frame_refl. Qed.

Lemma preserves_set_adjmatrix_csr a : preserves (set_adjmatrix_csr a).
Proof. intros s. split; intros; reflexivity. Qed.

Lemma preserves_set_Pc_invaded a : preserves (set_pore_prop "Pc_invaded" a).
Proof.
  intros s. split; cbn.
  - intros k Hk. apply lookup_insert_ne. congruence.
  - intros; reflexivity.
Qed.

Lemma preserves_set_throat_Pc_invaded a : preserves (set_throat_prop "Pc_invaded" a).
Proof.
  intros s. split; cbn.
  - intros; reflexivity.
  - intros k Hk _. apply lookup_insert_ne. congruence.
Qed.

Lemma preserves_set_invaded a : preserves (set_throat_prop "invaded" a).
Proof.
  intros s. split; cbn.
  - intros; reflexivity.
  - intros k _ Hk. apply lookup_insert_ne. congruence.
Qed.

Lemma preserves_del_invaded : preserves (del_throat_prop "invaded").
Proof.
  intros s. unfold del_throat_prop.
  destruct (throat_properties (_net s) !! "invaded"); [| apply network_frame_refl].
  split; cbn.
  - intros; reflexivity.
  - intros k _ Hk. apply lookup_delete_ne. congruence.
Qed.

Lemma preserves_for_each {A} (l : list A) (body : A -> M unit) :
  (forall x, preserves (body x)) -> preserves (for_each l body).
Proof.
  intros Hbody. induction l as [| x l IH]; simpl.
  - apply preserves_ret.
  - apply preserves_bind; [apply Hbody | intros _; exact IH].
Qed.

End Frame.

Ltac frame_step :=
  first
    [ apply preserves_ret | apply preserves_raise | apply preserves_lift
    | apply preserves_get | apply preserves_get_attr
    | apply preserves_pore_prop | apply preserves_throat_prop
    | apply preserves_set_OP | apply preserves_set_ALOP
    | apply preserves_set_inv_src | apply preserves_set_inv_points
    | apply preserves_set_adjmatrix_csr | apply preserves_set_Pc_invaded
    | apply preserves_set_throat_Pc_invaded | apply preserves_set_invaded
    | apply preserves_del_invaded
    | apply preserves_bind; [| intros ?]
    | match goal with
      | |- preserves (if ?b then _ else _) => destruct b
      end ].

Lemma preserves_setup npts inv_faces inv_sites :
  preserves (_setup npts inv_faces inv_sites).
Proof.
  unfold _setup, get_num_pores, get_num_throats. repeat frame_step.
Qed.

Lemma preserves_create_adjacency_matrix : preserves (create_adjacency_matrix "invaded").
Proof.
  unfold create_adjacency_matrix, get_num_pores. repeat frame_step.
Qed.

Lemma preserves_inner inv_val : preserves (_do_one_inner_iteration inv_val).
Proof.
  unfold _do_one_inner_iteration.
  repeat first [frame_step | apply preserves_create_adjacency_matrix].
Qed.

Lemma preserves_outer_step inv_val : preserves (outer_step inv_val).
Proof.
  unfold outer_step. repeat first [frame_step | apply preserves_inner].
Qed.

Lemma preserves_stage : preserves _do_outer_iteration_stage.
Proof.
  unfold _do_outer_iteration_stage.
  repeat first [frame_step | apply preserves_for_each; intros ?; apply preserves_outer_step].
Qed.

(** C9 (as stated, refuted): after the run on [net3] the network is not
    the one the run was given: the record is stored in its pore
    properties, and arrays of zeros in its throat properties. *)
Lemma run_writes_to_the_network :
  _net (snd (run net3 3 [] [0])) <> net3 /\
  pore_properties net3 !! "Pc_invaded" = None /\
  pore_properties (_net (snd (run net3 3 [] [0]))) !! "Pc_invaded" =
    Some (AFloat [2 # 2; 0%Q; 0%Q]) /\
  throat_properties net3 !! "Pc_invaded" = None /\
  throat_properties (_net (snd (run net3 3 [] [0]))) !! "Pc_invaded" =
    Some (AFloat [0%Q; 0%Q]).
Proof.
  split; [| repeat split; vm_compute; reflexivity].
  intros H. apply (f_equal (fun n => pore_properties n !! "Pc_invaded")) in H.
  vm_compute in H. discriminate.
Qed.

(** C9 (amended): setup and sweep write to the network, but only the
    pore property ['Pc_invaded'] (the record), the throat properties
    ['Pc_invaded'] and ['invaded'], and the adjacency matrix.  Every other
    pore and throat property is, after the run (also one cut short by an
    exception), what it was before; a run that returns has deleted the
    throat property ['invaded']. *)
Theorem run_frame net npts inv_faces inv_sites :
  network_frame net (_net (snd (run net npts inv_faces inv_sites))) /\
  match fst (run net npts inv_faces inv_sites) with
  | Return _ =>
      throat_properties (_net (snd (run net npts inv_faces inv_sites))) !! "invaded" = None
  | Raise _ => True
  end.
Proof.
  split.
  - unfold run.
    apply (preserves_bind (_setup npts inv_faces inv_sites)
             (fun _ => _do_outer_iteration_stage)
             (preserves_setup npts inv_faces inv_sites)
             (fun _ => preserves_stage) (new_object net)).
  - unfold run, _do_outer_iteration_stage, bind.
    destruct (_setup npts inv_faces inv_sites (new_object net)) as [[[] | e] s1];
      [| exact I].
    unfold get_attr. destruct (_inv_points s1) as [pts |]; [| exact I].
    destruct (for_each pts outer_step s1) as [[[] | e] s2]; [| exact I].
    unfold del_throat_prop.
    destruct (throat_properties (_net s2) !! "invaded"); [| exact I].
    cbn. apply lookup_delete_eq.
Qed.

(** ** The saturation curve *)

Lemma qitem_ok (a : list Q) (i : nat) :
  (i < length a)%nat -> qitem a (Z.of_nat i) = Return (nth i a 0%Q).
Proof.
  intros H. unfold qitem.
  destruct (Z.leb_spec 0 (Z.of_nat i)); [| lia].
  destruct (Z.ltb_spec (Z.of_nat i) (Z.of_nat (length a))); [| lia].
  simpl. rewrite Nat2Z.id. reflexivity.
Qed.

Lemma selected_by_index {A} (d : A) : forall (keep : list bool) (a pre : list A),
  length keep = length a ->
  map (fun p : bool * nat => nth (snd p) (pre ++ a) d)
      (List.filter fst (combine keep (seq (length pre) (length keep)))) =
  map snd (List.filter fst (combine keep a)).
Proof.
  induction keep as [| b keep IH]; intros [| x a] pre Hlen; simpl in Hlen;
    try discriminate; [reflexivity |].
  assert (Htail : map (fun p : bool * nat => nth (snd p) (pre ++ x :: a) d)
                    (List.filter fst (combine keep (seq (S (length pre)) (length keep)))) =
                  map snd (List.filter fst (combine keep a))).
  { specialize (IH a (pre ++ [x]) ltac:(lia)).
    rewrite <- app_assoc in IH. simpl in IH.
    rewrite length_app in IH. simpl in IH.
    replace (length pre + 1)%nat with (S (length pre)) in IH by lia.
    exact IH. }
  simpl. destruct b; simpl.
  - rewrite nth_middle. f_equal. exact Htail.
  - exact Htail.
Qed.

Lemma where_in_range (keep : list bool) (i : Z) :
  In i (np.where_ keep) -> exists k : nat, i = Z.of_nat k /\ (k < length keep)%nat.
Proof.
  unfold np.where_. intros H. apply in_map_iff in H.
  destruct H as ([b k] & <- & Hin). apply List.filter_In in Hin.
  destruct Hin as [Hin _]. apply in_combine_r in Hin. apply in_seq in Hin.
  exists k. simpl. split; [reflexivity | lia].
Qed.

(** Indexing with [np.where(keep)] selects the entries under the keep. *)
Lemma take_where (keep : list bool) (a : list Q) :
  length keep = length a ->
  traverse (qitem a) (np.where_ keep) =
  Return (map snd (List.filter fst (combine keep a))).
Proof.
  intros Hlen.
  rewrite (traverse_ok (qitem a) (fun i => nth (Z.to_nat i) a 0%Q)).
  - f_equal. unfold np.where_. rewrite map_map.
    rewrite <- (selected_by_index 0%Q keep a [] Hlen). simpl.
    apply map_ext. intros [b k]. simpl. rewrite Nat2Z.id. reflexivity.
  - intros i Hi. apply where_in_range in Hi. destruct Hi as (k & -> & Hk).
    rewrite Nat2Z.id. apply qitem_ok. lia.
Qed.

Lemma fold_left_Qplus (l : list Q) : forall a,
  (fold_left Qplus l a == a + fold_left Qplus l 0)%Q.
Proof.
  induction l as [| x l IH]; intros a; simpl.
  - ring.
  - rewrite (IH (a + x)%Q), (IH (0 + x)%Q). ring.
Qed.

Lemma sum_cons x l : (np.sum (x :: l) == x + np.sum l)%Q.
Proof.
  unfold np.sum. simpl. rewrite fold_left_Qplus. ring.
Qed.

(** The sums of [_plot_results] are the volumes of the statement. *)
Lemma sum_selected_volume : forall (keep : list bool) (volume : list Q),
  length keep = length volume ->
  (np.sum (map snd (List.filter fst (combine keep volume))) ==
   subset_volume keep volume)%Q.
Proof.
  induction keep as [| k keep IH]; intros [| v volume] Hlen; simpl in Hlen;
    try discriminate; [reflexivity |].
  simpl. destruct k; simpl.
  - rewrite sum_cons, IH by lia. reflexivity.
  - rewrite IH by lia. ring.
Qed.

Lemma sum_selected_below Pc : forall (keep : list bool) (rec volume : list Q),
  length keep = length rec -> length keep = length volume ->
  (np.sum (zip_with (fun r v => if np.Qltb r Pc then v else 0%Q)
             (map snd (List.filter fst (combine keep rec)))
             (map snd (List.filter fst (combine keep volume)))) ==
   subset_volume (zip_with (fun k r => k && np.Qltb r Pc) keep rec) volume)%Q.
Proof.
  induction keep as [| k keep IH]; intros [| r rec] [| v volume] Hr Hv;
    simpl in Hr, Hv; try discriminate; [reflexivity |].
  simpl. destruct k; simpl.
  - rewrite sum_cons, IH by lia. reflexivity.
  - rewrite IH by lia. ring.
Qed.

Lemma length_reporting ty : length (reporting ty) = length ty.
Proof. unfold reporting. apply length_map. Qed.

Lemma Snwp_at_saturation ty rec vol Pc :
  length rec = length ty -> length vol = length ty ->
  (Snwp_at ty rec vol Pc == saturation ty rec vol Pc)%Q.
Proof.
  intros Hr Hv. unfold Snwp_at, saturation, invaded_volume, reporting_volume.
  rewrite sum_selected_below by (rewrite length_reporting; congruence).
  rewrite sum_selected_volume by (rewrite length_reporting; congruence).
  reflexivity.
Qed.

Lemma length_selected {A B} (keep : list bool) (a : list A) (b : list B) :
  length (map snd (List.filter fst (combine keep a))) =
  length (map snd (List.filter fst (combine keep b))) \/ length a <> length b.
Proof.
  destruct (Nat.eq_dec (length a) (length b)) as [Heq | Hne]; [left | right; exact Hne].
  revert a b Heq. induction keep as [| k keep IH]; intros [| x a] [| y b] Heq;
    simpl in Heq; try discriminate; try reflexivity.
  simpl. destruct k; simpl; [f_equal |]; apply IH; lia.
Qed.

(** One pass through the loop of [_plot_results]: the network is only
    read, and the entry [i] receives the quotient of the two sums. *)
Lemma saturation_step_run s PcPoints ty rec vol Snwp (i : nat) :
  pore_properties (_net s) !! "Pc_invaded" = Some (AFloat rec) ->
  pore_properties (_net s) !! "volume" = Some (AFloat vol) ->
  length rec = length ty -> length vol = length ty ->
  saturation_step PcPoints (np.where_ (reporting ty)) Snwp i s =
  (match py_divide (builtin_sum (volume_below ty rec vol (nth i PcPoints 0%Q)))
           (builtin_sum (selected ty vol)) with
   | Return x => Return (<[i := x]> Snwp)
   | Raise e => Raise e
   end, s).
Proof.
  intros Hrec Hvol Hr Hv.
  destruct s as [[pp tp adj] c op alop isrc ipts res]. cbn in Hrec, Hvol.
  unfold saturation_step. mrun.
  rewrite (take_where (reporting ty) rec) by (rewrite length_reporting; congruence).
  mrun.
  rewrite (take_where (reporting ty) vol) by (rewrite length_reporting; congruence).
  mrun.
  destruct (length_selected (reporting ty) rec vol) as [-> | Hne]; [| congruence].
  rewrite Nat.eqb_refl. mrun.
  fold (selected ty rec). fold (selected ty vol).
  fold (volume_below ty rec vol (nth i PcPoints 0%Q)).
  destruct (py_divide _ _); reflexivity.
Qed.

Lemma number_value_builtin_sum (a : list Q) : number_value (builtin_sum a) = np.sum a.
Proof. destruct a; reflexivity. Qed.

(** The quotient of the two sums is the exact one when the divisor is not
    zero. *)
Lemma py_divide_sums (a b : list Q) :
  ~ (np.sum b == 0)%Q ->
  py_divide (builtin_sum a) (builtin_sum b) = Return (np.Finite (np.sum a / np.sum b)).
Proof.
  intros Hb. destruct b as [| y b]; [exfalso; apply Hb; reflexivity |].
  unfold builtin_sum at 2. set (q := np.sum (y :: b)) in *.
  assert (E : Qeq_bool q 0 = false).
  { destruct (Qeq_bool q 0) eqn:E; [| reflexivity].
    exfalso. apply Hb. apply Qeq_bool_iff. exact E. }
  rewrite <- (number_value_builtin_sum a).
  destruct (builtin_sum a); unfold py_divide, np.divide; cbn [number_value];
    rewrite E; reflexivity.
Qed.

(** Over no pore at all both sums are the integer 0. *)
Lemma py_divide_empty : py_divide (builtin_sum []) (builtin_sum []) = Raise ZeroDivisionError.
Proof. reflexivity. Qed.

Lemma sum_selected ty vol :
  length vol = length ty -> (np.sum (selected ty vol) == reporting_volume ty vol)%Q.
Proof.
  intros Hv. unfold selected, reporting_volume.
  apply sum_selected_volume. rewrite length_reporting. congruence.
Qed.

Lemma saturation_step_finite s PcPoints ty rec vol Snwp (i : nat) :
  pore_properties (_net s) !! "Pc_invaded" = Some (AFloat rec) ->
  pore_properties (_net s) !! "volume" = Some (AFloat vol) ->
  length rec = length ty -> length vol = length ty ->
  ~ (reporting_volume ty vol == 0)%Q ->
  saturation_step PcPoints (np.where_ (reporting ty)) Snwp i s =
  (Return (<[i := np.Finite (Snwp_at ty rec vol (nth i PcPoints 0%Q))]> Snwp), s).
Proof.
  intros Hrec Hvol Hr Hv Htot.
  rewrite (saturation_step_run s PcPoints ty rec vol Snwp i Hrec Hvol Hr Hv).
  rewrite py_divide_sums; [reflexivity |].
  rewrite sum_selected by exact Hv. exact Htot.
Qed.

Lemma saturation_loop_finite s PcPoints ty rec vol range : forall Snwp,
  pore_properties (_net s) !! "Pc_invaded" = Some (AFloat rec) ->
  pore_properties (_net s) !! "volume" = Some (AFloat vol) ->
  length rec = length ty -> length vol = length ty ->
  ~ (reporting_volume ty vol == 0)%Q ->
  saturation_loop PcPoints (np.where_ (reporting ty)) Snwp range s =
  (Return (fold_left
             (fun S i => <[i := np.Finite (Snwp_at ty rec vol (nth i PcPoints 0%Q))]> S)
             range Snwp), s).
Proof.
  induction range as [| i range IH]; intros Snwp Hrec Hvol Hr Hv Htot; simpl;
    [reflexivity |].
  unfold bind.
  rewrite (saturation_step_finite s PcPoints ty rec vol Snwp i) by assumption.
  apply IH; assumption.
Qed.

(** Whatever the volumes, a loop that returns has left the object as it
    was and has written the entries of its range only. *)
Lemma saturation_loop_shape s PcPoints ty rec vol range : forall Snwp Snwp' s',
  pore_properties (_net s) !! "Pc_invaded" = Some (AFloat rec) ->
  pore_properties (_net s) !! "volume" = Some (AFloat vol) ->
  length rec = length ty -> length vol = length ty ->
  saturation_loop PcPoints (np.where_ (reporting ty)) Snwp range s = (Return Snwp', s') ->
  s' = s /\ length Snwp' = length Snwp /\
  (forall j : nat, ~ In j range -> Snwp' !! j = Snwp !! j).
Proof.
  induction range as [| i range IH]; intros Snwp Snwp' s' Hrec Hvol Hr Hv; simpl.
  - unfold ret. intros H. injection H as <- <-. repeat split; reflexivity.
  - unfold bind.
    rewrite (saturation_step_run s PcPoints ty rec vol Snwp i Hrec Hvol Hr Hv).
    destruct (py_divide _ _) as [x | e]; [| discriminate].
    intros H. destruct (IH _ _ _ Hrec Hvol Hr Hv H) as (Hs & Hl & Hj).
    split; [exact Hs |]. split; [rewrite Hl; apply length_insert |].
    intros j Hnot. rewrite Hj by (intros Hin; apply Hnot; right; exact Hin).
    apply list_lookup_insert_ne. intros ->. apply Hnot. left. reflexivity.
Qed.

(** Without a pore of type 0 the two sums are the integer 0 and the pass
    fails. *)
Lemma selected_none ty (a : list Q) :
  (forall t, In t ty -> t <> 0) -> selected ty a = [].
Proof.
  intros Hty. unfold selected, reporting. revert a.
  induction ty as [| t ty IH]; intros [| x a]; simpl; try reflexivity.
  assert (E : (t =? 0) = false) by (apply Z.eqb_neq; apply Hty; left; reflexivity).
  rewrite E. simpl. apply IH. intros t' Ht'. apply Hty. right. exact Ht'.
Qed.

Lemma saturation_step_no_internal s PcPoints ty rec vol Snwp (i : nat) :
  pore_properties (_net s) !! "Pc_invaded" = Some (AFloat rec) ->
  pore_properties (_net s) !! "volume" = Some (AFloat vol) ->
  length rec = length ty -> length vol = length ty ->
  (forall t, In t ty -> t <> 0) ->
  saturation_step PcPoints (np.where_ (reporting ty)) Snwp i s =
  (Raise ZeroDivisionError, s).
Proof.
  intros Hrec Hvol Hr Hv Hnone.
  rewrite (saturation_step_run s PcPoints ty rec vol Snwp i Hrec Hvol Hr Hv).
  unfold volume_below. rewrite !selected_none by exact Hnone. reflexivity.
Qed.

Lemma fold_insert_length {A} (f : nat -> A) range : forall S : list A,
  length (fold_left (fun S i => <[i := f i]> S) range S) = length S.
Proof.
  induction range as [| i range IH]; intros S; simpl; [reflexivity |].
  rewrite IH. apply length_insert.
Qed.

Lemma fold_insert_notin {A} (f : nat -> A) (j : nat) range : forall S : list A,
  ~ In j range ->
  fold_left (fun S i => <[i := f i]> S) range S !! j = S !! j.
Proof.
  induction range as [| i range IH]; intros S Hj; simpl; [reflexivity |].
  rewrite IH by (intros H; apply Hj; right; exact H).
  apply list_lookup_insert_ne. intros ->. apply Hj. left. reflexivity.
Qed.

Lemma fold_insert_in {A} (f : nat -> A) (j : nat) range : forall S : list A,
  In j range -> (j < length S)%nat ->
  fold_left (fun S i => <[i := f i]> S) range S !! j = Some (f j).
Proof.
  induction range as [| i range IH]; intros S Hj Hlen; simpl; [contradiction |].
  destruct (in_dec Nat.eq_dec j range) as [Hin | Hnotin].
  - apply IH; [exact Hin | rewrite length_insert; exact Hlen].
  - rewrite fold_insert_notin by exact Hnotin.
    destruct Hj as [-> | Hj]; [| contradiction].
    apply list_lookup_insert_eq. exact Hlen.
Qed.

(** *** [np.unique] on the record *)

Lemma Qltb_false a b : np.Qltb a b = false <-> (b <= a)%Q.
Proof.
  unfold np.Qltb. rewrite negb_false_iff. apply Qle_bool_iff.
Qed.

Lemma In_insert_sorted_Q x y l :
  In y (np.insert_sorted np.Qltb x l) -> y = x \/ In y l.
Proof.
  induction l as [| h l IH]; simpl.
  - intuition.
  - destruct (np.Qltb x h); simpl; [intuition |].
    destruct (np.Qltb h x); simpl; [| intuition].
    intros [-> | H]; [right; left; reflexivity |].
    destruct (IH H); [left | right; right]; assumption.
Qed.

Lemma insert_sorted_keeps x y l :
  In y l -> In y (np.insert_sorted np.Qltb x l).
Proof.
  induction l as [| h l IH]; simpl; [contradiction |].
  intros Hy. destruct (np.Qltb x h); simpl; [right; exact Hy |].
  destruct (np.Qltb h x); simpl; [| exact Hy].
  destruct Hy as [-> | Hy]; [left; reflexivity | right; apply IH; exact Hy].
Qed.

Lemma insert_sorted_has x l :
  exists y, In y (np.insert_sorted np.Qltb x l) /\ (y == x)%Q.
Proof.
  induction l as [| h l IH]; simpl.
  - exists x. split; [left; reflexivity | reflexivity].
  - destruct (np.Qltb x h) eqn:E1; simpl.
    + exists x. split; [left; reflexivity | reflexivity].
    + destruct (np.Qltb h x) eqn:E2; simpl.
      * destruct IH as (y & Hy & He). exists y. split; [right; exact Hy | exact He].
      * exists h. split; [left; reflexivity |].
        apply Qltb_false in E1. apply Qltb_false in E2. apply Qle_antisym; assumption.
Qed.

Lemma insert_sorted_Forall z x l :
  (z < x)%Q -> Forall (Qlt z) l -> Forall (Qlt z) (np.insert_sorted np.Qltb x l).
Proof.
  intros Hz Hl. apply List.Forall_forall. intros y Hy.
  apply In_insert_sorted_Q in Hy. destruct Hy as [-> | Hy]; [exact Hz |].
  rewrite List.Forall_forall in Hl. apply Hl. exact Hy.
Qed.

Lemma insert_sorted_sorted x l :
  StronglySorted Qlt l -> StronglySorted Qlt (np.insert_sorted np.Qltb x l).
Proof.
  induction 1 as [| h l Hs IH Hall]; simpl.
  - constructor; constructor.
  - destruct (np.Qltb x h) eqn:E1.
    + apply Qltb_lt in E1. constructor; [constructor; assumption |].
      constructor; [exact E1 |].
      eapply Forall_impl; [exact Hall |]. intros y Hy. simpl in Hy.
      eapply Qlt_trans; eassumption.
    + destruct (np.Qltb h x) eqn:E2.
      * apply Qltb_lt in E2. constructor; [exact IH |].
        apply insert_sorted_Forall; assumption.
      * constructor; assumption.
Qed.

(** The points of the curve: strictly ascending, taken from the record,
    and covering every value of the record. *)
Lemma unique_sorted l : StronglySorted Qlt (np.unique np.Qltb l).
Proof.
  induction l as [| x l IH]; simpl; [constructor |].
  apply insert_sorted_sorted. exact IH.
Qed.

Lemma unique_from l y : In y (np.unique np.Qltb l) -> In y l.
Proof.
  induction l as [| x l IH]; simpl; [contradiction |].
  intros H. apply In_insert_sorted_Q in H.
  destruct H as [-> | H]; [left; reflexivity | right; apply IH; exact H].
Qed.

Lemma unique_covers l r :
  In r l -> exists y, In y (np.unique np.Qltb l) /\ (y == r)%Q.
Proof.
  induction l as [| x l IH]; simpl; [contradiction |].
  intros [-> | Hr].
  - apply insert_sorted_has.
  - destruct (IH Hr) as (y & Hy & He). exists y.
    split; [apply insert_sorted_keeps; exact Hy | exact He].
Qed.

Lemma unique_nonempty l : l <> [] -> np.unique np.Qltb l <> [].
Proof.
  destruct l as [| x l]; [congruence |]. intros _ H.
  destruct (unique_covers (x :: l) x ltac:(left; reflexivity)) as (y & Hy & _).
  rewrite H in Hy. contradiction.
Qed.

(** *** Volumes *)



Lemma subset_volume_none : forall (keep : list bool) (vol : list Q),
  (forall b, In b keep -> b = false) -> (subset_volume keep vol == 0)%Q.
Proof.
  induction keep as [| k keep IH]; intros [| v vol] Hk; simpl; try reflexivity.
  rewrite (Hk k) by (left; reflexivity).
  rewrite IH by (intros b Hb; apply Hk; right; exact Hb). ring.
Qed.



(** Below the least recorded pressure nothing is invaded. *)
Lemma invaded_volume_least ty rec vol Pc :
  (forall r, In r rec -> (Pc <= r)%Q) -> (invaded_volume ty rec vol Pc == 0)%Q.
Proof.
  intros Hmin. unfold invaded_volume. apply subset_volume_none.
  intros b Hb. apply list_elem_of_In, list_elem_of_lookup in Hb. destruct Hb as [i Hi].
  rewrite lookup_zip_with in Hi.
  destruct (reporting ty !! i) as [k |]; simpl in Hi; [| discriminate].
  destruct (rec !! i) as [r |] eqn:Er; simpl in Hi; [| discriminate].
  injection Hi as <-. apply andb_false_iff. right. apply Qltb_false. apply Hmin.
  apply list_elem_of_In, list_elem_of_lookup. eauto.
Qed.

(** *** The method [_plot_results] *)

Lemma map_fst_combine {A B} : forall (l : list A) (k : list B),
  length k = length l -> map fst (combine l k) = l.
Proof.
  induction l as [| x l IH]; intros [| y k] Hlen; simpl in *; try discriminate;
    try reflexivity.
  rewrite IH by lia. reflexivity.
Qed.

Lemma lookup_combine {A B} : forall (l : list A) (k : list B) (i : nat) x y,
  combine l k !! i = Some (x, y) -> l !! i = Some x /\ k !! i = Some y.
Proof.
  induction l as [| a l IH]; intros [| b k] i x y H; simpl in H; try discriminate.
  destruct i as [| i]; simpl in *.
  - inversion H. split; reflexivity.
  - apply IH. exact H.
Qed.


(** The head of the curve's pressures is the least recorded pressure. *)
Lemma unique_head_least rec Pc rest (r : Q) :
  np.unique np.Qltb rec = Pc :: rest -> In r rec -> (Pc <= r)%Q.
Proof.
  intros Hu Hr. destruct (unique_covers rec r Hr) as (y & Hy & He).
  pose proof (unique_sorted rec) as Hs. rewrite Hu in Hs, Hy.
  inversion Hs as [| ? ? _ Hall]; subst.
  rewrite <- He. destruct Hy as [<- | Hy]; [apply Qle_refl |].
  rewrite List.Forall_forall in Hall. apply Qlt_le_weak. apply Hall. exact Hy.
Qed.

Lemma lookup_finite_zeros (n i : nat) :
  (i < n)%nat -> map np.Finite (np.zeros n) !! i = Some (np.Finite 0%Q).
Proof.
  intros Hi. change (map np.Finite (np.zeros n)) with (np.Finite <$> np.zeros n).
  rewrite list_lookup_fmap, lookup_zeros by exact Hi. reflexivity.
Qed.

(** [_plot_results] on a finalized record, the reporting volume not being
    zero: it returns, the pressures of the curve are [np.unique] of the
    record, the first saturation is the 0 of [np.zeros_like], and every
    saturation is, numerically, [saturation] at its pressure. *)
Lemma plot_curve s nb ty vol cs pe rec :
  finalized s nb ty vol cs pe rec -> ~ (reporting_volume ty vol == 0)%Q ->
  exists s' curve,
    _plot_results s = (Return tt, s') /\ _results s' = Some curve /\
    map fst curve = np.unique np.Qltb rec /\
    (forall (i : nat) Pc Sn, curve !! i = Some (Pc, Sn) ->
       (i = 0%nat -> Sn = np.Finite 0%Q) /\ is_number Sn (saturation ty rec vol Pc)).
Proof.
  intros [[Hnb Hty Hvol Hcs Hpe Hl1 Hl2 Hl3 Hrange] Hrec Hlen] Htot.
  destruct s as [[pp tp adj] c op alop isrc ipts res]. cbn in *.
  assert (Hr : length rec = length ty) by congruence.
  assert (Hv : length vol = length ty) by congruence.
  set (PcPoints := np.unique np.Qltb rec).
  set (Snwp := fold_left
                 (fun S i => <[i := np.Finite (Snwp_at ty rec vol (nth i PcPoints 0%Q))]> S)
                 (seq 1 (length PcPoints - 1))
                 (map np.Finite (np.zeros (length PcPoints)))).
  assert (HlenS : length Snwp = length PcPoints).
  { unfold Snwp. rewrite fold_insert_length, length_map. apply length_zeros. }
  eexists. exists (combine PcPoints Snwp).
  split; [| split; [| split]].
  - unfold _plot_results. mrun.
    change (map (fun x : Z => x =? 0) ty) with (reporting ty).
    fold PcPoints.
    match goal with
    | |- context [saturation_loop _ _ ?S0 ?range ?st] =>
        rewrite (saturation_loop_finite st PcPoints ty rec vol range S0 Hrec Hvol Hr Hv Htot)
    end.
    fold Snwp. reflexivity.
  - reflexivity.
  - apply map_fst_combine. exact HlenS.
  - intros i Pc Sn Hi. apply lookup_combine in Hi. destruct Hi as [HPc HS].
    assert (Hi : (i < length PcPoints)%nat) by (apply lookup_lt_Some in HPc; exact HPc).
    destruct i as [| i].
    + assert (HS0 : Snwp !! 0%nat = Some (np.Finite 0%Q)).
      { unfold Snwp. rewrite fold_insert_notin.
        - apply lookup_finite_zeros. exact Hi.
        - intros Hin. apply in_seq in Hin. lia. }
      rewrite HS in HS0. injection HS0 as ->.
      split; [reflexivity |].
      destruct PcPoints as [| Pc0 rest] eqn:EP; [discriminate |].
      simpl in HPc. injection HPc as ->.
      unfold is_number, saturation. rewrite invaded_volume_least.
      * unfold Qdiv. ring.
      * intros r Hrin. eapply unique_head_least; eassumption.
    + split; [discriminate |].
      assert (HSi : Snwp !! (S i) =
                    Some (np.Finite (Snwp_at ty rec vol (nth (S i) PcPoints 0%Q)))).
      { unfold Snwp.
        apply (fold_insert_in
                 (fun i => np.Finite (Snwp_at ty rec vol (nth i PcPoints 0%Q)))).
        - apply in_seq. lia.
        - rewrite length_map, length_zeros. exact Hi. }
      rewrite HS in HSi. injection HSi as ->.
      rewrite (nth_lookup_Some _ _ 0%Q _ HPc).
      unfold is_number. apply Snwp_at_saturation; assumption.
Qed.

Lemma curve_object_finalized :
  finalized curve_object [0; 1; 2] [0; 0; 1] [1%Q; 1%Q; 1%Q] [(1, 2); (0, 1)]
    [1%Q; 3%Q] [1%Q; 0%Q; 0%Q].
Proof. split; [split |..]; vm_compute; reflexivity. Qed.

Lemma In_curve_lookup {A} (curve : list (Q * A)) Pc Sn :
  In (Pc, Sn) curve -> exists i : nat, curve !! i = Some (Pc, Sn).
Proof.
  intros H. apply list_elem_of_In, list_elem_of_lookup in H. exact H.
Qed.




(** Whenever [_plot_results] returns, whatever the volumes: the pressures
    of the curve are [np.unique] of the record and the first saturation is
    the 0 it was created with; when the reporting subset has a nonzero
    volume every saturation is [saturation] at its pressure. *)
Lemma plot_curve_returned s nb ty vol cs pe rec s' curve :
  finalized s nb ty vol cs pe rec ->
  _plot_results s = (Return tt, s') -> _results s' = Some curve ->
  map fst curve = np.unique np.Qltb rec /\
  (forall Pc Sn, curve !! 0%nat = Some (Pc, Sn) -> Sn = np.Finite 0%Q) /\
  (~ (reporting_volume ty vol == 0)%Q ->
   forall (i : nat) Pc Sn, curve !! i = Some (Pc, Sn) ->
     is_number Sn (saturation ty rec vol Pc)).
Proof.
  intros Hfin Hrun Hres.
  assert (Hsat : ~ (reporting_volume ty vol == 0)%Q ->
                 forall (i : nat) Pc Sn, curve !! i = Some (Pc, Sn) ->
                   is_number Sn (saturation ty rec vol Pc)).
  { intros Hnz.
    destruct (plot_curve s nb ty vol cs pe rec Hfin Hnz)
      as (s0 & curve0 & Hrun0 & Hres0 & _ & Hsat).
    rewrite Hrun in Hrun0. injection Hrun0 as <-.
    rewrite Hres in Hres0. injection Hres0 as <-.
    intros i Pc Sn Hi. apply (Hsat i Pc Sn Hi). }
  destruct Hfin as [[Hnb Hty Hvol Hcs Hpe Hl1 Hl2 Hl3 Hrange] Hrec Hlen].
  destruct s as [[pp tp adj] c op alop isrc ipts res]. cbn in *.
  assert (Hr : length rec = length ty) by congruence.
  assert (Hv : length vol = length ty) by congruence.
  unfold _plot_results in Hrun. revert Hrun. mrun.
  change (map (fun x : Z => x =? 0) ty) with (reporting ty).
  set (PcPoints := np.unique np.Qltb rec).
  match goal with
  | |- context [saturation_loop _ _ ?S0 ?range ?st] =>
      destruct (saturation_loop PcPoints (np.where_ (reporting ty)) S0 range st)
        as [[Snwp | e] s1] eqn:Hloop;
      [ apply (saturation_loop_shape st PcPoints ty rec vol range S0 Snwp s1
                 Hrec Hvol Hr Hv) in Hloop
      | discriminate ]
  end.
  destruct Hloop as (-> & HlenS & Hkeep).
  rewrite length_map, length_zeros in HlenS.
  mrun. intros Hrun. injection Hrun as <-. cbn in Hres. injection Hres as <-.
  split; [apply map_fst_combine; exact HlenS |].
  split; [| exact Hsat].
  intros Pc Sn Hi. apply lookup_combine in Hi. destruct Hi as [HPc HS].
  rewrite Hkeep in HS by (intros Hin; apply in_seq in Hin; lia).
  rewrite lookup_finite_zeros in HS by (apply lookup_lt_Some in HPc; exact HPc).
  congruence.
Qed.

Lemma plot_returns s nb ty vol cs pe rec :
  finalized s nb ty vol cs pe rec -> ~ (reporting_volume ty vol == 0)%Q ->
  exists s' curve, _plot_results s = (Return tt, s') /\ _results s' = Some curve.
Proof.
  intros Hfin Hnz.
  destruct (plot_curve s nb ty vol cs pe rec Hfin Hnz) as (s' & curve & Hrun & Hres & _).
  exists s', curve. split; assumption.
Qed.

(** C7: whenever [_plot_results] returns a curve (it does when the
    reporting subset has a nonzero volume), the pressures of the curve are
    strictly ascending, are values of the record, and cover every value of
    the record; the saturation stored with a pressure [Pc] is the volume of
    the pores of type 0 whose recorded pressure is strictly below [Pc],
    divided by the volume of all pores of type 0. *)
Theorem curve_pressures_and_saturations s nb ty vol cs pe rec :
  finalized s nb ty vol cs pe rec ->
  (~ (reporting_volume ty vol == 0)%Q ->
   exists s' curve, _plot_results s = (Return tt, s') /\ _results s' = Some curve) /\
  (forall s' curve,
     _plot_results s = (Return tt, s') -> _results s' = Some curve ->
     StronglySorted Qlt (map fst curve) /\
     (forall Pc, In Pc (map fst curve) -> In Pc rec) /\
     (forall r, In r rec -> exists Pc, In Pc (map fst curve) /\ (Pc == r)%Q) /\
     (~ (reporting_volume ty vol == 0)%Q ->
      forall Pc Sn, In (Pc, Sn) curve ->
        is_number Sn (invaded_volume ty rec vol Pc / reporting_volume ty vol))).
Proof.
  intros Hfin. split; [apply (plot_returns s nb ty vol cs pe rec Hfin) |].
  intros s' curve Hrun Hres.
  destruct (plot_curve_returned s nb ty vol cs pe rec s' curve Hfin Hrun Hres)
    as (Hfst & _ & Hsat).
  rewrite Hfst. split; [apply unique_sorted |].
  split; [intros Pc; apply unique_from |].
  split; [intros r; apply unique_covers |].
  intros Hnz Pc Sn Hin. apply In_curve_lookup in Hin. destruct Hin as [i Hi].
  apply (Hsat Hnz i Pc Sn Hi).
Qed.

Lemma curve_pressures_and_saturations_witness :
  (~ (reporting_volume [0%Z; 0%Z; 1%Z] [1%Q; 1%Q; 1%Q] == 0)%Q ->
   exists s' curve,
     _plot_results curve_object = (Return tt, s') /\ _results s' = Some curve) /\
  (forall s' curve,
     _plot_results curve_object = (Return tt, s') -> _results s' = Some curve ->
     StronglySorted Qlt (map fst curve) /\
     (forall Pc, In Pc (map fst curve) -> In Pc [1%Q; 0%Q; 0%Q]) /\
     (forall r, In r [1%Q; 0%Q; 0%Q] ->
        exists Pc, In Pc (map fst curve) /\ (Pc == r)%Q) /\
     (~ (reporting_volume [0%Z; 0%Z; 1%Z] [1%Q; 1%Q; 1%Q] == 0)%Q ->
      forall Pc Sn, In (Pc, Sn) curve ->
        is_number Sn
          (invaded_volume [0%Z; 0%Z; 1%Z] [1%Q; 0%Q; 0%Q] [1%Q; 1%Q; 1%Q] Pc /
           reporting_volume [0%Z; 0%Z; 1%Z] [1%Q; 1%Q; 1%Q]))).
Proof.
  apply (curve_pressures_and_saturations curve_object [0; 1; 2] [0; 0; 1]
           [1%Q; 1%Q; 1%Q] [(1, 2); (0, 1)] [1%Q; 3%Q] [1%Q; 0%Q; 0%Q]).
  exact curve_object_finalized.
Defined.





(** * Further properties of the code *)

(** ** The sweep, step by step *)

(** The object [_setup] returns is ready for the sweep. *)
Lemma init_sweeping net nb ty vol cs pe npts inv_faces inv_sites :
  well_formed net nb ty vol cs pe -> pe <> [] -> 0 <= npts ->
  sweeping (snd (__init__ net npts inv_faces inv_sites)) nb ty vol cs pe
    (np.zeros (length nb)).
Proof.
  intros Hwf Hpe Hnpts.
  destruct (run_returns net nb ty vol cs pe npts inv_faces inv_sites Hwf Hpe Hnpts)
    as (_ & lo & hi & pts & _ & _ & _ & Hinit & _).
  rewrite Hinit. simpl snd. apply sweeping_setup_state. exact Hwf.
Qed.

Lemma sweep_record_length inv pts : forall rec,
  (forall p, length (inv p) = length rec) ->
  length (sweep_record inv pts rec) = length rec.
Proof.
  induction pts as [| p pts IH]; intros rec Hlen; simpl; [reflexivity |].
  rewrite IH; rewrite length_step_record by apply Hlen; [reflexivity |].
  intros p'. apply Hlen.
Qed.

(** An entry of the record after the loop is the entry before it or one
    of the applied pressures. *)
Lemma sweep_record_values inv pts (q : nat) (r : Q) : forall rec,
  (forall p, length (inv p) = length rec) ->
  sweep_record inv pts rec !! q = Some r ->
  rec !! q = Some r \/ In r pts.
Proof.
  induction pts as [| p pts IH]; intros rec Hlen Hq; simpl in *; [left; exact Hq |].
  destruct (IH (step_record p rec (inv p))) as [H | H]; try assumption.
  - intros p'. rewrite length_step_record by apply Hlen. apply Hlen.
  - assert (Hlt : (q < length rec)%nat).
    { apply lookup_lt_Some in H. rewrite length_step_record in H by apply Hlen. exact H. }
    destruct (lookup_lt_is_Some_2 rec q Hlt) as [r0 Hr0].
    rewrite (lookup_step_record p rec (inv p) q r0 (Hlen p) Hr0) in H.
    destruct (Qeq_bool r0 0 && (0 <? nth q (inv p) 0)).
    + right. left. congruence.
    + left. congruence.
  - right. right. exact H.
Qed.

(** With nonzero pressures, a pore still at the sentinel after the loop
    was marked at none of its steps. *)
Lemma sweep_record_no_pending inv pts (q : nat) (r : Q) : forall rec,
  (forall p, length (inv p) = length rec) ->
  Forall (fun p => ~ (p == 0)%Q) pts ->
  sweep_record inv pts rec !! q = Some r -> (r == 0)%Q ->
  rec !! q = Some r /\ forall p, In p pts -> ~ invaded_this_step (inv p) q.
Proof.
  induction pts as [| p pts IH]; intros rec Hlen Hnz Hq Hr; simpl in *.
  - split; [exact Hq | contradiction].
  - inversion Hnz as [| ? ? Hp Hnz']; subst.
    assert (Hlen' : forall p', length (inv p') = length (step_record p rec (inv p))).
    { intros p'. rewrite length_step_record by apply Hlen. apply Hlen. }
    destruct (IH _ Hlen' Hnz' Hq Hr) as [Hstep Hrest].
    assert (Hlt : (q < length rec)%nat).
    { apply lookup_lt_Some in Hstep. rewrite length_step_record in Hstep by apply Hlen.
      exact Hstep. }
    destruct (lookup_lt_is_Some_2 rec q Hlt) as [r0 Hr0].
    rewrite (lookup_step_record p rec (inv p) q r0 (Hlen p) Hr0) in Hstep.
    unfold invaded_this_step.
    destruct (Qeq_bool r0 0) eqn:E0; destruct (Z.ltb_spec 0 (nth q (inv p) 0));
      simpl in Hstep; injection Hstep as Heq.
    + exfalso. apply Hp. rewrite Heq. exact Hr.
    + subst r0. split; [exact Hr0 |]. intros p' [<- | Hin]; [lia | apply Hrest; exact Hin].
    + subst r0. apply Qeq_bool_iff in Hr. congruence.
    + subst r0. apply Qeq_bool_iff in Hr. congruence.
Qed.

(** With nonzero pressures, the entry of a pore that starts at the
    sentinel ends as the first applied pressure at which the pore is
    marked, and stays as it was when there is none. *)
Lemma sweep_record_first inv pts (q : nat) (r r0 : Q) : forall rec,
  (forall p, length (inv p) = length rec) ->
  Forall (fun p => ~ (p == 0)%Q) pts ->
  rec !! q = Some r0 -> (r0 == 0)%Q ->
  sweep_record inv pts rec !! q = Some r ->
  (r = r0 /\ forall p, In p pts -> ~ invaded_this_step (inv p) q) \/
  (exists pre post, pts = pre ++ r :: post /\ invaded_this_step (inv r) q /\
     forall p, In p pre -> ~ invaded_this_step (inv p) q).
Proof.
  induction pts as [| p pts IH]; intros rec Hlen Hnz Hr0 Hz Hq; simpl in *.
  - left. split; [congruence | contradiction].
  - inversion Hnz as [| ? ? Hp Hnz']; subst.
    assert (Hlen' : forall p', length (inv p') = length (step_record p rec (inv p))).
    { intros p'. rewrite length_step_record by apply Hlen. apply Hlen. }
    pose proof (lookup_step_record p rec (inv p) q r0 (Hlen p) Hr0) as Hstep.
    apply Qeq_bool_iff in Hz. rewrite Hz in Hstep. simpl in Hstep.
    destruct (Z.ltb_spec 0 (nth q (inv p) 0)) as [Hm | Hm].
    + right. exists [], pts.
      rewrite (sweep_record_keeps inv pts q p _ Hlen' Hstep Hp) in Hq.
      injection Hq as <-. split; [reflexivity |]. split; [exact Hm | contradiction].
    + apply Qeq_bool_iff in Hz.
      destruct (IH _ Hlen' Hnz' Hstep Hz Hq) as [[Heq Hnone] | (pre & post & Hsplit & Hmark & Hpre)].
      * left. split; [exact Heq |].
        intros p' [<- | Hin]; [unfold invaded_this_step; lia | apply Hnone; exact Hin].
      * right. exists (p :: pre), post. split; [simpl; congruence |].
        split; [exact Hmark |].
        intros p' [<- | Hin]; [unfold invaded_this_step; lia | apply Hpre; exact Hin].
Qed.

(** A step at which no pore is both at the sentinel and marked changes
    nothing. *)
Lemma step_record_id p rec inv :
  length inv = length rec ->
  (forall (q : nat) (r : Q), rec !! q = Some r -> (r == 0)%Q -> ~ invaded_this_step inv q) ->
  step_record p rec inv = rec.
Proof.
  intros Hlen Hnone. apply list_eq. intros q.
  destruct (rec !! q) as [r |] eqn:Hq.
  - rewrite (lookup_step_record p rec inv q r Hlen Hq).
    destruct (Qeq_bool r 0) eqn:E; [| reflexivity].
    destruct (Z.ltb_spec 0 (nth q inv 0)) as [Hm | Hm]; [| reflexivity].
    exfalso. apply (Hnone q r Hq); [apply Qeq_bool_iff; exact E | exact Hm].
  - apply lookup_ge_None. apply lookup_ge_None in Hq.
    unfold step_record. rewrite length_zip_with. lia.
Qed.

Lemma sweep_record_id inv pts : forall rec,
  (forall p, length (inv p) = length rec) ->
  (forall p (q : nat) (r : Q), In p pts -> rec !! q = Some r -> (r == 0)%Q ->
     ~ invaded_this_step (inv p) q) ->
  sweep_record inv pts rec = rec.
Proof.
  induction pts as [| p pts IH]; intros rec Hlen Hnone; simpl; [reflexivity |].
  rewrite (step_record_id p rec (inv p) (Hlen p)).
  - apply IH; [exact Hlen |]. intros p' q r Hin. apply Hnone. right. exact Hin.
  - intros q r. apply Hnone. left. reflexivity.
Qed.

Lemma net3_sweeping :
  sweeping (snd (__init__ net3 3 [] [0])) [0; 1; 2] [0; 0; 0] [1%Q; 1%Q; 1%Q]
    [(1, 2); (0, 1)] [1%Q; 3%Q] (np.zeros (length [0; 1; 2])).
Proof.
  apply init_sweeping; [exact net3_well_formed | discriminate | lia].
Qed.

(** The loop of a sweep, summed up: what every call of
    [_do_one_inner_iteration] returns during the loop, and the record the
    loop leaves. *)
Lemma loop_result s nb ty vol cs pe rec pts :
  sweeping s nb ty vol cs pe rec ->
  exists s',
    for_each pts outer_step s = (Return tt, s') /\
    sweeping s' nb ty vol cs pe (sweep_record (inner_result s nb cs pe) pts rec) /\
    (forall p, fst (_do_one_inner_iteration p s) = Return (inner_result s nb cs pe p)) /\
    (forall p, length (inner_result s nb cs pe p) = length rec).
Proof.
  intros Hsw.
  destruct (for_each_outer_step nb ty vol cs pe pts s rec Hsw) as (s' & Hloop & Hsw' & _).
  exists s'. split; [exact Hloop |]. split; [exact Hsw' |].
  destruct Hsw as [Hwf Hmode Hrec Hlen]. split.
  - intros p. rewrite (inner_run s nb ty vol cs pe p Hwf Hmode). reflexivity.
  - intros p. rewrite length_inner_result by exact Hmode. congruence.
Qed.

(** X1: from a record that is all sentinel and with nonzero applied
    pressures, the loop of [_do_outer_iteration_stage] records for every
    pore the first applied pressure at whose step the pore is marked, and
    leaves the sentinel 0 for a pore that no step marks. *)
Theorem record_is_first_marking_pressure s nb ty vol cs pe pts :
  sweeping s nb ty vol cs pe (np.zeros (length nb)) ->
  Forall (fun p => ~ (p == 0)%Q) pts ->
  exists inv s' rec',
    (forall p, fst (_do_one_inner_iteration p s) = Return (inv p)) /\
    for_each pts outer_step s = (Return tt, s') /\
    pore_record s' = Some (AFloat rec') /\
    length rec' = length nb /\
    forall (q : nat) (r : Q), rec' !! q = Some r ->
      (r = 0%Q /\ forall p, In p pts -> ~ invaded_this_step (inv p) q) \/
      (exists pre post, pts = pre ++ r :: post /\ invaded_this_step (inv r) q /\
         forall p, In p pre -> ~ invaded_this_step (inv p) q).
Proof.
  intros Hsw Hnz.
  destruct (loop_result s nb ty vol cs pe _ pts Hsw) as (s' & Hloop & Hsw' & Hinv & Hlen).
  exists (inner_result s nb cs pe), s', (sweep_record (inner_result s nb cs pe) pts
                                           (np.zeros (length nb))).
  split; [exact Hinv |]. split; [exact Hloop |]. split; [apply Hsw' |].
  split; [apply Hsw' |].
  intros q r Hq.
  assert (Hlt : (q < length nb)%nat).
  { apply lookup_lt_Some in Hq. rewrite sweep_record_length in Hq by exact Hlen.
    rewrite length_zeros in Hq. exact Hq. }
  apply (sweep_record_first (inner_result s nb cs pe) pts q r 0%Q
           (np.zeros (length nb)) Hlen Hnz).
  - apply lookup_zeros. exact Hlt.
  - reflexivity.
  - exact Hq.
Qed.

Lemma record_is_first_marking_pressure_witness :
  exists inv s' rec',
    (forall p, fst (_do_one_inner_iteration p (snd (__init__ net3 3 [] [0]))) =
               Return (inv p)) /\
    for_each [1%Q; 2%Q; 3%Q] outer_step (snd (__init__ net3 3 [] [0])) = (Return tt, s') /\
    pore_record s' = Some (AFloat rec') /\
    length rec' = length [0; 1; 2] /\
    forall (q : nat) (r : Q), rec' !! q = Some r ->
      (r = 0%Q /\ forall p, In p [1%Q; 2%Q; 3%Q] -> ~ invaded_this_step (inv p) q) \/
      (exists pre post, [1%Q; 2%Q; 3%Q] = pre ++ r :: post /\ invaded_this_step (inv r) q /\
         forall p, In p pre -> ~ invaded_this_step (inv p) q).
Proof.
  apply (record_is_first_marking_pressure (snd (__init__ net3 3 [] [0]))
           [0; 1; 2] [0; 0; 0] [1%Q; 1%Q; 1%Q] [(1, 2); (0, 1)] [1%Q; 3%Q]
           [1%Q; 2%Q; 3%Q]).
  - exact net3_sweeping.
  - repeat constructor; intros H; vm_compute in H; discriminate.
Defined.

(** X2: with nonzero applied pressures, running the loop of
    [_do_outer_iteration_stage] a second time over the same pressures
    leaves the record exactly as the first run left it. *)
Theorem second_sweep_keeps_record s nb ty vol cs pe rec pts :
  sweeping s nb ty vol cs pe rec ->
  Forall (fun p => ~ (p == 0)%Q) pts ->
  exists s1 rec1 s2,
    for_each pts outer_step s = (Return tt, s1) /\
    pore_record s1 = Some (AFloat rec1) /\
    for_each pts outer_step s1 = (Return tt, s2) /\
    pore_record s2 = Some (AFloat rec1).
Proof.
  intros Hsw Hnz.
  destruct (for_each_outer_step nb ty vol cs pe pts s rec Hsw) as (s1 & Hloop & Hsw1 & Hres).
  destruct (loop_result s nb ty vol cs pe rec pts Hsw) as (_ & _ & _ & _ & Hlen).
  set (inv := inner_result s nb cs pe) in *.
  set (rec1 := sweep_record inv pts rec) in *.
  destruct (for_each_outer_step nb ty vol cs pe pts s1 rec1 Hsw1) as (s2 & Hloop2 & Hsw2 & _).
  exists s1, rec1, s2. split; [exact Hloop |]. split; [apply Hsw1 |].
  split; [exact Hloop2 |].
  destruct Hsw2 as [_ _ Hrec2 _]. unfold pore_record. rewrite Hrec2. do 2 f_equal.
  rewrite (sweep_record_ext _ inv pts rec1 Hres).
  apply sweep_record_id.
  - intros p. unfold rec1. rewrite sweep_record_length by exact Hlen. apply Hlen.
  - intros p q r Hin Hq Hz.
    destruct (sweep_record_no_pending inv pts q r rec Hlen Hnz Hq Hz) as [_ Hnone].
    apply Hnone. exact Hin.
Qed.

Lemma second_sweep_keeps_record_witness :
  exists s1 rec1 s2,
    for_each [1%Q; 2%Q; 3%Q] outer_step (snd (__init__ net3 3 [] [0])) = (Return tt, s1) /\
    pore_record s1 = Some (AFloat rec1) /\
    for_each [1%Q; 2%Q; 3%Q] outer_step s1 = (Return tt, s2) /\
    pore_record s2 = Some (AFloat rec1).
Proof.
  apply (second_sweep_keeps_record (snd (__init__ net3 3 [] [0]))
           [0; 1; 2] [0; 0; 0] [1%Q; 1%Q; 1%Q] [(1, 2); (0, 1)] [1%Q; 3%Q]
           (np.zeros (length [0; 1; 2])) [1%Q; 2%Q; 3%Q]).
  - exact net3_sweeping.
  - repeat constructor; intros H; vm_compute in H; discriminate.
Defined.

(** X3: whatever the applied pressures, every entry of the record after
    the loop is the entry the pore had before the loop or one of the
    applied pressures. *)
Theorem record_holds_applied_pressures s nb ty vol cs pe rec pts :
  sweeping s nb ty vol cs pe rec ->
  exists s' rec',
    for_each pts outer_step s = (Return tt, s') /\
    pore_record s' = Some (AFloat rec') /\
    length rec' = length rec /\
    forall (q : nat) (r : Q), rec' !! q = Some r -> rec !! q = Some r \/ In r pts.
Proof.
  intros Hsw.
  destruct (loop_result s nb ty vol cs pe rec pts Hsw) as (s' & Hloop & Hsw' & _ & Hlen).
  exists s', (sweep_record (inner_result s nb cs pe) pts rec).
  split; [exact Hloop |]. split; [apply Hsw' |].
  split; [apply sweep_record_length; exact Hlen |].
  intros q r. apply sweep_record_values. exact Hlen.
Qed.

Lemma record_holds_applied_pressures_witness :
  exists s' rec',
    for_each [1%Q; 2%Q; 3%Q] outer_step (snd (__init__ net3 3 [] [0])) = (Return tt, s') /\
    pore_record s' = Some (AFloat rec') /\
    length rec' = length (np.zeros (length [0; 1; 2])) /\
    forall (q : nat) (r : Q), rec' !! q = Some r ->
      np.zeros (length [0; 1; 2]) !! q = Some r \/ In r [1%Q; 2%Q; 3%Q].
Proof.
  apply (record_holds_applied_pressures (snd (__init__ net3 3 [] [0]))
           [0; 1; 2] [0; 0; 0] [1%Q; 1%Q; 1%Q] [(1, 2); (0, 1)] [1%Q; 3%Q]
           (np.zeros (length [0; 1; 2])) [1%Q; 2%Q; 3%Q]).
  exact net3_sweeping.
Defined.

(** ** One step, by mode *)

Lemma joined_mono cs pe p p' x y :
  (p <= p')%Q -> joined cs pe p x y -> joined cs pe p' x y.
Proof.
  intros Hle. induction 1 as [x | x y Hopen | x y _ IH | x y z _ IH1 _ IH2].
  - apply joined_refl.
  - apply joined_throat. destruct Hopen as (t & e & Hc & He & Hlt).
    exists t, e. repeat split; try assumption. eapply Qlt_le_trans; eassumption.
  - apply joined_sym. exact IH.
  - eapply joined_trans; eassumption.
Qed.

Lemma joined_nothing_open cs pe p x y :
  (forall e, In e pe -> ~ (e < p)%Q) -> joined cs pe p x y -> x = y.
Proof.
  intros Hclosed. induction 1 as [x | x y Hopen | x y _ IH | x y z _ IH1 _ IH2];
    try congruence.
  destruct Hopen as (t & e & _ & He & Hlt). exfalso.
  apply (Hclosed e); [| exact Hlt].
  apply list_elem_of_In, list_elem_of_lookup. eauto.
Qed.

(** In source mode, throughout the sweep, a step marks the pores that
    open throats join to a source pore. *)
Lemma source_steps net nb ty vol cs pe npts inv_faces inv_sites pre :
  well_formed net nb ty vol cs pe -> pe <> [] -> 0 <= npts ->
  inv_faces <> [] \/ inv_sites <> [] ->
  exists inv s1,
    for_each pre outer_step (snd (__init__ net npts inv_faces inv_sites)) = (Return tt, s1) /\
    (forall p, fst (_do_one_inner_iteration p s1) = Return (inv p)) /\
    (forall p, fst (_do_one_inner_iteration p (snd (__init__ net npts inv_faces inv_sites)))
               = Return (inv p)) /\
    (forall p, length (inv p) = length nb) /\
    (forall p (q : nat), (q < length nb)%nat ->
       (invaded_this_step (inv p) q <->
        exists r, is_source nb ty inv_faces inv_sites r /\ joined cs pe p q r)).
Proof.
  intros Hwf Hpe Hnpts Hsrc.
  pose proof (init_sweeping net nb ty vol cs pe npts inv_faces inv_sites Hwf Hpe Hnpts) as Hsw.
  destruct (run_returns net nb ty vol cs pe npts inv_faces inv_sites Hwf Hpe Hnpts)
    as (_ & lo & hi & pts & _ & _ & _ & Hinit & _).
  set (s := snd (__init__ net npts inv_faces inv_sites)) in *.
  assert (Hs : s = setup_state inv_faces inv_sites nb ty cs pts (new_object net)).
  { unfold s. rewrite Hinit. reflexivity. }
  destruct (for_each_outer_step nb ty vol cs pe pre s _ Hsw) as (s1 & Hloop & Hsw1 & Hres).
  exists (inner_result s nb cs pe), s1.
  split; [exact Hloop |]. split; [| split; [| split]].
  - intros p. destruct Hsw1 as [Hwf1 Hmode1 _ _].
    rewrite (inner_run s1 nb ty vol cs pe p Hwf1 Hmode1). simpl. rewrite Hres. reflexivity.
  - intros p. destruct Hsw as [Hwf0 Hmode0 _ _].
    rewrite (inner_run s nb ty vol cs pe p Hwf0 Hmode0). reflexivity.
  - intros p. apply length_inner_result. apply Hsw.
  - intros p q Hq.
    destruct (setup_state_not_flood inv_faces inv_sites nb ty cs pts (new_object net) Hsrc)
      as (H1 & _ & H3).
    rewrite <- Hs in H1, H3. unfold inner_result. rewrite H1, H3. simpl.
    destruct Hwf as [_ _ _ _ _ Hl1 _ Hl3 Hrange].
    rewrite source_marked; try assumption.
    + unfold is_source. destruct inv_faces as [| f l].
      * split; intros (r & Hr & Hj); exists r; (split; [| exact Hj]);
          apply lookup_in1d; exact Hr.
      * split; intros (r & Hr & Hj); exists r; (split; [| exact Hj]);
          apply lookup_in1d; exact Hr.
    + destruct inv_faces; unfold np.in1d; rewrite length_map; congruence.
Qed.

Lemma is_source_lt nb ty inv_faces inv_sites (r : nat) :
  length ty = length nb -> is_source nb ty inv_faces inv_sites r -> (r < length nb)%nat.
Proof.
  intros Hl. unfold is_source.
  destruct inv_faces; intros (x & Hx & _); apply lookup_lt_Some in Hx; lia.
Qed.

(** X4: in source mode invasion grows with the applied pressure: at any
    point of the sweep, a pore marked by the step at pressure [p] is marked
    by the step at every pressure [p' >= p]. *)
Theorem source_mode_marking_is_monotone
    net nb ty vol cs pe npts inv_faces inv_sites pre p p' :
  well_formed net nb ty vol cs pe -> pe <> [] -> 0 <= npts ->
  inv_faces <> [] \/ inv_sites <> [] -> (p <= p')%Q ->
  exists s1 inv_clusters inv_clusters',
    for_each pre outer_step (snd (__init__ net npts inv_faces inv_sites)) = (Return tt, s1) /\
    fst (_do_one_inner_iteration p s1) = Return inv_clusters /\
    fst (_do_one_inner_iteration p' s1) = Return inv_clusters' /\
    forall q : nat, (q < length nb)%nat ->
      invaded_this_step inv_clusters q -> invaded_this_step inv_clusters' q.
Proof.
  intros Hwf Hpe Hnpts Hsrc Hle.
  destruct (source_steps net nb ty vol cs pe npts inv_faces inv_sites pre Hwf Hpe Hnpts Hsrc)
    as (inv & s1 & Hloop & Hinv & _ & _ & Hmark).
  exists s1, (inv p), (inv p'). split; [exact Hloop |].
  split; [apply Hinv |]. split; [apply Hinv |].
  intros q Hq Hm. apply (Hmark p' q Hq). apply (Hmark p q Hq) in Hm.
  destruct Hm as (r & Hr & Hj). exists r. split; [exact Hr |].
  eapply joined_mono; eassumption.
Qed.

Lemma source_mode_marking_is_monotone_witness :
  exists s1 inv_clusters inv_clusters',
    for_each [1%Q] outer_step (snd (__init__ net3 3 [] [0])) = (Return tt, s1) /\
    fst (_do_one_inner_iteration 2 s1) = Return inv_clusters /\
    fst (_do_one_inner_iteration 3 s1) = Return inv_clusters' /\
    forall q : nat, (q < length [0; 1; 2])%nat ->
      invaded_this_step inv_clusters q -> invaded_this_step inv_clusters' q.
Proof.
  apply (source_mode_marking_is_monotone net3 [0; 1; 2] [0; 0; 0] [1%Q; 1%Q; 1%Q]
           [(1, 2); (0, 1)] [1%Q; 3%Q] 3 [] [0] [1%Q] 2 3).
  - exact net3_well_formed.
  - discriminate.
  - lia.
  - right. discriminate.
  - vm_compute. discriminate.
Defined.

(** X5: in source mode every source pore is marked at every applied
    pressure, however low; and at a pressure at which no throat is open
    (none has its entry pressure strictly below it) the source pores are
    the only pores marked. *)
Theorem source_pores_are_always_marked
    net nb ty vol cs pe npts inv_faces inv_sites pre p :
  well_formed net nb ty vol cs pe -> pe <> [] -> 0 <= npts ->
  inv_faces <> [] \/ inv_sites <> [] ->
  exists s1 inv_clusters,
    for_each pre outer_step (snd (__init__ net npts inv_faces inv_sites)) = (Return tt, s1) /\
    fst (_do_one_inner_iteration p s1) = Return inv_clusters /\
    (forall q : nat, is_source nb ty inv_faces inv_sites q ->
       invaded_this_step inv_clusters q) /\
    ((forall e, In e pe -> ~ (e < p)%Q) ->
     forall q : nat, (q < length nb)%nat -> invaded_this_step inv_clusters q ->
       is_source nb ty inv_faces inv_sites q).
Proof.
  intros Hwf Hpe Hnpts Hsrc.
  destruct (source_steps net nb ty vol cs pe npts inv_faces inv_sites pre Hwf Hpe Hnpts Hsrc)
    as (inv & s1 & Hloop & Hinv & _ & _ & Hmark).
  exists s1, (inv p). split; [exact Hloop |]. split; [apply Hinv |]. split.
  - intros q Hq. apply Hmark.
    + eapply is_source_lt; [apply Hwf | exact Hq].
    + exists q. split; [exact Hq | apply joined_refl].
  - intros Hclosed q Hq Hm. apply (Hmark p q Hq) in Hm.
    destruct Hm as (r & Hr & Hj).
    rewrite (joined_nothing_open cs pe p q r Hclosed Hj). exact Hr.
Qed.

Lemma source_pores_are_always_marked_witness :
  exists s1 inv_clusters,
    for_each [] outer_step (snd (__init__ net3 3 [] [0])) = (Return tt, s1) /\
    fst (_do_one_inner_iteration 1 s1) = Return inv_clusters /\
    (forall q : nat, is_source [0; 1; 2] [0; 0; 0] [] [0] q ->
       invaded_this_step inv_clusters q) /\
    ((forall e, In e [1%Q; 3%Q] -> ~ (e < 1)%Q) ->
     forall q : nat, (q < length [0; 1; 2])%nat -> invaded_this_step inv_clusters q ->
       is_source [0; 1; 2] [0; 0; 0] [] [0] q).
Proof.
  apply (source_pores_are_always_marked net3 [0; 1; 2] [0; 0; 0] [1%Q; 1%Q; 1%Q]
           [(1, 2); (0, 1)] [1%Q; 3%Q] 3 [] [0] [] 1).
  - exact net3_well_formed.
  - discriminate.
  - lia.
  - right. discriminate.
Defined.

(** ** The schedule and the throats *)

(** Every value of [np.linspace] lies between its two ends. *)
Lemma linspace_bounds (lo hi : Q) (num : Z) pts :
  (lo <= hi)%Q -> np.linspace lo hi num = Return pts ->
  forall v, In v pts -> (lo <= v)%Q /\ (v <= hi)%Q.
Proof.
  intros Hle Hlin v Hv.
  destruct (Z.ltb_spec num 0) as [Hneg | Hnn].
  { unfold np.linspace in Hlin. destruct (Z.ltb_spec num 0); [discriminate | lia]. }
  destruct (Z.eq_dec num 0) as [-> | H0].
  { injection Hlin as <-. contradiction. }
  destruct (Z.eq_dec num 1) as [-> | H1].
  { injection Hlin as <-. destruct Hv as [<- | []]. split; [apply Qle_refl | exact Hle]. }
  assert (Hnum : 2 <= num) by lia.
  destruct (linspace_spec lo hi num Hnum) as (pts' & Hlin' & Hlen & Hith & _).
  rewrite Hlin in Hlin'. injection Hlin' as <-.
  apply list_elem_of_In, list_elem_of_lookup in Hv. destruct Hv as [i Hi].
  assert (Hlt : (i < Z.to_nat num)%nat) by (apply lookup_lt_Some in Hi; lia).
  destruct (Hith i Hlt) as (v' & Hv' & He). rewrite Hi in Hv'. injection Hv' as <-.
  pose proof (step_nonneg lo hi num Hle Hnum) as Hc.
  set (c := ((hi - lo) / inject_Z (num - 1))%Q) in *.
  assert (Hx0 : (0 <= inject_Z (Z.of_nat i))%Q).
  { change 0%Q with (inject_Z 0). rewrite <- Zle_Qle. lia. }
  assert (Hxn : (inject_Z (Z.of_nat i) <= inject_Z (num - 1))%Q).
  { rewrite <- Zle_Qle. lia. }
  assert (Hnc : (inject_Z (num - 1) * c == hi - lo)%Q).
  { unfold c. field. intros Hz. unfold Qeq in Hz. simpl in Hz. lia. }
  assert (Hprod0 : (0 <= inject_Z (Z.of_nat i) * c)%Q)
    by (apply Qmult_le_0_compat; assumption).
  assert (Hprod : (inject_Z (Z.of_nat i) * c <= inject_Z (num - 1) * c)%Q)
    by (apply Qmult_le_compat_r; assumption).
  rewrite He. split; lra.
Qed.

(** With at least one point the schedule starts, numerically, at [lo]. *)
Lemma linspace_first (lo hi : Q) (num : Z) pts :
  1 <= num -> np.linspace lo hi num = Return pts ->
  exists p0 rest, pts = p0 :: rest /\ (p0 == lo)%Q.
Proof.
  intros Hnum Hlin.
  destruct (Z.eq_dec num 1) as [-> | H1].
  { injection Hlin as <-. exists lo, []. split; reflexivity. }
  destruct (linspace_spec lo hi num ltac:(lia)) as (pts' & Hlin' & Hlen & Hith & _).
  rewrite Hlin in Hlin'. injection Hlin' as <-.
  destruct (Hith 0%nat ltac:(lia)) as (v & Hv & He).
  destruct pts as [| p0 rest]; [discriminate |].
  simpl in Hv. injection Hv as ->. exists v, rest. split; [reflexivity |].
  rewrite He. simpl. ring.
Qed.

Lemma lookup_open_flags pe p (t : nat) (e : Q) :
  pe !! t = Some e -> open_flags pe p !! t = Some (np.Qltb e p).
Proof.
  intros H. unfold open_flags. change (map ?f ?l) with (f <$> l).
  rewrite list_lookup_fmap, H. reflexivity.
Qed.

Lemma inner_leaves_flags s nb ty vol cs pe p :
  well_formed (_net s) nb ty vol cs pe -> configured s (length nb) ->
  throat_properties (_net (snd (_do_one_inner_iteration p s))) !! "invaded" =
  Some (ABool (open_flags pe p)).
Proof.
  intros Hwf Hmode. rewrite (inner_run s nb ty vol cs pe p Hwf Hmode).
  destruct s as [[pp tp adj] c op alop isrc ipts res]. cbn.
  apply lookup_insert_eq.
Qed.

(** X6: the throat flags a step leaves in ['invaded'] are strict
    comparisons with a pressure of the schedule, which never exceeds the
    greatest entry pressure: at no step of the run is a throat of greatest
    entry pressure flagged open, and at the first step no throat is. *)
Theorem greatest_throats_never_open net nb ty vol cs pe npts inv_faces inv_sites :
  well_formed net nb ty vol cs pe -> pe <> [] -> 0 <= npts ->
  exists s hi pts,
    __init__ net npts inv_faces inv_sites = (Return tt, s) /\
    _inv_points s = Some pts /\ np.max pe = Return hi /\
    (forall v, In v pts ->
       exists flags,
         throat_properties (_net (snd (_do_one_inner_iteration v s))) !! "invaded" =
           Some (ABool flags) /\
         length flags = length pe /\
         forall (t : nat) (e : Q), pe !! t = Some e -> (hi <= e)%Q ->
           flags !! t = Some false) /\
    (forall p0 rest, pts = p0 :: rest ->
       throat_properties (_net (snd (_do_one_inner_iteration p0 s))) !! "invaded" =
         Some (ABool (repeat false (length pe)))).
Proof.
  intros Hwf Hpe Hnpts.
  pose proof (init_sweeping net nb ty vol cs pe npts inv_faces inv_sites Hwf Hpe Hnpts)
    as [Hwf0 Hmode0 _ _].
  destruct (run_returns net nb ty vol cs pe npts inv_faces inv_sites Hwf Hpe Hnpts)
    as (_ & lo & hi & pts & Hlo & Hhi & Hlin & Hinit & _).
  destruct (min_spec pe Hpe) as (lo' & Hlo' & Hlo_in & Hlo_le).
  destruct (max_spec pe Hpe) as (hi' & Hhi' & Hhi_in & Hhi_le).
  rewrite Hlo in Hlo'. injection Hlo' as <-. rewrite Hhi in Hhi'. injection Hhi' as <-.
  assert (Hlohi : (lo <= hi)%Q) by (apply Hlo_le; exact Hhi_in).
  rewrite Hinit in Hwf0, Hmode0. simpl snd in Hwf0, Hmode0.
  set (s := setup_state inv_faces inv_sites nb ty cs pts (new_object net)) in *.
  exists s, hi, pts. split; [exact Hinit |]. split; [reflexivity |]. split; [exact Hhi |].
  split.
  - intros v Hv. exists (open_flags pe v).
    split; [apply (inner_leaves_flags s nb ty vol cs pe v Hwf0 Hmode0) |].
    split; [unfold open_flags; apply length_map |].
    intros t e He Hhe. rewrite (lookup_open_flags pe v t e He). f_equal.
    apply Qltb_false. destruct (linspace_bounds lo hi npts pts Hlohi Hlin v Hv) as [_ Hvhi].
    lra.
  - intros p0 rest Hpts.
    rewrite (inner_leaves_flags s nb ty vol cs pe p0 Hwf0 Hmode0). do 2 f_equal.
    assert (Hp0 : (p0 == lo)%Q).
    { destruct (Z.eq_dec npts 0) as [-> | Hn0].
      - injection Hlin as <-. discriminate.
      - destruct (linspace_first lo hi npts pts ltac:(lia) Hlin) as (p0' & rest' & Heq & He).
        rewrite Hpts in Heq. injection Heq as <- <-. exact He. }
    apply list_eq. intros t. unfold open_flags.
    change (map ?f ?l) with (f <$> l). rewrite list_lookup_fmap.
    destruct (pe !! t) as [e |] eqn:Et; simpl.
    + rewrite lookup_repeat by (apply lookup_lt_Some in Et; exact Et). f_equal.
      apply Qltb_false. rewrite Hp0. apply Hlo_le.
      apply list_elem_of_In, list_elem_of_lookup. eauto.
    + symmetry. apply lookup_ge_None. rewrite repeat_length.
      apply lookup_ge_None in Et. exact Et.
Qed.

Lemma greatest_throats_never_open_witness :
  exists s hi pts,
    __init__ net3 3 [] [0] = (Return tt, s) /\
    _inv_points s = Some pts /\ np.max [1%Q; 3%Q] = Return hi /\
    (forall v, In v pts ->
       exists flags,
         throat_properties (_net (snd (_do_one_inner_iteration v s))) !! "invaded" =
           Some (ABool flags) /\
         length flags = length [1%Q; 3%Q] /\
         forall (t : nat) (e : Q), [1%Q; 3%Q] !! t = Some e -> (hi <= e)%Q ->
           flags !! t = Some false) /\
    (forall p0 rest, pts = p0 :: rest ->
       throat_properties (_net (snd (_do_one_inner_iteration p0 s))) !! "invaded" =
         Some (ABool (repeat false (length [1%Q; 3%Q])))).
Proof.
  apply (greatest_throats_never_open net3 [0; 1; 2] [0; 0; 0] [1%Q; 1%Q; 1%Q]
           [(1, 2); (0, 1)] [1%Q; 3%Q] 3 [] [0]).
  - exact net3_well_formed.
  - discriminate.
  - lia.
Defined.

(** ** The whole run in source mode *)

(** With positive entry pressures no applied pressure is the sentinel. *)
Lemma schedule_nonzero pe lo hi npts pts :
  pe <> [] -> (forall e, In e pe -> (0 < e)%Q) ->
  np.min pe = Return lo -> np.max pe = Return hi ->
  np.linspace lo hi npts = Return pts ->
  (0 < lo)%Q /\ Forall (fun p => ~ (p == 0)%Q) pts.
Proof.
  intros Hpe Hpos Hlo Hhi Hlin.
  destruct (min_spec pe Hpe) as (lo' & Hlo' & Hlo_in & Hlo_le).
  destruct (max_spec pe Hpe) as (hi' & Hhi' & Hhi_in & _).
  rewrite Hlo in Hlo'. injection Hlo' as <-. rewrite Hhi in Hhi'. injection Hhi' as <-.
  assert (H0 : (0 < lo)%Q) by (apply Hpos; exact Hlo_in).
  split; [exact H0 |]. apply List.Forall_forall. intros v Hv Hz.
  destruct (linspace_bounds lo hi npts pts (Hlo_le hi Hhi_in) Hlin v Hv) as [Hv0 _].
  lra.
Qed.

(** The run in source mode on a network of positive entry pressures. *)
Lemma run_source_record net nb ty vol cs pe npts inv_faces inv_sites :
  well_formed net nb ty vol cs pe -> pe <> [] -> 0 <= npts ->
  (forall e, In e pe -> (0 < e)%Q) ->
  inv_faces <> [] \/ inv_sites <> [] ->
  exists s lo pts rec,
    run net npts inv_faces inv_sites = (Return tt, s) /\
    np.min pe = Return lo /\
    (1 <= npts -> exists p0 rest, pts = p0 :: rest /\ (p0 == lo)%Q) /\
    _inv_points s = Some pts /\
    pore_record s = Some (AFloat rec) /\
    length rec = length nb /\
    forall (q : nat) (r : Q), rec !! q = Some r ->
      (r = 0%Q /\
       forall p, In p pts -> ~ reached nb ty inv_faces inv_sites cs pe p q) \/
      (exists pre post, pts = pre ++ r :: post /\
         reached nb ty inv_faces inv_sites cs pe r q /\
         forall p, In p pre -> ~ reached nb ty inv_faces inv_sites cs pe p q).
Proof.
  intros Hwf Hpe Hnpts Hpos Hsrc.
  destruct (run_returns net nb ty vol cs pe npts inv_faces inv_sites Hwf Hpe Hnpts)
    as (_ & lo & hi & pts & Hlo & Hhi & Hlin & Hinit & _).
  destruct (schedule_nonzero pe lo hi npts pts Hpe Hpos Hlo Hhi Hlin) as [_ Hnz].
  pose proof (init_sweeping net nb ty vol cs pe npts inv_faces inv_sites Hwf Hpe Hnpts)
    as Hsw.
  destruct (source_steps net nb ty vol cs pe npts inv_faces inv_sites []
              Hwf Hpe Hnpts Hsrc) as (inv & _ & _ & _ & Hinv & _ & Hmark).
  assert (Hset : _setup npts inv_faces inv_sites (new_object net) =
                 (Return tt, snd (__init__ net npts inv_faces inv_sites))).
  { unfold __init__ in *. rewrite Hinit. reflexivity. }
  set (s0 := snd (__init__ net npts inv_faces inv_sites)) in *.
  assert (Hpts0 : _inv_points s0 = Some pts) by (unfold s0; rewrite Hinit; reflexivity).
  assert (Hkey : is_Some (throat_properties (_net s0) !! "invaded")).
  { unfold s0. rewrite Hinit. cbn. rewrite lookup_insert_eq. eexists. reflexivity. }
  destruct (stage_run s0 nb ty vol cs pe _ pts Hsw Hpts0 Hkey)
    as (s & Hstage & Hrec & _ & Hpts).
  destruct (loop_result s0 nb ty vol cs pe _ pts Hsw) as (_ & _ & _ & Hinner & Hlen).
  assert (Heq : forall p, inner_result s0 nb cs pe p = inv p).
  { intros p. specialize (Hinv p). rewrite Hinner in Hinv. injection Hinv as ->.
    reflexivity. }
  exists s, lo, pts, (sweep_record (inner_result s0 nb cs pe) pts (np.zeros (length nb))).
  split; [unfold run, bind; rewrite Hset; exact Hstage |].
  split; [exact Hlo |].
  split; [intros H1; eapply linspace_first; eassumption |].
  split; [exact Hpts |]. split; [exact Hrec |].
  split; [rewrite sweep_record_length by exact Hlen; apply length_zeros |].
  intros q r Hq.
  assert (Hlt : (q < length nb)%nat).
  { apply lookup_lt_Some in Hq. rewrite sweep_record_length in Hq by exact Hlen.
    rewrite length_zeros in Hq. exact Hq. }
  assert (Hiff : forall p, invaded_this_step (inner_result s0 nb cs pe p) q <->
                           reached nb ty inv_faces inv_sites cs pe p q).
  { intros p. rewrite Heq. apply Hmark. exact Hlt. }
  destruct (sweep_record_first (inner_result s0 nb cs pe) pts q r 0%Q
              (np.zeros (length nb)) Hlen Hnz (lookup_zeros _ _ Hlt) ltac:(reflexivity) Hq)
    as [[Hr Hnone] | (pre & post & Hsplit & Hm & Hpre)].
  - left. split; [exact Hr |]. intros p Hp Hreach. apply (Hnone p Hp).
    apply Hiff. exact Hreach.
  - right. exists pre, post. split; [exact Hsplit |]. split; [apply Hiff; exact Hm |].
    intros p Hp Hreach. apply (Hpre p Hp). apply Hiff. exact Hreach.
Qed.

(** X7: a run in source mode on a network of positive entry pressures
    records, for every pore, the first pressure of the schedule at which
    open throats join the pore to a source pore, and leaves the sentinel 0
    for a pore that is joined to a source at no pressure of the schedule. *)
Theorem run_records_first_reaching_pressure
    net nb ty vol cs pe npts inv_faces inv_sites :
  well_formed net nb ty vol cs pe -> pe <> [] -> 0 <= npts ->
  (forall e, In e pe -> (0 < e)%Q) ->
  inv_faces <> [] \/ inv_sites <> [] ->
  exists s pts rec,
    run net npts inv_faces inv_sites = (Return tt, s) /\
    _inv_points s = Some pts /\
    pore_record s = Some (AFloat rec) /\
    length rec = length nb /\
    forall (q : nat) (r : Q), rec !! q = Some r ->
      (r = 0%Q /\
       forall p, In p pts -> ~ reached nb ty inv_faces inv_sites cs pe p q) \/
      (exists pre post, pts = pre ++ r :: post /\
         reached nb ty inv_faces inv_sites cs pe r q /\
         forall p, In p pre -> ~ reached nb ty inv_faces inv_sites cs pe p q).
Proof.
  intros Hwf Hpe Hnpts Hpos Hsrc.
  destruct (run_source_record net nb ty vol cs pe npts inv_faces inv_sites
              Hwf Hpe Hnpts Hpos Hsrc)
    as (s & lo & pts & rec & Hrun & _ & _ & Hpts & Hrec & Hlen & Hall).
  exists s, pts, rec. repeat (split; [assumption |]). exact Hall.
Qed.

Lemma run_records_first_reaching_pressure_witness :
  exists s pts rec,
    run net3 3 [] [0] = (Return tt, s) /\
    _inv_points s = Some pts /\
    pore_record s = Some (AFloat rec) /\
    length rec = length [0; 1; 2] /\
    forall (q : nat) (r : Q), rec !! q = Some r ->
      (r = 0%Q /\
       forall p, In p pts ->
         ~ reached [0; 1; 2] [0; 0; 0] [] [0] [(1, 2); (0, 1)] [1%Q; 3%Q] p q) \/
      (exists pre post, pts = pre ++ r :: post /\
         reached [0; 1; 2] [0; 0; 0] [] [0] [(1, 2); (0, 1)] [1%Q; 3%Q] r q /\
         forall p, In p pre ->
           ~ reached [0; 1; 2] [0; 0; 0] [] [0] [(1, 2); (0, 1)] [1%Q; 3%Q] p q).
Proof.
  apply (run_records_first_reaching_pressure net3 [0; 1; 2] [0; 0; 0]
           [1%Q; 1%Q; 1%Q] [(1, 2); (0, 1)] [1%Q; 3%Q] 3 [] [0]).
  - exact net3_well_formed.
  - discriminate.
  - lia.
  - intros e [<- | [<- | []]]; vm_compute; reflexivity.
  - right. discriminate.
Defined.

(** X8: in such a run with at least one pressure point, every source
    pore is recorded at the first pressure of the schedule, which is the
    least throat entry pressure: a pressure at which no throat is open. *)
Theorem source_pores_recorded_at_least_entry_pressure
    net nb ty vol cs pe npts inv_faces inv_sites :
  well_formed net nb ty vol cs pe -> pe <> [] -> 1 <= npts ->
  (forall e, In e pe -> (0 < e)%Q) ->
  inv_faces <> [] \/ inv_sites <> [] ->
  exists s lo p0 rec,
    run net npts inv_faces inv_sites = (Return tt, s) /\
    np.min pe = Return lo /\ (p0 == lo)%Q /\
    (forall e, In e pe -> ~ (e < p0)%Q) /\
    pore_record s = Some (AFloat rec) /\
    forall q : nat, is_source nb ty inv_faces inv_sites q -> rec !! q = Some p0.
Proof.
  intros Hwf Hpe Hnpts Hpos Hsrc.
  destruct (run_source_record net nb ty vol cs pe npts inv_faces inv_sites
              Hwf Hpe ltac:(lia) Hpos Hsrc)
    as (s & lo & pts & rec & Hrun & Hlo & Hfirst & Hpts & Hrec & Hlen & Hall).
  destruct (Hfirst Hnpts) as (p0 & rest & Hsplit & Hp0).
  destruct (min_spec pe Hpe) as (lo' & Hlo' & _ & Hlo_le).
  rewrite Hlo in Hlo'. injection Hlo' as <-.
  exists s, lo, p0, rec. split; [exact Hrun |]. split; [exact Hlo |].
  split; [exact Hp0 |]. split.
  { intros e He Hlt. specialize (Hlo_le e He). lra. }
  split; [exact Hrec |].
  intros q Hq.
  assert (Hlt : (q < length rec)%nat).
  { rewrite Hlen. eapply is_source_lt; [apply Hwf | exact Hq]. }
  destruct (lookup_lt_is_Some_2 rec q Hlt) as [r Hr].
  assert (Hreach : forall p, reached nb ty inv_faces inv_sites cs pe p q).
  { intros p. exists q. split; [exact Hq | apply joined_refl]. }
  destruct (Hall q r Hr) as [[_ Hnone] | (pre & post & Hpre & _ & Hnot)].
  - exfalso. apply (Hnone p0); [rewrite Hsplit; left; reflexivity | apply Hreach].
  - destruct pre as [| p1 pre'].
    + rewrite Hsplit in Hpre. simpl in Hpre. injection Hpre as -> _. exact Hr.
    + exfalso. apply (Hnot p1); [left; reflexivity | apply Hreach].
Qed.

Lemma source_pores_recorded_at_least_entry_pressure_witness :
  exists s lo p0 rec,
    run net3 3 [] [0] = (Return tt, s) /\
    np.min [1%Q; 3%Q] = Return lo /\ (p0 == lo)%Q /\
    (forall e, In e [1%Q; 3%Q] -> ~ (e < p0)%Q) /\
    pore_record s = Some (AFloat rec) /\
    forall q : nat, is_source [0; 1; 2] [0; 0; 0] [] [0] q -> rec !! q = Some p0.
Proof.
  apply (source_pores_recorded_at_least_entry_pressure net3 [0; 1; 2] [0; 0; 0]
           [1%Q; 1%Q; 1%Q] [(1, 2); (0, 1)] [1%Q; 3%Q] 3 [] [0]).
  - exact net3_well_formed.
  - discriminate.
  - lia.
  - intros e [<- | [<- | []]]; vm_compute; reflexivity.
  - right. discriminate.
Defined.

(** ** Flood mode while every throat is closed *)

Lemma temp_all_closed (f : Z * Z -> Z) pe p cs (z : Z) :
  (forall e, In e pe -> ~ (e < p)%Q) ->
  In z (zip_with (fun x y => np.b2z x * y) (open_flags pe p)
          (map (fun c => (f c + 1) - 1) cs)) ->
  z = 0.
Proof.
  intros Hclosed Hin. apply list_elem_of_In, list_elem_of_lookup in Hin.
  destruct Hin as [t Ht]. rewrite lookup_zip_with in Ht.
  destruct (open_flags pe p !! t) as [b |] eqn:Eb; simpl in Ht; [| discriminate].
  destruct (map (fun c => f c + 1 - 1) cs !! t) as [y |]; simpl in Ht; [| discriminate].
  injection Ht as <-.
  unfold open_flags in Eb. change (map ?g ?l) with (g <$> l) in Eb.
  rewrite list_lookup_fmap in Eb.
  destruct (pe !! t) as [e |] eqn:Ee; simpl in Eb; [| discriminate].
  injection Eb as <-.
  assert (Hf : np.Qltb e p = false).
  { destruct (np.Qltb e p) eqn:E; [| reflexivity]. apply Qltb_lt in E.
    exfalso. apply (Hclosed e); [| exact E].
    apply list_elem_of_In, list_elem_of_lookup. eauto. }
  rewrite Hf. reflexivity.
Qed.

Lemma flood_sources_all_closed nb cs pe p (z : Z) :
  nb !! 0%nat = Some 0 -> (forall e, In e pe -> ~ (e < p)%Q) ->
  In z (flood_sources nb cs pe p) -> z = 0.
Proof.
  intros Hnb Hclosed Hin. unfold flood_sources in Hin.
  apply in_app_or in Hin.
  destruct Hin as [Hin | Hin]; apply in_map_iff in Hin;
    destruct Hin as (i & <- & Hi); apply List.filter_In in Hi; destruct Hi as [Hi _].
  - rewrite (temp_all_closed fst pe p cs i Hclosed Hi). simpl.
    apply (nth_lookup_Some nb 0 0 0 Hnb).
  - rewrite (temp_all_closed snd pe p cs i Hclosed Hi). simpl.
    apply (nth_lookup_Some nb 0 0 0 Hnb).
Qed.

(** X9: in flood mode, at any point of the sweep, a step at a pressure at
    which no throat is open (no entry pressure is strictly below it) marks
    no pore, provided the first pore carries the number 0. *)
Theorem flood_marks_nothing_while_throats_closed net nb ty vol cs pe npts pre p :
  well_formed net nb ty vol cs pe -> pe <> [] -> 0 <= npts ->
  nb !! 0%nat = Some 0 ->
  (forall e, In e pe -> ~ (e < p)%Q) ->
  exists s1 inv_clusters,
    for_each pre outer_step (snd (__init__ net npts [] [])) = (Return tt, s1) /\
    fst (_do_one_inner_iteration p s1) = Return inv_clusters /\
    length inv_clusters = length nb /\
    forall q : nat, ~ invaded_this_step inv_clusters q.
Proof.
  intros Hwf Hpe Hnpts Hnb Hclosed.
  pose proof (init_sweeping net nb ty vol cs pe npts [] [] Hwf Hpe Hnpts) as Hsw.
  destruct (run_returns net nb ty vol cs pe npts [] [] Hwf Hpe Hnpts)
    as (_ & lo & hi & pts & _ & _ & _ & Hinit & _).
  set (s := snd (__init__ net npts [] [])) in *.
  assert (Halop : _ALOP s = 0) by (unfold s; rewrite Hinit; reflexivity).
  destruct (for_each_outer_step nb ty vol cs pe pre s _ Hsw) as (s1 & Hloop & Hsw1 & Hres).
  exists s1, (inner_result s nb cs pe p).
  split; [exact Hloop |]. split; [| split].
  - destruct Hsw1 as [Hwf1 Hmode1 _ _].
    rewrite (inner_run s1 nb ty vol cs pe p Hwf1 Hmode1). simpl. rewrite Hres. reflexivity.
  - apply length_inner_result. apply Hsw.
  - intros q. unfold inner_result. rewrite Halop. simpl.
    destruct Hwf as [_ _ _ _ _ _ _ Hl3 Hrange].
    destruct (Nat.lt_ge_cases q (length nb)) as [Hq | Hq].
    + destruct (clusters_at_spec (length nb) cs pe p Hl3 Hrange q Hq) as (c & Hc & Hpos & _).
      unfold invaded_this_step. rewrite (trim_marked _ _ q c Hc Hpos). intros Hin.
      apply (flood_sources_all_closed nb cs pe p c Hnb Hclosed) in Hin. lia.
    + unfold invaded_this_step. rewrite nth_overflow; [lia |].
      rewrite length_trim, length_clusters_at. exact Hq.
Qed.

Lemma flood_marks_nothing_while_throats_closed_witness :
  exists s1 inv_clusters,
    for_each [] outer_step (snd (__init__ net3 3 [] [])) = (Return tt, s1) /\
    fst (_do_one_inner_iteration 1 s1) = Return inv_clusters /\
    length inv_clusters = length [0; 1; 2] /\
    forall q : nat, ~ invaded_this_step inv_clusters q.
Proof.
  apply (flood_marks_nothing_while_throats_closed net3 [0; 1; 2] [0; 0; 0]
           [1%Q; 1%Q; 1%Q] [(1, 2); (0, 1)] [1%Q; 3%Q] 3 [] 1).
  - exact net3_well_formed.
  - discriminate.
  - lia.
  - reflexivity.
  - intros e [<- | [<- | []]] H; vm_compute in H; discriminate.
Defined.

(** ** Edge cases of [_plot_results] *)

Lemma unique_all_equal rec :
  rec <> [] -> (forall a b, In a rec -> In b rec -> (a == b)%Q) ->
  exists x, np.unique np.Qltb rec = [x] /\ In x rec.
Proof.
  intros Hne Heq.
  pose proof (unique_sorted rec) as Hs.
  pose proof (unique_nonempty rec Hne) as Hn.
  pose proof (unique_from rec) as Hfrom.
  destruct (np.unique np.Qltb rec) as [| x [| y l]]; [contradiction | |].
  - exists x. split; [reflexivity |]. apply Hfrom. left. reflexivity.
  - exfalso. inversion Hs as [| ? ? _ Hall]; subst.
    inversion Hall as [| ? ? Hxy _]; subst.
    assert (Hq : (x == y)%Q).
    { apply Heq; apply Hfrom; [left | right; left]; reflexivity. }
    rewrite Hq in Hxy. apply (Qlt_irrefl y). exact Hxy.
Qed.

(** X10: when all entries of the record are numerically equal (as right
    after [_setup], when they are all 0), [_plot_results] returns the curve
    of one point, that value with saturation 0; no division is made,
    whatever the volumes. *)
Theorem uniform_record_gives_single_point s nb ty vol cs pe rec :
  finalized s nb ty vol cs pe rec ->
  rec <> [] -> (forall a b, In a rec -> In b rec -> (a == b)%Q) ->
  exists s' x,
    _plot_results s = (Return tt, s') /\ _results s' = Some [(x, np.Finite 0%Q)] /\
    In x rec.
Proof.
  intros [[Hnb Hty Hvol Hcs Hpe Hl1 Hl2 Hl3 Hrange] Hrec Hlen] Hne Heq.
  destruct (unique_all_equal rec Hne Heq) as (x & Hu & Hx).
  destruct s as [[pp tp adj] c op alop isrc ipts res]. cbn in *.
  eexists. exists x. split; [| split; [| exact Hx]].
  - unfold _plot_results. mrun. rewrite Hu. simpl. reflexivity.
  - reflexivity.
Qed.

Lemma uniform_record_gives_single_point_witness :
  exists s' x,
    _plot_results (snd (__init__ net3 3 [] [0])) = (Return tt, s') /\
    _results s' = Some [(x, np.Finite 0%Q)] /\ In x (np.zeros (length [0; 1; 2])).
Proof.
  apply (uniform_record_gives_single_point (snd (__init__ net3 3 [] [0]))
           [0; 1; 2] [0; 0; 0] [1%Q; 1%Q; 1%Q] [(1, 2); (0, 1)] [1%Q; 3%Q]
           (np.zeros (length [0; 1; 2]))).
  - destruct net3_sweeping as [Hwf _ Hrec Hlen]. split; assumption.
  - discriminate.
  - intros a b [<- | [<- | [<- | []]]] [<- | [<- | [<- | []]]]; reflexivity.
Defined.

Lemma two_distinct_length {A} (l : list A) (x y : A) :
  In x l -> In y l -> x <> y -> (2 <= length l)%nat.
Proof.
  destruct l as [| a [| b l]]; simpl; intros Hx Hy Hne; try lia; try contradiction.
  destruct Hx as [<- | []]. destruct Hy as [<- | []]. congruence.
Qed.

(** X11: on a network without any pore of type 0, [_plot_results] fails
    with ZeroDivisionError as soon as the record holds two different
    values; the object is left as it was, without a curve. *)
Theorem no_internal_pore_no_curve s nb ty vol cs pe rec a b :
  finalized s nb ty vol cs pe rec ->
  (forall t, In t ty -> t <> 0) ->
  In a rec -> In b rec -> (a < b)%Q ->
  _plot_results s = (Raise ZeroDivisionError, s).
Proof.
  intros [[Hnb Hty Hvol Hcs Hpe Hl1 Hl2 Hl3 Hrange] Hrec Hlen] Hnone Ha Hb Hab.
  assert (Hr : length rec = length ty) by congruence.
  assert (Hv : length vol = length ty) by congruence.
  destruct (unique_covers rec a Ha) as (ya & Hya & Hea).
  destruct (unique_covers rec b Hb) as (yb & Hyb & Heb).
  assert (Hne : ya <> yb).
  { intros ->. rewrite <- Hea, <- Heb in Hab. apply (Qlt_irrefl yb). exact Hab. }
  pose proof (two_distinct_length _ ya yb Hya Hyb Hne) as H2.
  destruct s as [[pp tp adj] c op alop isrc ipts res]. cbn in *.
  unfold _plot_results. mrun.
  change (map (fun x : Z => x =? 0) ty) with (reporting ty).
  destruct (length (np.unique np.Qltb rec) - 1)%nat as [| k] eqn:Ek; [lia |].
  cbn [seq saturation_loop]. unfold bind at 1.
  match goal with
  | |- context [saturation_step ?P _ ?S0 ?i ?st] =>
      rewrite (saturation_step_no_internal st P ty rec vol S0 i Hrec Hvol Hr Hv Hnone)
  end.
  reflexivity.
Qed.

Lemma no_internal_pore_no_curve_witness :
  _plot_results
    (new_object
       (with_pores (insert "Pc_invaded" (AFloat [1%Q; 0%Q; 0%Q]))
          (make_network [0; 1; 2] [1; 1; 2] [1%Q; 1%Q; 1%Q] [(1, 2); (0, 1)] [1%Q; 3%Q]))) =
  (Raise ZeroDivisionError,
   new_object
     (with_pores (insert "Pc_invaded" (AFloat [1%Q; 0%Q; 0%Q]))
        (make_network [0; 1; 2] [1; 1; 2] [1%Q; 1%Q; 1%Q] [(1, 2); (0, 1)] [1%Q; 3%Q]))).
Proof.
  apply (no_internal_pore_no_curve _ [0; 1; 2] [1; 1; 2] [1%Q; 1%Q; 1%Q]
           [(1, 2); (0, 1)] [1%Q; 3%Q] [1%Q; 0%Q; 0%Q] 0%Q 1%Q).
  - split; [split |..]; vm_compute; reflexivity.
  - intros t [<- | [<- | [<- | []]]]; discriminate.
  - right. left. reflexivity.
  - left. reflexivity.
  - reflexivity.
Defined.

(** ** A missing source property *)

(** X13: [_setup] looks the sources up before it writes anything.  With
    face sources on a network without the pore property ['type'], and with
    site sources only on a network without ['numbering'], it fails with
    KeyError and the network is left exactly as it was. *)
Theorem setup_without_source_property s npts inv_faces inv_sites :
  (inv_faces <> [] /\ pore_properties (_net s) !! "type" = None) \/
  (inv_faces = [] /\ inv_sites <> [] /\ pore_properties (_net s) !! "numbering" = None) ->
  exists s',
    _setup npts inv_faces inv_sites s = (Raise KeyError, s') /\
    _net s' = _net s /\ _inv_points s' = _inv_points s.
Proof.
  intros H. destruct s as [[pp tp adj] c op alop isrc ipts res]. cbn in H.
  unfold _setup.
  destruct H as [[Hf Hty] | (-> & Hs & Hnb)].
  - destruct inv_faces as [| f l]; [congruence |].
    assert (E0 : (np.size (f :: l) + np.size inv_sites =? 0) = false).
    { apply Z.eqb_neq. unfold np.size. simpl length. lia. }
    assert (E1 : (0 <? np.size (f :: l)) = true).
    { apply Z.ltb_lt. unfold np.size. simpl length. lia. }
    rewrite E0, E1. eexists. split; [mred; rewrite Hty; reflexivity |].
    split; reflexivity.
  - destruct inv_sites as [| t l]; [congruence |].
    assert (E0 : (np.size (@nil Z) + np.size (t :: l) =? 0) = false).
    { apply Z.eqb_neq. unfold np.size. simpl length. lia. }
    assert (E2 : (0 <? np.size (t :: l)) = true).
    { apply Z.ltb_lt. unfold np.size. simpl length. lia. }
    rewrite E0, E2. change (0 <? np.size (@nil Z)) with false.
    eexists. split; [mred; rewrite Hnb; reflexivity |].
    split; reflexivity.
Qed.

Lemma setup_without_source_property_witness :
  exists s',
    _setup 25 [1] [] (new_object net_untyped) = (Raise KeyError, s') /\
    _net s' = _net (new_object net_untyped) /\
    _inv_points s' = _inv_points (new_object net_untyped).
Proof.
  apply (setup_without_source_property (new_object net_untyped) 25 [1] []).
  left. split; [discriminate | reflexivity].
Defined.

(** ** The run followed by the curve *)

(** X14: after a run on a network with at least one throat, and with a
    reporting subset of nonzero volume, [_plot_results] returns a curve
    every pressure of which is the sentinel 0 or a pressure of the
    schedule. *)
Theorem curve_pressures_come_from_schedule net nb ty vol cs pe npts inv_faces inv_sites :
  well_formed net nb ty vol cs pe -> pe <> [] -> 0 <= npts ->
  ~ (reporting_volume ty vol == 0)%Q ->
  exists s pts s' curve,
    run net npts inv_faces inv_sites = (Return tt, s) /\
    _inv_points s = Some pts /\
    _plot_results s = (Return tt, s') /\ _results s' = Some curve /\
    forall Pc, In Pc (map fst curve) -> Pc = 0%Q \/ In Pc pts.
Proof.
  intros Hwf Hpe Hnpts Htot.
  destruct (run_returns net nb ty vol cs pe npts inv_faces inv_sites Hwf Hpe Hnpts)
    as (_ & lo & hi & pts & _ & _ & _ & Hinit & _).
  pose proof (init_sweeping net nb ty vol cs pe npts inv_faces inv_sites Hwf Hpe Hnpts)
    as Hsw.
  assert (Hset : _setup npts inv_faces inv_sites (new_object net) =
                 (Return tt, snd (__init__ net npts inv_faces inv_sites))).
  { unfold __init__ in *. rewrite Hinit. reflexivity. }
  set (s0 := snd (__init__ net npts inv_faces inv_sites)) in *.
  assert (Hpts0 : _inv_points s0 = Some pts) by (unfold s0; rewrite Hinit; reflexivity).
  assert (Hkey : is_Some (throat_properties (_net s0) !! "invaded")).
  { unfold s0. rewrite Hinit. cbn. rewrite lookup_insert_eq. eexists. reflexivity. }
  destruct (stage_run s0 nb ty vol cs pe _ pts Hsw Hpts0 Hkey)
    as (s & Hstage & Hrec & Hwf' & Hpts).
  destruct (loop_result s0 nb ty vol cs pe _ pts Hsw) as (_ & _ & _ & _ & Hlen).
  set (rec := sweep_record (inner_result s0 nb cs pe) pts (np.zeros (length nb))) in *.
  assert (Hfin : finalized s nb ty vol cs pe rec).
  { split; [exact Hwf' | exact Hrec |].
    unfold rec. rewrite sweep_record_length by exact Hlen. apply length_zeros. }
  destruct (plot_curve s nb ty vol cs pe rec Hfin Htot)
    as (s' & curve & Hrun & Hres & Hfst & _).
  exists s, pts, s', curve.
  split; [unfold run, bind; rewrite Hset; exact Hstage |].
  split; [exact Hpts |]. split; [exact Hrun |]. split; [exact Hres |].
  intros Pc HPc. rewrite Hfst in HPc. apply unique_from in HPc.
  apply list_elem_of_In, list_elem_of_lookup in HPc. destruct HPc as [q Hq].
  destruct (sweep_record_values _ pts q Pc _ Hlen Hq) as [Hz | Hin].
  - left.
    assert (Hlt : (q < length nb)%nat)
      by (apply lookup_lt_Some in Hz; rewrite length_zeros in Hz; exact Hz).
    rewrite lookup_zeros in Hz by exact Hlt. congruence.
  - right. exact Hin.
Qed.

Lemma curve_pressures_come_from_schedule_witness :
  exists s pts s' curve,
    run net3 3 [] [0] = (Return tt, s) /\
    _inv_points s = Some pts /\
    _plot_results s = (Return tt, s') /\ _results s' = Some curve /\
    forall Pc, In Pc (map fst curve) -> Pc = 0%Q \/ In Pc pts.
Proof.
  apply (curve_pressures_come_from_schedule net3 [0; 1; 2] [0; 0; 0] [1%Q; 1%Q; 1%Q]
           [(1, 2); (0, 1)] [1%Q; 3%Q] 3 [] [0]).
  - exact net3_well_formed.
  - discriminate.
  - lia.
  - intros H. vm_compute in H. discriminate.
Defined.
